(** * Distributed BSP shortest-path engine: a shallow embedding

    The development follows the C++ sources: [Graph.h] (edges, nodes, the
    [Graph] class and its text loader), [Partitioner.h] (round-robin
    ownership) and the MPI driver [main] (INIT, the superstep loop, the
    statistics reduction and the report printed by rank 0).

    Conventions.
    - C++ [int] is [Z]; signed overflow is undefined in C++ and is not
      modelled, so counters are unbounded integers.
    - C++ [double] is [double] below: an exact rational or [+infinity].
      Rounding, NaN and negative infinity are not modelled; the driver only
      adds, compares with [<] and tests against [infinity].
    - [std::vector] is [list]; [operator[]] outside the bounds is undefined
      behaviour and is [None] in the option monad.
    - The worker cohort is a list of per-process states; a collective
      (MPI_Allreduce, MPI_Reduce) is a function of all the participants'
      contributions. *)

From Stdlib Require Import ZArith QArith Qabs Lqa List Bool Ascii String Lia.
From stdpp Require Import base option list gmap.

Open Scope Z_scope.

(** ** Numbers *)

Inductive double : Type :=
  | Fin (q : Q)
  | PInf.

(** [numeric_limits<double>::infinity()] *)
Definition infinity : double := PInf.

(** The literal [0.0]. *)
Definition zero : double := Fin 0%Q.

(** [a < b] on doubles. *)
Definition dlt (a b : double) : bool :=
  match a, b with
  | Fin p, Fin q => negb (Qle_bool q p)
  | Fin _, PInf => true
  | PInf, _ => false
  end.

(** [a + b] on doubles. *)
Definition dadd (a b : double) : double :=
  match a, b with
  | Fin p, Fin q => Fin (p + q)%Q
  | _, _ => PInf
  end.

(** [a == numeric_limits<double>::infinity()] *)
Definition is_infinity (a : double) : bool :=
  match a with
  | PInf => true
  | Fin _ => false
  end.

(** The binary operation of [MPI_MIN] on [MPI_DOUBLE]. *)
Definition dmin (a b : double) : double := if dlt b a then b else a.

(** [a <= b], as the negation of [b < a]. *)
Definition dle (a b : double) : Prop := dlt b a = false.

(** Numeric equality, the C++ [==] (two fractions of the same value). *)
Definition deq (a b : double) : Prop := dle a b ∧ dle b a.

(** ** Graph.h *)

Record Edge : Type := mkEdge {
  destination : Z;
  weight : double
}.

Module Node.
Record t : Type := mk {
  id : Z;
  x : double;
  y : double;
  adjacencyList : list Edge
}.

(** [Node() : id(-1), x(0.0), y(0.0)] *)
Definition default : t := mk (-1) zero zero [].

(** [Node::addEdge]: [adjacencyList.emplace_back(dest, weight)] *)
Definition addEdge (n : t) (dest : Z) (w : double) : t :=
  mk (id n) (x n) (y n) (adjacencyList n ++ [mkEdge dest w]).

(** [nodes[i].id = i] *)
Definition set_id (i : Z) (n : t) : t := mk i (x n) (y n) (adjacencyList n).
End Node.

Record Graph : Type := mkGraph {
  nodes : list Node.t;
  nodeCount : Z;
  edgeCount : Z
}.

(** [std::vector<Node>::resize(n)]: keeps a prefix, or appends
    default-constructed nodes. *)
Definition resize_nodes (ns : list Node.t) (n : nat) : list Node.t :=
  take n ns ++ replicate (n - length ns) Node.default.

(** [for (int i = 0; i < n; i++) nodes[i].id = i;] *)
Definition assign_ids (ns : list Node.t) : list Node.t :=
  imap (fun i nd => Node.set_id (Z.of_nat i) nd) ns.

(** What a call can do besides returning: an uncaught C++ exception
    ([Throws]) or undefined behaviour ([Undefined]). *)
Inductive outcome (A : Type) : Type :=
  | Ok (a : A)
  | Throws
  | Undefined.
Arguments Ok {A} a.
Arguments Throws {A}.
Arguments Undefined {A}.

Definition obind {A B} (m : outcome A) (f : A → outcome B) : outcome B :=
  match m with
  | Ok a => f a
  | Throws => Throws
  | Undefined => Undefined
  end.

(** [Graph(int numNodes = 0)]. A negative count converts to a huge
    [size_t] and [resize] throws [std::length_error]. *)
Definition Graph_new (numNodes : Z) : outcome Graph :=
  if numNodes <? 0 then Throws
  else Ok (mkGraph (assign_ids (resize_nodes [] (Z.to_nat numNodes))) numNodes 0).

(** The default-constructed graph, [Graph graph;]. *)
Definition Graph_default : Graph := mkGraph [] 0 0.

Definition getNodeCount (g : Graph) : Z := nodeCount g.
Definition getEdgeCount (g : Graph) : Z := edgeCount g.

(** [Graph::setNodeCount] *)
Definition setNodeCount (g : Graph) (n : Z) : outcome Graph :=
  if n <? 0 then Throws
  else Ok (mkGraph (assign_ids (resize_nodes (nodes g) (Z.to_nat n))) n (edgeCount g)).

(** [Graph::addEdge]. The class keeps [nodes.size() == nodeCount], so the
    guarded [nodes[from]] is in bounds. *)
Definition addEdge (g : Graph) (from to : Z) (w : double) : Graph :=
  if (0 <=? from) && (from <? nodeCount g) && (0 <=? to) && (to <? nodeCount g)
  then mkGraph (alter (fun nd => Node.addEdge nd to w) (Z.to_nat from) (nodes g))
               (nodeCount g) (edgeCount g + 1)
  else g.

(** [Graph::addBidirectionalEdge] *)
Definition addBidirectionalEdge (g : Graph) (from to : Z) (w : double) : Graph :=
  addEdge (addEdge g from to w) to from w.

(** [v[i]] for an [int] index: [None] outside the bounds. *)
Definition vget {A} (v : list A) (i : Z) : option A :=
  if i <? 0 then None else v !! Z.to_nat i.

(** [v[i] = a] for an [int] index: [None] outside the bounds. *)
Definition vset {A} (v : list A) (i : Z) (a : A) : option (list A) :=
  if (0 <=? i) && (i <? Z.of_nat (length v)) then Some (<[Z.to_nat i := a]> v) else None.

(** [Graph::getAdjacencyList]: [nodes[nodeId].adjacencyList] *)
Definition getAdjacencyList (g : Graph) (nodeId : Z) : option (list Edge) :=
  Node.adjacencyList <$> vget (nodes g) nodeId.

(** ** Partitioner.h *)

(** [for (int node = myRank; node < nodeCount; node += totalProcesses)
      partition.push_back(node);]
    [None] when the fuel runs out with the loop condition still true. *)
Fixpoint round_robin_loop (fuel : nat) (node nodeCount totalProcesses : Z)
  : option (list Z) :=
  if node <? nodeCount then
    match fuel with
    | O => None
    | S fuel' =>
        cons node <$> round_robin_loop fuel' (node + totalProcesses) nodeCount totalProcesses
    end
  else Some [].

(** [Partitioner::getRoundRobinPartition] *)
Definition getRoundRobinPartition (g : Graph) (myRank totalProcesses : Z)
  : option (list Z) :=
  round_robin_loop (Z.to_nat (getNodeCount g - myRank)) myRank (getNodeCount g)
    totalProcesses.

(** [Partitioner::getNodeOwnerRoundRobin]: C++ [%] truncates. *)
Definition getNodeOwnerRoundRobin (nodeId totalProcesses : Z) : Z :=
  Z.rem nodeId totalProcesses.

(** ** The text loader of Graph.h *)

(** A whitespace-separated field of the graph file, by what the stream
    extractors make of it: an integer literal, a decimal literal with a
    fractional part, the rest [.ddd] of a decimal literal whose integer part
    has been read, or a field that no number starts. *)
Inductive token : Type :=
  | TInt (z : Z)
  | TDec (q : Q)
  | TFrac (q : Q)
  | TWord.

(** [std::ifstream] after opening: the fields not yet read and [failbit]. *)
Record istream : Type := mkStream {
  pending : list token;
  failbit : bool
}.

Definition INT_MAX : Z := 2147483647.
Definition INT_MIN : Z := -2147483648.

(** [file >> n] for [int n]. The first component is the value stored in the
    variable, [None] when the variable is left as it was: the stream had
    failed already, or the end of the file is met before a field. A field
    that is not a number stores 0 and sets [failbit]; a literal outside
    the [int] range stores the nearest bound and sets [failbit]. *)
Definition extract_int (s : istream) : option Z * istream :=
  if failbit s then (None, s)
  else match pending s with
       | [] => (None, mkStream [] true)
       | TInt z :: rest =>
           if z <? INT_MIN then (Some INT_MIN, mkStream rest true)
           else if INT_MAX <? z then (Some INT_MAX, mkStream rest true)
           else (Some z, mkStream rest false)
       | TDec q :: rest =>
           let z := Z.quot (Qnum q) (Z.pos (Qden q)) in
           let r := (Qabs q - inject_Z (Z.abs z))%Q in
           if z <? INT_MIN then (Some INT_MIN, mkStream (TFrac r :: rest) true)
           else if INT_MAX <? z then (Some INT_MAX, mkStream (TFrac r :: rest) true)
           else (Some z, mkStream (TFrac r :: rest) false)
       | TFrac _ :: _ | TWord :: _ => (Some 0, mkStream (pending s) true)
       end.

(** [file >> w] for [double w]. *)
Definition extract_double (s : istream) : option double * istream :=
  if failbit s then (None, s)
  else match pending s with
       | [] => (None, mkStream [] true)
       | TInt z :: rest => (Some (Fin (inject_Z z)), mkStream rest false)
       | TDec q :: rest | TFrac q :: rest => (Some (Fin q), mkStream rest false)
       | TWord :: _ => (Some zero, mkStream (pending s) true)
       end.

(** What a process sees under a file name: [None] when the file cannot be
    opened. *)
Definition FileSystem : Type := string → option (list token).

(** Reading a local variable: an indeterminate value is undefined
    behaviour. *)
Definition use {A} (v : option A) : outcome A :=
  match v with
  | Some a => Ok a
  | None => Undefined
  end.

(** The edge loop of [loadFromFile]:
    [for (int i = 0; i < numEdges; i++) { int from, to; double weight;
       file >> from >> to >> weight; addEdge(from, to, weight); }] *)
Fixpoint read_edges (n : nat) (s : istream) (g : Graph) : outcome Graph :=
  match n with
  | O => Ok g
  | S n' =>
      let '(from, s1) := extract_int s in
      let '(to, s2) := extract_int s1 in
      let '(w, s3) := extract_double s2 in
      obind (use from) (fun from =>
      obind (use to) (fun to =>
      obind (use w) (fun w =>
      read_edges n' s3 (addEdge g from to w))))
  end.

(** [Graph::loadFromFile] *)
Definition loadFromFile (fs : FileSystem) (filename : string) (g : Graph)
  : outcome (bool * Graph) :=
  match fs filename with
  | None => Ok (false, g)
  | Some contents =>
      let file := mkStream contents false in
      let '(numNodes, file1) := extract_int file in
      let '(numEdges, file2) := extract_int file1 in
      obind (use numNodes) (fun numNodes =>
      obind (setNodeCount g numNodes) (fun g1 =>
      obind (use numEdges) (fun numEdges =>
      obind (read_edges (Z.to_nat numEdges) file2 g1) (fun g2 =>
      Ok (true, g2)))))
  end.

(** ** The MPI driver: per-process state *)

(** The local variables of [main] that outlive the start-up phase, for one
    process. [iteration] is the loop counter, [exited] tells that the loop
    was left through [break], [localChanged] is the flag of the current
    superstep. *)
Record Worker : Type := mkWorker {
  rank : Z;
  graph : Graph;
  myPartition : list Z;
  distances : list double;
  iteration : Z;
  exited : bool;
  iterationsCompleted : Z;
  edgesRelaxed : Z;
  localUpdates : Z;
  localChanged : bool
}.

(** [int maxIterations = nodeCount;] *)
Definition maxIterations (w : Worker) : Z := getNodeCount (graph w).

(** The body of the inner loop, for the edge [e] out of [u]:
    [int v = e.destination; double newDist = distances[u] + e.weight;
     edgesRelaxed++;
     if (newDist < distances[v]) { distances[v] = newDist;
       localChanged = true; localUpdates++; }] *)
Definition relax_edge (u : Z) (w : Worker) (e : Edge) : option Worker :=
  let v := destination e in
  du ← vget (distances w) u;
  let newDist := dadd du (weight e) in
  dv ← vget (distances w) v;
  if dlt newDist dv then
    ds ← vset (distances w) v newDist;
    Some (mkWorker (rank w) (graph w) (myPartition w) ds (iteration w) (exited w)
            (iterationsCompleted w) (edgesRelaxed w + 1) (localUpdates w + 1) true)
  else
    Some (mkWorker (rank w) (graph w) (myPartition w) (distances w) (iteration w)
            (exited w) (iterationsCompleted w) (edgesRelaxed w + 1) (localUpdates w)
            (localChanged w)).

(** [for (const Edge& e : graph.getAdjacencyList(u)) ...] *)
Fixpoint relax_edges (u : Z) (es : list Edge) (w : Worker) : option Worker :=
  match es with
  | [] => Some w
  | e :: es' => w' ← relax_edge u w e; relax_edges u es' w'
  end.

(** One round of the loop over the partition:
    [if (distances[u] == infinity) continue; for (... edges of u ...)] *)
Definition relax_node (w : Worker) (u : Z) : option Worker :=
  du ← vget (distances w) u;
  if is_infinity du then Some w
  else es ← getAdjacencyList (graph w) u; relax_edges u es w.

(** [for (int u : myPartition) ...] *)
Fixpoint relax_nodes (us : list Z) (w : Worker) : option Worker :=
  match us with
  | [] => Some w
  | u :: us' => w' ← relax_node w u; relax_nodes us' w'
  end.

(** The compute phase of a superstep on one process:
    [bool localChanged = false; iterationsCompleted++;] and the relaxation
    of the edges out of the partition. *)
Definition local_phase (w : Worker) : option Worker :=
  relax_nodes (myPartition w)
    (mkWorker (rank w) (graph w) (myPartition w) (distances w) (iteration w)
       (exited w) (iterationsCompleted w + 1) (edgesRelaxed w) (localUpdates w) false).

(** ** Collectives *)

(** Element-wise [MPI_MIN] of two buffers. *)
Definition vmin (a b : list double) : list double := zip_with dmin a b.

(** [MPI_Allreduce(..., count, MPI_DOUBLE, MPI_MIN, MPI_COMM_WORLD)] on the
    buffers of all ranks, in rank order. Every rank must pass the same
    count; there is at least one rank. *)
Definition allreduce_min (bufs : list (list double)) : option (list double) :=
  match bufs with
  | [] => None
  | b :: bs =>
      if forallb (fun b' => Nat.eqb (length b') (length b)) bs
      then Some (foldl vmin b bs)
      else None
  end.

(** [MPI_Allreduce] and [MPI_Reduce] of one [int] per rank with [MPI_MAX]. *)
Definition reduce_max (xs : list Z) : option Z :=
  match xs with
  | [] => None
  | x :: xs' => Some (foldl Z.max x xs')
  end.

(** [MPI_Reduce] of one [int] per rank with [MPI_SUM]. *)
Definition reduce_sum (xs : list Z) : option Z :=
  match xs with
  | [] => None
  | x :: xs' => Some (foldl Z.add x xs')
  end.

(** ** Start-up (INIT) *)

(** Lines 39-56 of the driver on rank [r] of [size], with its replica [g]:
    the partition, the distance vector filled with infinity, and the zero at
    the source when this rank owns it. The constructor of the vector throws
    on a negative count. *)
Definition init_worker (size source : Z) (rg : Z * Graph) : option Worker :=
  let '(r, g) := rg in
  let nodeCount := getNodeCount g in
  part ← getRoundRobinPartition g r size;
  if nodeCount <? 0 then None
  else
    let ds := replicate (Z.to_nat nodeCount) infinity in
    ds' ← (if bool_decide (source ∈ part) then vset ds source zero else Some ds);
    Some (mkWorker r g part ds' 0 false 0 0 0 false).

(** [distances = globalDistances;] *)
Definition set_distances (global : list double) (w : Worker) : Worker :=
  mkWorker (rank w) (graph w) (myPartition w) global (iteration w) (exited w)
    (iterationsCompleted w) (edgesRelaxed w) (localUpdates w) (localChanged w).

(** The initial synchronization: [MPI_Allreduce] with [MPI_MIN], then
    [distances = globalDistances] on every rank. *)
Definition init_sync (ws : list Worker) : option (list Worker) :=
  global ← allreduce_min (distances <$> ws);
  Some (set_distances global <$> ws).

(** The state of the cohort when the loop starts. *)
Definition init_cohort (size source : Z) (replicas : list (Z * Graph))
  : option (list Worker) :=
  ws ← mapM (init_worker size source) replicas;
  init_sync ws.

(** ** The superstep loop *)

(** [iteration < maxIterations], for a process still in the loop. *)
Definition loop_test (w : Worker) : bool :=
  negb (exited w) && (iteration w <? maxIterations w).

(** [int localFlag = localChanged ? 1 : 0;] *)
Definition localFlag (w : Worker) : Z := if localChanged w then 1 else 0.

(** The end of the loop body on one process, with what the two collectives
    delivered: [distances = globalDistances;
    if (globalFlag == 0) break;] and otherwise [iteration++]. *)
Definition end_of_iteration (global : list double) (globalFlag : Z) (w : Worker)
  : Worker :=
  mkWorker (rank w) (graph w) (myPartition w) global
    (if globalFlag =? 0 then iteration w else iteration w + 1)
    (globalFlag =? 0)
    (iterationsCompleted w) (edgesRelaxed w) (localUpdates w) (localChanged w).

(** One superstep of the whole cohort: the compute phase on every rank, the
    element-wise minimum of the distance vectors, the maximum of the flags. *)
Definition superstep (ws : list Worker) : option (list Worker) :=
  locals ← mapM local_phase ws;
  global ← allreduce_min (distances <$> locals);
  globalFlag ← reduce_max (localFlag <$> locals);
  Some (end_of_iteration global globalFlag <$> locals).

(** The loop of the cohort. All ranks enter the body together or have all
    left the loop; a rank that waits in a collective its peers never join
    is an erroneous run ([None]), and so is a run that outlasts the fuel. *)
Fixpoint relaxation_loop (fuel : nat) (ws : list Worker) : option (list Worker) :=
  if forallb loop_test ws then
    match fuel with
    | O => None
    | S fuel' => ws' ← superstep ws; relaxation_loop fuel' ws'
    end
  else if forallb (fun w => negb (loop_test w)) ws then Some ws
  else None.

(** No rank runs its loop more often than its [maxIterations]. *)
Definition loop_fuel (ws : list Worker) : nat :=
  Z.to_nat (foldr Z.max 0 (maxIterations <$> ws)).

(** INIT and the loop, from the replicas of the graph. *)
Definition engine (size source : Z) (replicas : list (Z * Graph))
  : option (list Worker) :=
  ws ← init_cohort size source replicas;
  relaxation_loop (loop_fuel ws) ws.

(** Every rank holds the same replica [g]. *)
Definition replicate_graph (size : Z) (g : Graph) : list (Z * Graph) :=
  (fun r => (r, g)) <$> seqZ 0 size.

(** ** Statistics and report *)

(** What rank 0 holds after the reductions. *)
Record Summary : Type := mkSummary {
  totalEdgesRelaxed : Z;
  totalLocalUpdates : Z;
  maxIterations_global : Z
}.

(** The three [MPI_Reduce] calls to rank 0. *)
Definition gather_statistics (ws : list Worker) : option Summary :=
  e ← reduce_sum (edgesRelaxed <$> ws);
  u ← reduce_sum (localUpdates <$> ws);
  m ← reduce_max (iterationsCompleted <$> ws);
  Some (mkSummary e u m).

(** An operand of [cout <<]. *)
Inductive item : Type :=
  | Str (s : string)
  | Int (z : Z)
  | Dbl (d : double).

(** The line feed, and the two rules of the report. *)
Definition nl : string := String (ascii_of_nat 10) EmptyString.
Definition rule : string := "===========================================" ++ nl.
Definition dashes : string := "-------------------------------------------" ++ nl.

(** The report of rank 0; [distances[destination]] is read first. *)
Definition report (size source destination duration : Z) (w : Worker) (s : Summary)
  : option (list item) :=
  finalDist ← vget (distances w) destination;
  Some [ Str rule;
         Str ("Distributed Dijkstra (BSP Model)" ++ nl);
         Str rule;
         Str ("Graph Statistics:" ++ nl);
         Str "  Nodes: "; Int (getNodeCount (graph w)); Str nl;
         Str "  Edges: "; Int (getEdgeCount (graph w)); Str nl;
         Str dashes;
         Str ("Parallel Configuration:" ++ nl);
         Str ("  Partitioning: Round-Robin" ++ nl);
         Str "  Processes: "; Int size; Str nl;
         Str "  Nodes per process: ~"; Int (Z.quot (getNodeCount (graph w)) size); Str nl;
         Str dashes;
         Str ("Results:" ++ nl);
         Str "  Source: "; Int source; Str nl;
         Str "  Destination: "; Int destination; Str nl;
         Str "  Distance: "; Dbl finalDist; Str nl;
         Str dashes;
         Str ("Performance:" ++ nl);
         Str "  Execution time: "; Int duration; Str (" ms" ++ nl);
         Str "  Iterations: "; Int (maxIterations_global s); Str nl;
         Str "  Total edges relaxed: "; Int (totalEdgesRelaxed s); Str nl;
         Str "  Distance updates: "; Int (totalLocalUpdates s); Str nl;
         Str rule ].

(** ** The entry point *)

(** [isspace] in the C locale. *)
Definition is_space (c : ascii) : bool :=
  let n := N_of_ascii c in
  (n =? 32)%N || ((9 <=? n)%N && (n <=? 13)%N).

(** The value of a decimal digit. *)
Definition digit_of (c : ascii) : option Z :=
  let n := N_of_ascii c in
  if (48 <=? n)%N && (n <=? 57)%N then Some (Z.of_N n - 48) else None.

Fixpoint skip_spaces (s : string) : string :=
  match s with
  | String c s' => if is_space c then skip_spaces s' else s
  | EmptyString => s
  end.

Fixpoint read_digits (s : string) (acc : Z) : Z :=
  match s with
  | String c s' =>
      match digit_of c with
      | Some d => read_digits s' (10 * acc + d)
      | None => acc
      end
  | EmptyString => acc
  end.

(** [atoi]: leading white space, an optional sign, then the digits up to
    the first other character (0 without digits). A value that does not fit
    an [int] is undefined behaviour. *)
Definition atoi (s : string) : option Z :=
  let z := match skip_spaces s with
           | String "-" s' => - read_digits s' 0
           | String "+" s' => read_digits s' 0
           | s' => read_digits s' 0
           end in
  if (INT_MIN <=? z) && (z <=? INT_MAX) then Some z else None.

(** How the job ends: every rank returns [code] and rank 0 has printed
    [out]; [MPI_Abort]; an uncaught exception on some rank; or an erroneous
    run (undefined behaviour, mismatched collectives). *)
Inductive run : Type :=
  | Exited (code : Z) (out : list item)
  | Aborted (code : Z)
  | Crashed
  | Erroneous.

(** The kinds of outcome of a load. *)
Definition is_undefined {A} (o : outcome A) : bool :=
  match o with Undefined => true | _ => false end.

Definition is_throw {A} (o : outcome A) : bool :=
  match o with Throws => true | _ => false end.

(** [!graph.loadFromFile(graphFile)] *)
Definition load_failed (o : outcome (bool * Graph)) : bool :=
  match o with Ok (false, _) => true | _ => false end.

(** The replica of a rank whose load returned. *)
Definition loaded_graph (ro : Z * outcome (bool * Graph)) : option (Z * Graph) :=
  match ro.2 with Ok (_, g) => Some (ro.1, g) | _ => None end.

(** Lines 63-147 of the driver, from the state of the cohort after INIT:
    the loop, the statistics, the report of rank 0. *)
Definition finish (size source destination duration : Z) (ws : list Worker)
  : option (list item) :=
  ws' ← relaxation_loop (loop_fuel ws) ws;
  s ← gather_statistics ws';
  w0 ← head ws';
  report size source destination duration w0 s.

(** [main] on a cohort of [size] processes. [fs r] is the file system of
    rank [r], [duration] the elapsed time that rank 0 measures. A rank whose
    load returns [false] calls [MPI_Abort], which ends the job whatever the
    other ranks do; otherwise undefined behaviour or an exception in a load
    decides the run. *)
Definition main (size : Z) (fs : Z → FileSystem) (duration : Z) (argv : list string)
  : run :=
  match argv with
  | prog :: graphFile :: a2 :: a3 :: _ =>
      match atoi a2, atoi a3 with
      | Some source, Some destination =>
          let loads :=
            (fun r => (r, loadFromFile (fs r) graphFile Graph_default)) <$> seqZ 0 size in
          if existsb (fun ro => load_failed ro.2) loads then Aborted 1
          else if existsb (fun ro => is_undefined ro.2) loads then Erroneous
          else if existsb (fun ro => is_throw ro.2) loads then Crashed
          else
            match replicas ← mapM loaded_graph loads;
                  ws ← init_cohort size source replicas;
                  finish size source destination duration ws with
            | Some out => Exited 0 out
            | None => Erroneous
            end
      | _, _ => Erroneous
      end
  | prog :: _ =>
      Exited 1 [Str "Usage: mpirun -np N "; Str prog; Str (" graph.txt source dest" ++ nl)]
  | [] => Erroneous
  end.

(** ** Specification vocabulary *)

(** The invariant of class [Graph] after a load: [nodes.size()] is
    [nodeCount], and every stored edge ends at a node of the graph. *)
Definition Graph_wf (g : Graph) : Prop :=
  0 ≤ nodeCount g ∧
  length (nodes g) = Z.to_nat (nodeCount g) ∧
  Forall (fun nd => Forall (fun e => 0 ≤ destination e < nodeCount g)
                      (Node.adjacencyList nd)) (nodes g).

(** No edge has a negative weight. *)
Definition nonneg_weights (g : Graph) : Prop :=
  Forall (fun nd => Forall (fun e => dle zero (weight e)) (Node.adjacencyList nd))
    (nodes g).

(** [e] is an edge out of [u]. *)
Definition has_edge (g : Graph) (u : Z) (e : Edge) : Prop :=
  ∃ es, getAdjacencyList g u = Some es ∧ e ∈ es.

(** [walk g s t es]: the edges [es], in order, lead from [s] to [t]. *)
Inductive walk (g : Graph) (s : Z) : Z → list Edge → Prop :=
  | walk_nil : 0 ≤ s < nodeCount g → walk g s s []
  | walk_snoc u es e :
      walk g s u es → has_edge g u e → walk g s (destination e) (es ++ [e]).

(** The length of a walk as the driver accumulates it: from [0.0], one
    edge after the other. *)
Definition walk_weight (es : list Edge) : double :=
  foldl (fun acc e => dadd acc (weight e)) zero es.

(** [d] is the shortest-path distance from [s] to [t]: a lower bound of the
    weights of all walks, attained by one of them unless it is infinite. *)
Definition shortest_distance (g : Graph) (s t : Z) (d : double) : Prop :=
  (∀ es, walk g s t es → dle d (walk_weight es)) ∧
  (d = PInf ∨ ∃ es, walk g s t es ∧ walk_weight es = d).

(** [t] can be reached from [s]. *)
Definition reachable (g : Graph) (s t : Z) : Prop := ∃ es, walk g s t es.

(** The edge count that the header of a graph file declares. *)
Definition declared_edge_count (contents : list token) : option Z :=
  match contents with
  | _ :: TInt m :: _ => Some m
  | _ => None
  end.

(** [d[v]] read as a distance: infinity outside the vector. *)
Definition dget (d : list double) (v : Z) : double := default PInf (vget d v).

(** An entry that is left alone or replaced by a smaller value. *)
Definition steps_down (a b : double) : Prop := a = b ∨ dlt a b = true.

(** Element-wise on distance vectors of one size: every entry of [a] is the
    entry of [b] or a smaller value. *)
Definition vle (a b : list double) : Prop :=
  length a = length b ∧ ∀ v, steps_down (dget a v) (dget b v).

(** Every finite entry of [d] is the weight of a walk from [s]. *)
Definition sound (g : Graph) (s : Z) (d : list double) : Prop :=
  ∀ v, dget d v = PInf ∨ ∃ es, walk g s v es ∧ walk_weight es = dget d v.

(** No walk from [s] of at most [k] edges is shorter than the entry of its
    end. *)
Definition bounded (g : Graph) (s : Z) (k : nat) (d : list double) : Prop :=
  ∀ v es, walk g s v es → (length es ≤ k)%nat → dle (dget d v) (walk_weight es).

(** No walk from [s] at all is shorter than the entry of its end. *)
Definition lower_bound (g : Graph) (s : Z) (d : list double) : Prop :=
  ∀ v es, walk g s v es → dle (dget d v) (walk_weight es).

(** What the relaxation of one partition leaves untouched on a process. *)
Definition same_frame (w w' : Worker) : Prop :=
  rank w' = rank w ∧ graph w' = graph w ∧ myPartition w' = myPartition w ∧
  iteration w' = iteration w ∧ exited w' = exited w ∧
  iterationsCompleted w' = iterationsCompleted w.

(** What any stretch of the compute phase guarantees, from the state [w] to
    the state [w'] of one process. *)
Definition local_ok (g : Graph) (s : Z) (w w' : Worker) : Prop :=
  same_frame w w' ∧
  vle (distances w') (distances w) ∧
  (sound g s (distances w) → sound g s (distances w')) ∧
  (localChanged w' = false → localChanged w = false ∧ distances w' = distances w) ∧
  edgesRelaxed w ≤ edgesRelaxed w' ∧
  localUpdates w ≤ localUpdates w'.

(** Rank [r] of [P] between two collectives: it holds the replica [g], its
    own partition, the shared vector [d], and the loop state
    ([iteration], [exited], [iterationsCompleted]) is [it], [ex], [ic]. *)
Definition in_step (g : Graph) (P : Z) (d : list double) (it : Z) (ex : bool) (ic : Z)
  (r : Z) (w : Worker) : Prop :=
  rank w = r ∧ graph w = g ∧ getRoundRobinPartition g r P = Some (myPartition w) ∧
  distances w = d ∧ iteration w = it ∧ exited w = ex ∧ iterationsCompleted w = ic.

(** The cohort of ranks 0..P-1 in lock-step. *)
Definition synced (g : Graph) (P : Z) (d : list double) (it : Z) (ex : bool) (ic : Z)
  (ws : list Worker) : Prop :=
  Forall2 (in_step g P d it ex ic) (seqZ 0 P) ws.

(** Rank [r] after the compute phase of a superstep that started from the
    shared vector [d]. *)
Definition after_compute (g : Graph) (s : Z) (P : Z) (d : list double) (it ic : Z)
  (r : Z) (l : Worker) : Prop :=
  rank l = r ∧ graph l = g ∧ getRoundRobinPartition g r P = Some (myPartition l) ∧
  iteration l = it ∧ exited l = false ∧ iterationsCompleted l = ic + 1 ∧
  vle (distances l) d ∧
  (sound g s d → sound g s (distances l)) ∧
  (localChanged l = false → distances l = d) ∧
  (∀ u e, u ∈ myPartition l → has_edge g u e →
     dle (dget (distances l) (destination e)) (dadd (dget d u) (weight e))) ∧
  (sound g s d → lower_bound g s d → localChanged l = false).

(** Every walk from [s] can be replaced by one of at most [m] edges that is
    not longer. *)
Definition shortcut (g : Graph) (s : Z) (m : nat) : Prop :=
  ∀ v es, walk g s v es →
    ∃ es', walk g s v es' ∧ (length es' ≤ m)%nat ∧ dle (walk_weight es') (walk_weight es).

(** Every edge is relaxed in [d]. *)
Definition relaxed (g : Graph) (d : list double) : Prop :=
  ∀ u e, has_edge g u e → dle (dget d (destination e)) (dadd (dget d u) (weight e)).

(** Rank [r] after lines 39-56: its vector holds infinity everywhere, except
    for the zero at the source on the rank that owns it. *)
Definition after_init (g : Graph) (s : Z) (P : Z) (r : Z) (w : Worker) : Prop :=
  rank w = r ∧ graph w = g ∧ getRoundRobinPartition g r P = Some (myPartition w) ∧
  iteration w = 0 ∧ exited w = false ∧ iterationsCompleted w = 0 ∧
  length (distances w) = Z.to_nat (nodeCount g) ∧
  (∀ v, dget (distances w) v = PInf ∨
        (v = s ∧ 0 ≤ s < nodeCount g ∧ dget (distances w) v = zero)) ∧
  (r = s mod P → 0 ≤ s < nodeCount g → dget (distances w) s = zero).

(** The nodes that a walk from [s] along [es] visits, in order. *)
Definition verts (s : Z) (es : list Edge) : list Z := s :: (destination <$> es).

(** The shared vector that the initial synchronization establishes: zero at
    the source when it is a node of the graph, infinity elsewhere. *)
Definition init_sync_vector (g : Graph) (s : Z) (P : Z) (d0 : list double) : Prop :=
  length d0 = Z.to_nat (nodeCount g) ∧
  (∀ v, dget d0 v = PInf ∨ (v = s ∧ 0 ≤ s < nodeCount g ∧ dget d0 v = zero)) ∧
  (0 ≤ s < nodeCount g → dget d0 s = zero).

(** The operand printed right after the label [label] in a report. *)
Fixpoint field_after (label : string) (out : list item) : option item :=
  match out with
  | [] => None
  | Str s :: tl =>
      match tl with
      | i :: _ => if String.eqb s label then Some i else field_after label tl
      | [] => None
      end
  | _ :: tl => field_after label tl
  end.

(** The value on the [Distance:] line of the report, when a [double] is
    printed there. *)
Definition reported_distance (out : list item) : option double :=
  match field_after "  Distance: " out with
  | Some (Dbl d) => Some d
  | _ => None
  end.

(** The value on the [Iterations:] line of the report. *)
Definition reported_iterations (out : list item) : option Z :=
  match field_after "  Iterations: " out with
  | Some (Int z) => Some z
  | _ => None
  end.

(** Every rank of the cohort left the loop through [break], after [j]
    supersteps. *)
Definition converged_after (ws : list Worker) (j : Z) : Prop :=
  Forall (fun w => exited w = true ∧ iterationsCompleted w = j) ws.

(** The state of the cohort after the first [k] supersteps of the loop, or
    at the end of the loop when it takes fewer. *)
Fixpoint loop_prefix (k : nat) (ws : list Worker) : option (list Worker) :=
  match k with
  | O => Some ws
  | S k' =>
      if forallb loop_test ws then ws' ← superstep ws; loop_prefix k' ws'
      else Some ws
  end.

(** [g] contains the directed chain [c] with unit weights: each node of [c]
    has one edge, of weight 1.0, to its successor in [c], and the last node
    has none. *)
Definition unit_chain (g : Graph) (c : list Z) : Prop :=
  Graph_wf g ∧ NoDup c ∧
  ∀ i u, c !! i = Some u →
    getAdjacencyList g u =
      Some (match c !! S i with Some v => [mkEdge v (Fin 1)] | None => [] end).

(** The header of a graph file is well formed: two integer literals. *)
Definition header_ok (contents : list token) : bool :=
  match contents with
  | TInt _ :: TInt _ :: _ => true
  | _ => false
  end.

#[global] Instance dle_dec a b : Decision (dle a b).
Proof. unfold dle. apply _. Defined.

#[global] Instance Graph_wf_dec g : Decision (Graph_wf g).
Proof. unfold Graph_wf. apply _. Defined.

#[global] Instance nonneg_weights_dec g : Decision (nonneg_weights g).
Proof. unfold nonneg_weights. apply _. Defined.

(** ** Sample inputs *)

(** Every rank sees the same file [graph.txt]. *)
Definition shared_fs (contents : list token) : Z → FileSystem :=
  fun _ name => if String.eqb name "graph.txt" then Some contents else None.

(** The graph that a fresh [Graph] object holds after loading [contents]. *)
Definition load_graph (contents : list token) : Graph :=
  match loadFromFile (fun _ => Some contents) "graph.txt" Graph_default with
  | Ok (_, g) => g
  | _ => Graph_default
  end.

(** The chain 0 -> 1 -> 2 -> 3 with unit weights. *)
Definition chain4_file : list token :=
  [TInt 4; TInt 3;
   TInt 0; TInt 1; TInt 1;
   TInt 1; TInt 2; TInt 1;
   TInt 2; TInt 3; TInt 1].

(** Scenario B: the components {0,1} and {2,3}, edges in both directions. *)
Definition two_components_file : list token :=
  [TInt 4; TInt 4;
   TInt 0; TInt 1; TDec (3 # 2);
   TInt 1; TInt 0; TDec (3 # 2);
   TInt 2; TInt 3; TInt 2;
   TInt 3; TInt 2; TInt 2].

(** Scenario C: one node, no edge. *)
Definition single_node_file : list token := [TInt 1; TInt 0].

(** A header whose second field is not a number. *)
Definition bad_header_file : list token := [TInt 3; TWord].

(** Scenario A: the chain 0 - 1 - 2 - 3 - 4 with unit weights, every edge in
    both directions. *)
Definition scenario_a_file : list token :=
  [TInt 5; TInt 8;
   TInt 0; TInt 1; TDec 1; TInt 1; TInt 0; TDec 1;
   TInt 1; TInt 2; TDec 1; TInt 2; TInt 1; TDec 1;
   TInt 2; TInt 3; TDec 1; TInt 3; TInt 2; TDec 1;
   TInt 3; TInt 4; TDec 1; TInt 4; TInt 3; TDec 1].

(** The two fields of a report that the benchmark script scrapes. *)
Definition scraped (r : run) : option (option double * option Z) :=
  match r with
  | Exited 0 out => Some (reported_distance out, reported_iterations out)
  | _ => None
  end.

(** ** Partitioner.h: contiguous blocks and boundary nodes *)

(** [Partitioner::getContiguousPartition]. The C++ [/] and [%] truncate;
    a zero [totalProcesses] divides by zero, which is undefined ([None]).
    The loop [for (int i = startNode; i < endNode; i++)] pushes the nodes
    from [startNode] up to [endNode], none when [endNode <= startNode]. *)
Definition getContiguousPartition (g : Graph) (myRank totalProcesses : Z)
  : option (list Z) :=
  let nodeCount := getNodeCount g in
  if totalProcesses =? 0 then None
  else
    let nodesPerProcess := Z.quot nodeCount totalProcesses in
    let remainder := Z.rem nodeCount totalProcesses in
    let startNode := myRank * nodesPerProcess + Z.min myRank remainder in
    let endNode := startNode + nodesPerProcess + (if myRank <? remainder then 1 else 0) in
    Some (seqZ startNode (endNode - startNode)).

(** [Graph::getPartition]: the same computation, as a member of the graph. *)
Definition getPartition (g : Graph) (partitionId totalPartitions : Z)
  : option (list Z) :=
  if totalPartitions =? 0 then None
  else
    let nodesPerPartition := Z.quot (nodeCount g) totalPartitions in
    let remainder := Z.rem (nodeCount g) totalPartitions in
    let startNode := partitionId * nodesPerPartition + Z.min partitionId remainder in
    let endNode :=
      startNode + nodesPerPartition + (if partitionId <? remainder then 1 else 0) in
    Some (seqZ startNode (endNode - startNode)).

(** The loop of [getNodeOwnerContiguous] over the ranks that are left, with
    [accumulatedNodes] as it stands: the rank returned from inside the loop,
    [None] when the loop runs to its end. *)
Fixpoint owner_scan (nodeId nodesPerProcess remainder : Z) (ranks : list Z)
    (accumulatedNodes : Z) : option Z :=
  match ranks with
  | [] => None
  | rank :: ranks' =>
      let rankNodes := nodesPerProcess + (if rank <? remainder then 1 else 0) in
      if nodeId <? accumulatedNodes + rankNodes then Some rank
      else owner_scan nodeId nodesPerProcess remainder ranks'
             (accumulatedNodes + rankNodes)
  end.

(** [Partitioner::getNodeOwnerContiguous]; [None] for the division by
    zero. *)
Definition getNodeOwnerContiguous (nodeId nodeCount totalProcesses : Z) : option Z :=
  if totalProcesses =? 0 then None
  else
    let nodesPerProcess := Z.quot nodeCount totalProcesses in
    let remainder := Z.rem nodeCount totalProcesses in
    Some (default (totalProcesses - 1)
            (owner_scan nodeId nodesPerProcess remainder (seqZ 0 totalProcesses) 0)).

(** The inner loop of [identifyBoundaryNodes] for [node]: the first edge
    that leaves [myNodes] inserts [node] and ends the loop. *)
Fixpoint scan_edges (myNodes : gset Z) (node : Z) (es : list Edge)
    (boundaryNodes : gset Z) : gset Z :=
  match es with
  | [] => boundaryNodes
  | edge :: es' =>
      if bool_decide (destination edge ∈ myNodes)
      then scan_edges myNodes node es' boundaryNodes
      else {[node]} ∪ boundaryNodes
  end.

(** [Partitioner::identifyBoundaryNodes]. The two rank arguments are not
    used by the C++ body. [None] when a node of the partition is no node of
    the graph ([getAdjacencyList] out of bounds). *)
Definition identifyBoundaryNodes (g : Graph) (myPartition : list Z)
    (myRank totalProcesses : Z) : option (gset Z) :=
  let myNodes : gset Z := list_to_set myPartition in
  foldl (fun acc node =>
           boundaryNodes ← acc;
           es ← getAdjacencyList g node;
           Some (scan_edges myNodes node es boundaryNodes))
        (Some ∅) myPartition.

(** ** Graph.h: coordinates, heuristic, saving *)

(** [Graph::setNodeCoordinates] *)
Definition setNodeCoordinates (g : Graph) (nodeId : Z) (x y : double) : Graph :=
  if (0 <=? nodeId) && (nodeId <? nodeCount g)
  then mkGraph (alter (fun nd => Node.mk (Node.id nd) x y (Node.adjacencyList nd))
                  (Z.to_nat nodeId) (nodes g))
               (nodeCount g) (edgeCount g)
  else g.

(** [Graph::getNode]: [nodes[id]] *)
Definition getNode (g : Graph) (id : Z) : option Node.t := vget (nodes g) id.

(** [a - b] on doubles, where the result is a number of the model: a
    negative infinity and NaN are not. *)
Definition dsub (a b : double) : option double :=
  match a, b with
  | Fin p, Fin q => Some (Fin (p - q)%Q)
  | PInf, Fin _ => Some PInf
  | _, PInf => None
  end.

(** [a * b] on doubles, where the result is a number of the model. *)
Definition dmul (a b : double) : option double :=
  match a, b with
  | Fin p, Fin q => Some (Fin (p * q)%Q)
  | PInf, PInf => Some PInf
  | PInf, Fin q | Fin q, PInf => if Qle_bool q 0 then None else Some PInf
  end.

(** [std::sqrt]: exact on the squares of fractions and at infinity; the
    rounded root of any other number is not a number of the model, and the
    root of a negative number is NaN. *)
Definition dsqrt (a : double) : option double :=
  match a with
  | PInf => Some PInf
  | Fin q =>
      let r := Qred q in
      let n := Qnum r in
      let d := Z.pos (Qden r) in
      if (0 <=? n) && (Z.sqrt n * Z.sqrt n =? n) && (Z.sqrt d * Z.sqrt d =? d)
      then Some (Fin (Z.sqrt n # Z.to_pos (Z.sqrt d)))
      else None
  end.

(** [Graph::getHeuristic] *)
Definition getHeuristic (g : Graph) (fromNode toNode : Z) : option double :=
  if (fromNode <? 0) || (nodeCount g <=? fromNode) ||
     (toNode <? 0) || (nodeCount g <=? toNode)
  then Some zero
  else
    nf ← vget (nodes g) fromNode;
    nt ← vget (nodes g) toNode;
    dx ← dsub (Node.x nf) (Node.x nt);
    dy ← dsub (Node.y nf) (Node.y nt);
    xx ← dmul dx dx;
    yy ← dmul dy dy;
    dsqrt (dadd xx yy).

(** The three fields of one line of a saved file:
    [file << i << " " << edge.destination << " " << edge.weight << "\n"].
    [fmt] is the field that the stream writes for a [double] (six
    significant digits by default); it stays a parameter. *)
Definition edge_line (fmt : double → token) (i : Z) (edge : Edge) : list token :=
  [TInt i; TInt (destination edge); fmt (weight edge)].

(** The lines of the edges out of the nodes [ids], in order:
    [for (const Edge& edge : nodes[i].adjacencyList)]; [None] when
    [nodes[i]] is out of bounds. *)
Fixpoint edge_lines (fmt : double → token) (g : Graph) (ids : list Z)
  : option (list token) :=
  match ids with
  | [] => Some []
  | i :: ids' =>
      nd ← vget (nodes g) i;
      rest ← edge_lines fmt g ids';
      Some (concat (edge_line fmt i <$> Node.adjacencyList nd) ++ rest)
  end.

(** What [saveToFile] writes: the header [nodeCount edgeCount], then the
    edges node after node. *)
Definition saved_contents (fmt : double → token) (g : Graph) : option (list token) :=
  ls ← edge_lines fmt g (seqZ 0 (nodeCount g));
  Some (TInt (nodeCount g) :: TInt (edgeCount g) :: ls).

(** [Graph::saveToFile]. [creatable] tells which files can be opened for
    writing; the result is the return value and the file system after the
    call. *)
Definition saveToFile (fmt : double → token) (creatable : string → bool)
    (fs : FileSystem) (filename : string) (g : Graph) : option (bool * FileSystem) :=
  if creatable filename then
    contents ← saved_contents fmt g;
    Some (true, fun name => if String.eqb name filename then Some contents else fs name)
  else Some (false, fs).

(** [Graph::printInfo]; the average degree is the quotient of the two
    counts as doubles, and [0] without nodes. *)
Definition printInfo (g : Graph) : list item :=
  [ Str ("Graph Info:" ++ nl);
    Str "  Nodes: "; Int (nodeCount g); Str nl;
    Str "  Edges: "; Int (edgeCount g); Str nl;
    Str "  Avg degree: ";
    Dbl (if 0 <? nodeCount g
         then Fin (inject_Z (edgeCount g) / inject_Z (nodeCount g))%Q
         else zero);
    Str nl ].

(** ** MPIWrapper.h: the broadcast of a graph *)

(** The two buffers that the root fills, [edgeData] and [weightData]:
    [for (int i = 0; i < nodeCount; i++)
       for (const Edge& edge : graph.getAdjacencyList(i)) ...].
    An entry is the pair of [edgeData[2k], edgeData[2k+1]] with
    [weightData[k]]. *)
Fixpoint flatten_edges (g : Graph) (ids : list Z) : option (list (Z * Z * double)) :=
  match ids with
  | [] => Some []
  | i :: ids' =>
      es ← getAdjacencyList g i;
      rest ← flatten_edges g ids';
      Some (((fun edge => (i, destination edge, weight edge)) <$> es) ++ rest)
  end.

(** The loop in which a process that is not the root rebuilds the graph:
    [graph.addEdge(from, to, weight)] for every entry. *)
Definition rebuild (g : Graph) (entries : list (Z * Z * double)) : Graph :=
  foldl (fun g '(from, to, w) => addEdge g from to w) g entries.

(** [MPIWrapper::broadcastGraphData] on the whole cohort: [graphs] are the
    graph objects of the ranks, in rank order, and every rank names the same
    [rootRank]. A broadcast delivers the root's buffer to every rank. [None]
    for a root that is no rank, an exception in [setNodeCount] or an
    adjacency list out of bounds on the root. *)
Definition broadcastGraphData (graphs : list Graph) (rootRank : Z)
  : option (list Graph) :=
  root ← vget graphs rootRank;
  let nodeCount := getNodeCount root in
  entries ← flatten_edges root (seqZ 0 nodeCount);
  mapM (fun '(myRank, graph) =>
          if myRank =? rootRank then Some graph
          else match setNodeCount graph nodeCount with
               | Ok graph' => Some (rebuild graph' entries)
               | _ => None
               end)
       (zip (seqZ 0 (Z.of_nat (length graphs))) graphs).

(** ** Graph.h: queue elements and results *)

(** [PQElement(int id, double dist, double f = 0.0)] *)
Record PQElement : Type := mkPQElement {
  nodeId : Z;
  distance : double;
  fScore : double
}.

(** [PQElement::operator>]: [fScore > other.fScore] *)
Definition PQElement_gt (a b : PQElement) : bool := dlt (fScore b) (fScore a).

Record PathResult : Type := mkPathResult {
  path : list Z;
  totalDistance : double;
  found : bool;
  executionTime : double
}.

(** [PathResult()] *)
Definition PathResult_new : PathResult := mkPathResult [] infinity false zero.

(** [result.executionTime = duration.count();] *)
Definition set_executionTime (r : PathResult) (ms : Z) : PathResult :=
  mkPathResult (path r) (totalDistance r) (found r) (Fin (inject_Z ms)).

(** The loop of [printResult] over the path: the nodes, with an arrow
    between two of them. *)
Fixpoint print_path (p : list Z) : list item :=
  match p with
  | [] => []
  | [v] => [Int v]
  | v :: p' => Int v :: Str " -> " :: print_path p'
  end.

(** [PathResult::printResult] *)
Definition printResult (r : PathResult) : list item :=
  (if found r then
     [ Str ("Path found!" ++ nl);
       Str "Distance: "; Dbl (totalDistance r); Str nl;
       Str "Path length: "; Int (Z.of_nat (length (path r))); Str (" nodes" ++ nl);
       Str "Path: " ] ++ print_path (path r) ++ [ Str nl ]
   else [ Str ("No path found!" ++ nl) ])
  ++ [ Str "Execution time: "; Dbl (executionTime r); Str (" ms" ++ nl) ].

(** ** The priority queue of the sequential search *)

(** [std::priority_queue<PQElement, vector<PQElement>, greater<PQElement>>]
    as the search uses it: the empty queue, [push], and [top] with [pop]
    ([None] on an empty queue). [pq_elements] lists what a queue holds; the
    search does not call it. *)
Class PriorityQueue (PQ : Type) : Type := {
  pq_new : PQ;
  pq_push : PQElement → PQ → PQ;
  pq_pop : PQ → option (PQElement * PQ);
  pq_elements : PQ → list PQElement
}.

(** What the standard guarantees of the adaptor: a queue holds what was
    pushed and not yet popped, and [top] is an element than which, by
    [greater<PQElement>], no other comes first. Which of several elements
    of the same [fScore] is served first is left open. *)
Class PriorityQueueLaws (PQ : Type) `{PriorityQueue PQ} : Prop := {
  pq_new_elements : pq_elements pq_new = [];
  pq_push_elements x q : pq_elements (pq_push x q) ≡ₚ x :: pq_elements q;
  pq_pop_empty q : pq_pop q = None ↔ pq_elements q = [];
  pq_pop_top q x q' :
    pq_pop q = Some (x, q') →
    pq_elements q ≡ₚ x :: pq_elements q' ∧
    Forall (fun y => PQElement_gt x y = false) (pq_elements q')
}.

(** A queue to run the model with: the elements in the order of their
    insertion, latest first; [top] is the oldest element of least
    [fScore]. *)
Fixpoint extract_min (q : list PQElement) : option (PQElement * list PQElement) :=
  match q with
  | [] => None
  | x :: q' =>
      match extract_min q' with
      | None => Some (x, [])
      | Some (y, r) => if PQElement_gt y x then Some (x, q') else Some (y, x :: r)
      end
  end.

#[global] Instance list_queue : PriorityQueue (list PQElement) := {
  pq_new := [];
  pq_push := cons;
  pq_pop := extract_min;
  pq_elements q := q
}.

(** ** The sequential search *)

Module Sequential.
Section Search.
Context {PQ : Type} `{!PriorityQueue PQ}.

(** The local variables of the search. *)
Record state : Type := mk {
  distances : list double;
  predecessors : list Z;
  visited : list bool;
  pq : PQ;
  nodesProcessed : Z
}.

(** [graph], and the [fScore] that the search gives to the element it
    pushes for [neighbor] at [newDistance]: [newDistance] itself in
    [sequentialDijkstra], [newDistance + getHeuristic(neighbor,
    destination)] in [sequentialAStarDijkstra]. The two functions of the
    source differ in nothing else. *)
Context (graph : Graph) (fscore : Z → double → option double).

(** The body of the loop over the edges of [currentNode]:
    [int neighbor = edge.destination;
     double newDistance = distances[currentNode] + edge.weight;
     if (newDistance < distances[neighbor]) {
       distances[neighbor] = newDistance;
       predecessors[neighbor] = currentNode;
       pq.push(PQElement(neighbor, newDistance, fScore)); }] *)
Definition relax (currentNode : Z) (st : state) (edge : Edge) : option state :=
  let neighbor := destination edge in
  dc ← vget (distances st) currentNode;
  let newDistance := dadd dc (weight edge) in
  dn ← vget (distances st) neighbor;
  if dlt newDistance dn then
    ds ← vset (distances st) neighbor newDistance;
    ps ← vset (predecessors st) neighbor currentNode;
    f ← fscore neighbor newDistance;
    Some (mk ds ps (visited st)
            (pq_push (mkPQElement neighbor newDistance f) (pq st))
            (nodesProcessed st))
  else Some st.

(** [for (const Edge& edge : edges) ...] *)
Fixpoint explore (currentNode : Z) (edges : list Edge) (st : state) : option state :=
  match edges with
  | [] => Some st
  | edge :: edges' => st' ← relax currentNode st edge; explore currentNode edges' st'
  end.

(** The argument [destination] of the search. *)
Context (destination : Z).

(** [while (!pq.empty()) { PQElement current = pq.top(); pq.pop(); ... }]:
    an element whose node is visited is skipped, the destination ends the
    loop, any other node is marked and its edges are relaxed. [None] for an
    index out of bounds, and when the fuel runs out before the queue. *)
Fixpoint loop (fuel : nat) (st : state) : option state :=
  match pq_pop (pq st) with
  | None => Some st
  | Some (current, rest) =>
      match fuel with
      | O => None
      | S fuel' =>
          let currentNode := nodeId current in
          seen ← vget (visited st) currentNode;
          if seen : bool then
            loop fuel' (mk (distances st) (predecessors st) (visited st) rest
                          (nodesProcessed st))
          else
            vs ← vset (visited st) currentNode true;
            let st1 := mk (distances st) (predecessors st) vs rest
                         (nodesProcessed st + 1) in
            if currentNode =? destination then Some st1
            else
              edges ← getAdjacencyList graph currentNode;
              st2 ← explore currentNode edges st1;
              loop fuel' st2
      end
  end.

(** [while (current != -1) { reversePath.push_back(current);
      current = predecessors[current]; }] *)
Fixpoint trace_back (fuel : nat) (predecessors : list Z) (current : Z)
    (reversePath : list Z) : option (list Z) :=
  if current =? -1 then Some reversePath
  else
    match fuel with
    | O => None
    | S fuel' =>
        p ← vget predecessors current;
        trace_back fuel' predecessors p (reversePath ++ [current])
    end.

(** The reconstruction of the path after the loop. A chain of predecessors
    that does not end within [nodeCount] steps runs in a cycle, and the C++
    loop does not return. *)
Definition reconstruct (st : state) : option PathResult :=
  dt ← vget (distances st) destination;
  if is_infinity dt then Some PathResult_new
  else
    reversePath ← trace_back (S (length (predecessors st))) (predecessors st)
                    destination [];
    Some (mkPathResult (reverse reversePath) dt true zero).

(** The search from [source]; [f0] is the [fScore] of the first element.
    Every node is marked once and every edge relaxed at most once, so the
    queue serves at most one element more than the graph stores edges. *)
Definition search (f0 : option double) (source : Z) : option PathResult :=
  let nodeCount := getNodeCount graph in
  if nodeCount <? 0 then None
  else
    let n := Z.to_nat nodeCount in
    ds ← vset (replicate n infinity) source zero;
    f ← f0;
    let st0 := mk ds (replicate n (-1)) (replicate n false)
                 (pq_push (mkPQElement source zero f) pq_new) 0 in
    st ← loop (S (length (concat (Node.adjacencyList <$> nodes graph)))) st0;
    reconstruct st.

End Search.
End Sequential.

(** [sequentialDijkstra] *)
Definition sequentialDijkstra {PQ : Type} `{!PriorityQueue PQ}
    (graph : Graph) (source destination : Z) : option PathResult :=
  Sequential.search (PQ := PQ) graph (fun _ newDistance => Some newDistance)
    destination (Some zero) source.

(** [sequentialAStarDijkstra] *)
Definition sequentialAStarDijkstra {PQ : Type} `{!PriorityQueue PQ}
    (graph : Graph) (source destination : Z) : option PathResult :=
  Sequential.search (PQ := PQ) graph
    (fun neighbor newDistance =>
       heuristic ← getHeuristic graph neighbor destination;
       Some (dadd newDistance heuristic))
    destination (getHeuristic graph source destination) source.

(** [printUsage] of the sequential program. *)
Definition sequential_usage (programName : string) : list item :=
  [ Str ("Sequential Dijkstra - Baseline Shortest Path Finder" ++ nl ++ nl);
    Str ("Usage:" ++ nl);
    Str "  "; Str programName;
    Str (" <graph_file> <source> <destination> [--astar]" ++ nl);
    Str (nl ++ "Arguments:" ++ nl);
    Str ("  graph_file    - Path to graph data file" ++ nl);
    Str ("  source        - Source node ID" ++ nl);
    Str ("  destination   - Destination node ID" ++ nl);
    Str ("  --astar       - Use A* heuristic (optional)" ++ nl);
    Str (nl ++ "Example:" ++ nl);
    Str "  "; Str programName; Str (" data/synthetic/graph_1000.txt 0 999" ++ nl);
    Str "  "; Str programName;
    Str (" data/synthetic/graph_1000.txt 0 999 --astar" ++ nl) ].

(** What the sequential program prints before it loads the graph. *)
Definition sequential_banner (graphFile : string) : list item :=
  [ Str rule;
    Str ("Sequential Dijkstra's Algorithm" ++ nl);
    Str rule;
    Str "Loading graph from: "; Str graphFile; Str nl ].

(** [main] of the sequential program; the output is what goes to [cout].
    [duration] is the time that the program measures, in milliseconds. *)
Definition sequential_main {PQ : Type} `{!PriorityQueue PQ}
    (fs : FileSystem) (duration : Z) (argv : list string) : run :=
  match argv with
  | prog :: graphFile :: a2 :: a3 :: rest =>
      match atoi a2, atoi a3 with
      | Some source, Some destination =>
          let useAStar :=
            match rest with
            | a4 :: _ => String.eqb a4 "--astar"
            | [] => false
            end in
          let out1 := sequential_banner graphFile in
          match loadFromFile fs graphFile Graph_default with
          | Ok (false, _) => Exited 1 out1
          | Ok (true, graph) =>
              let out2 :=
                out1 ++ [Str ("✓ Graph loaded successfully" ++ nl)] ++ printInfo graph in
              if (source <? 0) || (getNodeCount graph <=? source) ||
                 (destination <? 0) || (getNodeCount graph <=? destination)
              then Exited 1 out2
              else
                let out3 :=
                  out2 ++
                  [ Str (nl ++ "Source:      "); Int source; Str nl;
                    Str "Destination: "; Int destination; Str nl;
                    Str "Algorithm:   ";
                    Str (if useAStar then "Dijkstra + A*" else "Standard Dijkstra");
                    Str nl;
                    Str (rule ++ nl);
                    Str ("Computing shortest path..." ++ nl) ] in
                match (if useAStar
                       then sequentialAStarDijkstra (PQ := PQ) graph source destination
                       else sequentialDijkstra (PQ := PQ) graph source destination) with
                | Some result =>
                    Exited 0
                      (out3 ++
                       [ Str (nl ++ rule); Str ("Results" ++ nl); Str rule ] ++
                       printResult (set_executionTime result duration) ++
                       [ Str rule ])
                | None => Erroneous
                end
          | Throws => Crashed
          | Undefined => Erroneous
          end
      | _, _ => Erroneous
      end
  | prog :: _ => Exited 1 (sequential_usage prog)
  | [] => Erroneous
  end.

(** ** graph_generator.cpp *)

(** The values that the three distributions of [generateRandomGraph] return
    in one run: [nodeDist rnd k] is what the call number [k] of
    [nodeDist(gen)] returns, counted from 0, and so on. A run is determined
    by these values; what the engine [mt19937] makes them is not
    modelled. *)
Record Random : Type := mkRandom {
  weightDist : nat → double;
  coordDist : nat → double;
  nodeDist : nat → Z
}.

Module Generator.

(** How many values each distribution has returned so far. *)
Record Drawn : Type := mkDrawn {
  weights : nat;
  coords : nat;
  nodes_drawn : nat
}.

(** [for (int i = 0; i < numNodes; i++) { double x = coordDist(gen);
      double y = coordDist(gen); graph.setNodeCoordinates(i, x, y); }] *)
Definition random_coordinates (rnd : Random) (numNodes : Z) (gk : Graph * Drawn)
  : Graph * Drawn :=
  foldl (fun '(g, k) i =>
           let x := coordDist rnd (coords k) in
           let y := coordDist rnd (S (coords k)) in
           (setNodeCoordinates g i x y,
            mkDrawn (weights k) (S (S (coords k))) (nodes_drawn k)))
        gk (seqZ 0 numNodes).

(** The spanning tree:
    [for (int i = 1; i < numNodes; i++) { int parent = nodeDist(gen) % i;
      double weight = weightDist(gen);
      graph.addBidirectionalEdge(parent, i, weight); }] *)
Definition backbone (rnd : Random) (numNodes : Z) (gk : Graph * Drawn)
  : Graph * Drawn :=
  foldl (fun '(g, k) i =>
           let parent := Z.rem (nodeDist rnd (nodes_drawn k)) i in
           let weight := weightDist rnd (weights k) in
           (addBidirectionalEdge g parent i weight,
            mkDrawn (S (weights k)) (coords k) (S (nodes_drawn k))))
        gk (seqZ 1 (numNodes - 1)).

(** The local variables of the loop that adds the remaining edges. *)
Record Adding : Type := mkAdding {
  graph : Graph;
  drawn : Drawn;
  edgesAdded : Z;
  attempts : Z
}.

(** [while (edgesAdded < numEdges && attempts < maxAttempts) {
      int from = nodeDist(gen); int to = nodeDist(gen);
      if (from != to) { double weight = weightDist(gen);
        graph.addBidirectionalEdge(from, to, weight); edgesAdded += 2; }
      attempts++; }]
    [None] when the fuel runs out with the condition still true. *)
Fixpoint add_random_edges (fuel : nat) (rnd : Random) (numEdges maxAttempts : Z)
    (a : Adding) : option Adding :=
  if (edgesAdded a <? numEdges) && (attempts a <? maxAttempts) then
    match fuel with
    | O => None
    | S fuel' =>
        let k := drawn a in
        let from := nodeDist rnd (nodes_drawn k) in
        let to := nodeDist rnd (S (nodes_drawn k)) in
        if from =? to then
          add_random_edges fuel' rnd numEdges maxAttempts
            (mkAdding (graph a)
               (mkDrawn (weights k) (coords k) (S (S (nodes_drawn k))))
               (edgesAdded a) (attempts a + 1))
        else
          let weight := weightDist rnd (weights k) in
          add_random_edges fuel' rnd numEdges maxAttempts
            (mkAdding (addBidirectionalEdge (graph a) from to weight)
               (mkDrawn (S (weights k)) (coords k) (S (S (nodes_drawn k))))
               (edgesAdded a + 2) (attempts a + 1))
    end
  else Some a.

(** Lines 17-58 of [generateRandomGraph]: the graph when it is saved. The
    constructor throws on a negative node count; a distribution over an
    empty range ([numNodes - 1 < 0], [maxWeight < minWeight]) is
    undefined. *)
Definition build (rnd : Random) (numNodes numEdges : Z) (minWeight maxWeight : double)
  : outcome Graph :=
  obind (Graph_new numNodes) (fun g0 =>
  if (numNodes - 1 <? 0) || dlt maxWeight minWeight then Undefined
  else
    let gk1 := random_coordinates rnd numNodes (g0, mkDrawn 0 0 0) in
    let '(g2, k2) := backbone rnd numNodes gk1 in
    let maxAttempts := numEdges * 10 in
    match add_random_edges (Z.to_nat maxAttempts) rnd numEdges maxAttempts
            (mkAdding g2 k2 (numNodes - 1) 0) with
    | Some a => Ok (graph a)
    | None => Undefined
    end).

(** The cells of a grid, row after row. *)
Definition cells (rows cols : Z) : list (Z * Z) :=
  r ← seqZ 0 rows; (fun c => (r, c)) <$> seqZ 0 cols.

(** The first pair of loops of [generateGridGraph]:
    [graph.setNodeCoordinates(r * cols + c, c * 10.0, r * 10.0)] *)
Definition grid_coordinates (rows cols : Z) (g : Graph) : Graph :=
  foldl (fun g '(r, c) =>
           let nodeId := r * cols + c in
           setNodeCoordinates g nodeId (Fin (inject_Z c * 10)) (Fin (inject_Z r * 10)))
        g (cells rows cols).

(** The second pair of loops: the edge to the right neighbour, then the
    edge to the bottom neighbour, each in both directions. *)
Definition grid_edges (rows cols : Z) (edgeWeight : double) (g : Graph) : Graph :=
  foldl (fun g '(r, c) =>
           let nodeId := r * cols + c in
           let g1 := if c <? cols - 1
                     then addBidirectionalEdge g nodeId (r * cols + (c + 1)) edgeWeight
                     else g in
           if r <? rows - 1
           then addBidirectionalEdge g1 nodeId ((r + 1) * cols + c) edgeWeight
           else g1)
        g (cells rows cols).

(** The graph of [generateGridGraph] when it is saved. *)
Definition build_grid (rows cols : Z) (edgeWeight : double) : outcome Graph :=
  obind (Graph_new (rows * cols)) (fun g0 =>
  Ok (grid_edges rows cols edgeWeight (grid_coordinates rows cols g0))).

(** The end of both generators: the graph is saved, and the summary is
    printed when that worked. The first component is what goes to [cout]
    from here on. *)
Definition save_and_report (fmt : double → token) (creatable : string → bool)
    (fs : FileSystem) (filename : string) (what : string) (g : Graph)
  : outcome (list item * FileSystem) :=
  match saveToFile fmt creatable fs filename g with
  | Some (true, fs') => Ok (Str what :: printInfo g, fs')
  | Some (false, fs') => Ok ([], fs')
  | None => Undefined
  end.

End Generator.

(** [generateRandomGraph] *)
Definition generateRandomGraph (rnd : Random) (fmt : double → token)
    (creatable : string → bool) (fs : FileSystem)
    (numNodes numEdges : Z) (filename : string) (minWeight maxWeight : double)
  : outcome (list item * FileSystem) :=
  obind (Generator.build rnd numNodes numEdges minWeight maxWeight) (fun g =>
  obind (Generator.save_and_report fmt creatable fs filename
           ("✓ Graph generated successfully!" ++ nl) g) (fun '(out, fs') =>
  Ok ([ Str ("Creating connected graph backbone..." ++ nl);
        Str ("Adding additional edges..." ++ nl);
        Str "Saving graph to "; Str filename; Str ("..." ++ nl) ] ++ out, fs'))).

(** [generateGridGraph] *)
Definition generateGridGraph (fmt : double → token) (creatable : string → bool)
    (fs : FileSystem) (rows cols : Z) (filename : string) (edgeWeight : double)
  : outcome (list item * FileSystem) :=
  obind (Generator.build_grid rows cols edgeWeight) (fun g =>
  obind (Generator.save_and_report fmt creatable fs filename
           ("✓ Grid graph generated successfully!" ++ nl) g) (fun '(out, fs') =>
  Ok ([ Str "Generating "; Int rows; Str "x"; Int cols; Str (" grid graph..." ++ nl);
        Str "Saving grid graph to "; Str filename; Str ("..." ++ nl) ] ++ out, fs'))).

(** ** More specification vocabulary *)

(** The number of edges that the adjacency lists hold. *)
Definition stored_edges (g : Graph) : Z :=
  Z.of_nat (length (concat (Node.adjacencyList <$> nodes g))).

(** The invariant that the constructor, [addEdge] and a load into a fresh
    object keep: the one of [Graph_wf], and [edgeCount] counts the stored
    edges. *)
Definition Graph_inv (g : Graph) : Prop :=
  Graph_wf g ∧ edgeCount g = stored_edges g.

(** The number that the extractor of a [double] reads from a field, when
    the field is a number. *)
Definition field_value (t : token) : option double :=
  match t with
  | TInt z => Some (Fin (inject_Z z))
  | TDec q | TFrac q => Some (Fin q)
  | TWord => None
  end.

(** What a graph file and a broadcast carry of a graph: the counts and, node
    by node, the edges in their order, with [f] applied to the weights. The
    coordinates are dropped and the ids are the positions. *)
Definition stored_form (f : double → double) (g : Graph) : Graph :=
  mkGraph (imap (fun i nd =>
                   Node.mk (Z.of_nat i) zero zero
                     ((fun e => mkEdge (destination e) (f (weight e)))
                        <$> Node.adjacencyList nd))
                (nodes g))
          (nodeCount g) (edgeCount g).

(** The edges out of [u] among the entries [(from, to, weight)], in
    order. *)
Definition edges_from (u : Z) (entries : list (Z * Z * double)) : list Edge :=
  omap (fun '(from, to, w) => if decide (from = u) then Some (mkEdge to w) else None)
       entries.

(** The entries that [addEdge] accepts in a graph of [n] nodes. *)
Definition in_range (n : Z) (entry : Z * Z * double) : bool :=
  let '(from, to, _) := entry in
  (0 <=? from) && (from <? n) && (0 <=? to) && (to <? n).

(** A node with more edges at the end of its list. *)
Definition with_more_edges (nd : Node.t) (es : list Edge) : Node.t :=
  Node.mk (Node.id nd) (Node.x nd) (Node.y nd) (Node.adjacencyList nd ++ es).

(** The edge loop of [loadFromFile] without the graph: the triples that
    the loop reads and hands to [addEdge], in order. *)
Fixpoint read_entries (n : nat) (s : istream) : outcome (list (Z * Z * double)) :=
  match n with
  | O => Ok []
  | S n' =>
      let '(from, s1) := extract_int s in
      let '(to, s2) := extract_int s1 in
      let '(w, s3) := extract_double s2 in
      obind (use from) (fun from =>
      obind (use to) (fun to =>
      obind (use w) (fun w =>
      obind (read_entries n' s3) (fun es => Ok ((from, to, w) :: es)))))
  end.

(** The entries [(from, to, f weight)] of the edges stored in the nodes
    [ns], node after node; the first node of [ns] is node [off]. *)
Definition entries_of (f : double → double) (off : Z) (ns : list Node.t)
  : list (Z * Z * double) :=
  concat (imap (fun j nd =>
                  (fun e => (off + Z.of_nat j, destination e, f (weight e)))
                    <$> Node.adjacencyList nd)
               ns).

(** The three fields of a line that carries the entry [(from, to, w)]. *)
Definition entry_line (fmt : double → token) (entry : Z * Z * double) : list token :=
  let '(from, to, w) := entry in [TInt from; TInt to; fmt w].

(** The graph object of a process after [Graph graph;] and
    [setNodeCount(n)]. *)
Definition fresh_graph (n : Z) : Graph :=
  mkGraph (assign_ids (replicate (Z.to_nat n) Node.default)) n 0.

(** No edge has an infinite weight. *)
Definition finite_weights (g : Graph) : Prop :=
  Forall (fun nd => Forall (fun e => weight e ≠ PInf) (Node.adjacencyList nd)) (nodes g).

(** [u] was marked before [v], in a list of the marked nodes that has the
    latest first. *)
Definition marked_before (order : list Z) (u v : Z) : Prop :=
  ∃ l1 l2, order = l1 ++ v :: l2 ∧ u ∈ l2.

(** The number of edges out of the nodes that are not in [order]: the
    relaxations that the search may still make. *)
Definition pending_edges (g : Graph) (order : list Z) : nat :=
  length (concat ((fun u => default [] (getAdjacencyList g u))
                    <$> filter (fun u => u ∉ order) (seqZ 0 (nodeCount g)))).

(** The invariant of the sequential search from [s]. [order] lists the
    marked nodes, latest first; [cur] is the node marked last and [todo] the
    edges out of it that the inner loop has not relaxed yet; [budget] bounds
    the number of elements that the queue will still serve. *)
Record search_inv {PQ : Type} `{!PriorityQueue PQ} (g : Graph) (s : Z)
    (order : list Z) (cur : Z) (todo : list Edge) (budget : nat)
    (st : Sequential.state) : Prop := {
  inv_distances : length (Sequential.distances st) = Z.to_nat (nodeCount g);
  inv_predecessors : length (Sequential.predecessors st) = Z.to_nat (nodeCount g);
  inv_visited : length (Sequential.visited st) = Z.to_nat (nodeCount g);
  inv_marked : ∀ v, vget (Sequential.visited st) v = Some true ↔ v ∈ order;
  inv_NoDup : NoDup order;
  inv_source : dget (Sequential.distances st) s = zero;
  inv_source_pred : vget (Sequential.predecessors st) s = Some (-1);
  inv_nonneg : ∀ v, dle zero (dget (Sequential.distances st) v);
  inv_tree : ∀ v, 0 ≤ v < nodeCount g → v ≠ s →
    (dget (Sequential.distances st) v = PInf ∧
     vget (Sequential.predecessors st) v = Some (-1)) ∨
    (∃ u e, vget (Sequential.predecessors st) v = Some u ∧ u ∈ order ∧
            has_edge g u e ∧ destination e = v ∧
            dget (Sequential.distances st) v
              = dadd (dget (Sequential.distances st) u) (weight e) ∧
            (v ∈ order → marked_before order u v));
  inv_relaxed : ∀ u e, u ∈ order → has_edge g u e →
    (u = cur ∧ e ∈ todo) ∨
    dle (dget (Sequential.distances st) (destination e))
        (dadd (dget (Sequential.distances st) u) (weight e));
  inv_queue_above : ∀ u x, u ∈ order → x ∈ pq_elements (Sequential.pq st) →
    dle (dget (Sequential.distances st) u) (fScore x);
  inv_queue : ∀ x, x ∈ pq_elements (Sequential.pq st) →
    0 ≤ nodeId x < nodeCount g ∧
    dle (dget (Sequential.distances st) (nodeId x)) (fScore x) ∧
    dget (Sequential.distances st) (nodeId x) ≠ PInf;
  inv_queued : ∀ v, 0 ≤ v < nodeCount g → v ∉ order →
    dget (Sequential.distances st) v ≠ PInf →
    ∃ x, x ∈ pq_elements (Sequential.pq st) ∧ nodeId x = v ∧
         dle (fScore x) (dget (Sequential.distances st) v);
  inv_finite : ∀ v, v ∈ order → dget (Sequential.distances st) v ≠ PInf;
  inv_last : ∀ u, u ∈ order →
    dle (dget (Sequential.distances st) u) (dget (Sequential.distances st) cur);
  inv_todo : ∀ e, e ∈ todo → has_edge g cur e;
  inv_cur : todo ≠ [] → cur ∈ order;
  inv_budget :
    (length (pq_elements (Sequential.pq st)) + pending_edges g order + length todo ≤ budget)%nat
}.

(** What the search returns for a graph with non-negative weights: the
    shortest distance, [found] exactly when it is finite, and then the nodes
    of a walk of that length. *)
Definition search_result (g : Graph) (s t : Z) (r : PathResult) : Prop :=
  shortest_distance g s t (totalDistance r) ∧
  found r = negb (is_infinity (totalDistance r)) ∧
  executionTime r = zero ∧
  (found r = true →
     ∃ es, walk g s t es ∧ path r = verts s es ∧ walk_weight es = totalDistance r) ∧
  (found r = false → path r = []) ∧
  (¬ reachable g s t → found r = false) ∧
  (finite_weights g → reachable g s t → found r = true).

(** The distributions return values of their ranges: [nodeDist] an integer
    of [0, numNodes - 1], [weightDist] a number of [minWeight, maxWeight). *)
Definition draws_in_range (rnd : Random) (numNodes : Z) (minWeight maxWeight : double)
  : Prop :=
  (∀ k, 0 ≤ nodeDist rnd k ≤ numNodes - 1) ∧
  (∀ k, dle minWeight (weightDist rnd k) ∧ dlt (weightDist rnd k) maxWeight = true).

(** Every edge has its reverse, of the same weight. *)
Definition symmetric (g : Graph) : Prop :=
  ∀ u e, has_edge g u e → has_edge g (destination e) (mkEdge u (weight e)).

(** Every weight lies in [lo, hi). *)
Definition weights_between (g : Graph) (lo hi : double) : Prop :=
  ∀ u e, has_edge g u e → dle lo (weight e) ∧ dlt (weight e) hi = true.

(** Node 0 reaches the nodes below [m], and they reach node 0. *)
Definition connected_below (g : Graph) (m : Z) : Prop :=
  ∀ v, 0 ≤ v < m → reachable g 0 v ∧ reachable g v 0.

(** What the random generator keeps while it adds edges to a graph of [n]
    nodes. *)
Definition generated (g : Graph) (n : Z) (lo hi : double) : Prop :=
  Graph_inv g ∧ nodeCount g = n ∧ symmetric g ∧ weights_between g lo hi.

(** Two cells of a grid of [cols] columns that lie side by side, or one
    above the other. *)
Definition grid_neighbours (rows cols : Z) (u v : Z) : Prop :=
  ∃ r c, 0 ≤ r < rows ∧ 0 ≤ c < cols ∧
    ((c < cols - 1 ∧ ((u = r * cols + c ∧ v = r * cols + (c + 1)) ∨
                      (v = r * cols + c ∧ u = r * cols + (c + 1)))) ∨
     (r < rows - 1 ∧ ((u = r * cols + c ∧ v = (r + 1) * cols + c) ∨
                      (v = r * cols + c ∧ u = (r + 1) * cols + c)))).

#[global] Instance Graph_inv_dec g : Decision (Graph_inv g).
Proof. unfold Graph_inv. apply _. Defined.

#[global] Instance finite_weights_dec g : Decision (finite_weights g).
Proof.
  unfold finite_weights. apply Forall_dec. intros nd. apply Forall_dec. intros e.
  destruct (weight e); [left; discriminate | right; by intros H].
Defined.

(** The entries that [generateGridGraph] hands to [addEdge] at the cell
    [(r, c)]: the two directions of the edge to the right, then those of
    the edge to the bottom. *)
Definition grid_cell_entries (rows cols : Z) (w : double) (cell : Z * Z)
  : list (Z * Z * double) :=
  let '(r, c) := cell in
  let nodeId := r * cols + c in
  (if c <? cols - 1
   then [(nodeId, r * cols + (c + 1), w); (r * cols + (c + 1), nodeId, w)] else []) ++
  (if r <? rows - 1
   then [(nodeId, (r + 1) * cols + c, w); ((r + 1) * cols + c, nodeId, w)] else []).

(** Two nodes on a cycle of weight [1 + (-2)]. *)
Definition negative_cycle_file : list token :=
  [TInt 2; TInt 2;
   TInt 0; TInt 1; TInt 1;
   TInt 1; TInt 0; TInt (-2)].

(** No walk from a node back to itself has a negative weight. *)
Definition no_negative_cycle (g : Graph) : Prop :=
  ∀ v es, walk g v v es → dle zero (walk_weight es).

(** Two nodes and the edge 0 -> 1 of weight -3. *)
Definition negative_edge_file : list token :=
  [TInt 2; TInt 1;
   TInt 0; TInt 1; TInt (-3)].

(** ** Sums that double arithmetic has exactly

    The sums of this development are exact, the sums of the program are
    rounded to 53 bits. The two agree on integers as long as no sum passes
    [2^53] in absolute value. A theorem that depends on the value of a sum,
    and not only on the order of two sums, takes integer weights and such a
    bound as its hypotheses. *)

(** Every stored weight is (numerically) an integer of absolute value at
    most [B]. *)
Definition integer_weights (B : Z) (g : Graph) : Prop :=
  Forall (fun nd => Forall (fun e => ∃ z, deq (weight e) (Fin (inject_Z z)) ∧ - B ≤ z ≤ B)
                      (Node.adjacencyList nd))
         (nodes g).

(** Up to [2^53] every integer is a double. *)
Definition exact_limit : Z := 2 ^ 53.

(** The supersteps of a run: every state of [trace] is the superstep of the
    state before it ([ws0] for the first), which every rank entered through
    its loop test. *)
Fixpoint supersteps_from (ws0 : list Worker) (trace : list (list Worker)) : Prop :=
  match trace with
  | [] => True
  | ws1 :: rest =>
      Forall (fun w => loop_test w = true) ws0 ∧ superstep ws0 = Some ws1 ∧
      supersteps_from ws1 rest
  end.

(** After a superstep the ranks agree on [break], and they break exactly
    when no rank changed a distance in its compute phase. *)
Definition flag_is_global (ws : list Worker) : Prop :=
  ∃ ex : bool, Forall (fun w => exited w = ex) ws ∧
               (ex = true ↔ Forall (fun w => localChanged w = false) ws).

(** * Proofs *)

(** ** The order on doubles *)

Lemma dlt_Fin p q : dlt (Fin p) (Fin q) = true ↔ (p < q)%Q.
Proof.
  simpl. rewrite negb_true_iff. split.
  - intros H. apply Qnot_le_lt. intros Hle. apply Qle_bool_iff in Hle. congruence.
  - intros H. destruct (Qle_bool q p) eqn:E; [|done].
    apply Qle_bool_iff in E. lra.
Qed.

Lemma dle_Fin p q : dle (Fin p) (Fin q) ↔ (p <= q)%Q.
Proof.
  unfold dle. destruct (dlt (Fin q) (Fin p)) eqn:E.
  - apply dlt_Fin in E. split; [done | lra].
  - split; [|done]. intros _. apply Qnot_lt_le. intros H.
    apply dlt_Fin in H. congruence.
Qed.

Lemma dle_PInf a : dle a PInf.
Proof. by destruct a. Qed.

Lemma dle_PInf_inv a : dle PInf a → a = PInf.
Proof. by destruct a. Qed.

Lemma dle_refl a : dle a a.
Proof. destruct a; [apply dle_Fin; lra | done]. Qed.

Lemma dle_trans a b c : dle a b → dle b c → dle a c.
Proof.
  destruct a as [p|], b as [q|], c as [r|]; try done.
  rewrite !dle_Fin. lra.
Qed.

Lemma dlt_dle a b : dlt a b = true → dle a b.
Proof.
  destruct a as [p|], b as [q|]; try done.
  rewrite dlt_Fin, dle_Fin. lra.
Qed.

Lemma dlt_dle_trans a b c : dlt a b = true → dle b c → dlt a c = true.
Proof.
  destruct a as [p|], b as [q|], c as [r|]; try done.
  rewrite !dlt_Fin, dle_Fin. lra.
Qed.

Lemma dle_dlt_contra a b : dle a b → dlt b a = true → False.
Proof. unfold dle. congruence. Qed.

Lemma dadd_mono a b w : dle a b → dle (dadd a w) (dadd b w).
Proof.
  destruct a as [p|], b as [q|], w as [r|]; try done.
  simpl. rewrite !dle_Fin. lra.
Qed.

Lemma dadd_nonneg a w : dle zero w → dle a (dadd a w).
Proof.
  destruct a as [p|], w as [r|]; try done.
  unfold zero. simpl. rewrite !dle_Fin. lra.
Qed.

Lemma dmin_le_l a b : dle (dmin a b) a.
Proof.
  unfold dmin. destruct (dlt b a) eqn:E; [by apply dlt_dle | apply dle_refl].
Qed.

Lemma dmin_le_r a b : dle (dmin a b) b.
Proof.
  unfold dmin. destruct (dlt b a) eqn:E; [apply dle_refl | done].
Qed.

Lemma dmin_cases a b : dmin a b = a ∨ dmin a b = b.
Proof. unfold dmin. destruct (dlt b a); auto. Qed.

Lemma is_infinity_true a : is_infinity a = true ↔ a = PInf.
Proof. by destruct a. Qed.

(** The facts about the order that close most side conditions. The proofs
    after this section use the order on doubles only through the lemmas
    above: reflexivity and transitivity, [a <= infinity], the monotonicity of
    [+] in its first argument and [a <= a + w] for [0 <= w]. *)
Create HintDb dbl.
#[global] Hint Resolve dle_refl dle_PInf dmin_le_l dmin_le_r dlt_dle : dbl.

(** ** Vectors indexed by [int] *)

Lemma vget_Some {A} (v : list A) i a :
  vget v i = Some a ↔ 0 ≤ i ∧ v !! Z.to_nat i = Some a.
Proof.
  unfold vget. destruct (Z.ltb_spec i 0).
  - split; [done | intros [? _]; lia].
  - split; [intros ?; split; [lia | done] | intros [_ ?]; done].
Qed.

Lemma vget_range {A} (v : list A) i a :
  vget v i = Some a → 0 ≤ i < Z.of_nat (length v).
Proof.
  rewrite vget_Some. intros [? H]. apply lookup_lt_Some in H. lia.
Qed.

Lemma vget_is_Some {A} (v : list A) i :
  0 ≤ i < Z.of_nat (length v) → is_Some (vget v i).
Proof.
  intros H. unfold vget. destruct (Z.ltb_spec i 0); [lia|].
  apply lookup_lt_is_Some. lia.
Qed.

Lemma vget_None {A} (v : list A) i :
  ¬ (0 ≤ i < Z.of_nat (length v)) → vget v i = None.
Proof.
  intros H. destruct (vget v i) eqn:E; [|done].
  apply vget_range in E. lia.
Qed.

Lemma vset_Some {A} (v v' : list A) i a :
  vset v i a = Some v' ↔ 0 ≤ i < Z.of_nat (length v) ∧ v' = <[Z.to_nat i := a]> v.
Proof.
  unfold vset. destruct (Z.leb_spec 0 i), (Z.ltb_spec i (Z.of_nat (length v))); simpl;
    split; try done; try (intros [? _]; lia).
  - intros [= <-]. done.
  - intros [_ ->]. done.
Qed.

Lemma vget_vset_eq {A} (v v' : list A) i a :
  vset v i a = Some v' → vget v' i = Some a.
Proof.
  rewrite vset_Some. intros [? ->]. apply vget_Some. split; [lia|].
  apply list_lookup_insert_eq. lia.
Qed.

Lemma vget_vset_ne {A} (v v' : list A) i j a :
  vset v i a = Some v' → i ≠ j → vget v' j = vget v j.
Proof.
  rewrite vset_Some. intros [? ->] Hne. unfold vget.
  destruct (Z.ltb_spec j 0); [done|].
  apply list_lookup_insert_ne. lia.
Qed.

Lemma vset_is_Some {A} (v : list A) i a :
  0 ≤ i < Z.of_nat (length v) → is_Some (vset v i a).
Proof.
  intros H. unfold vset.
  destruct (Z.leb_spec 0 i), (Z.ltb_spec i (Z.of_nat (length v))); simpl; eauto; lia.
Qed.

Lemma vget_replicate {A} n (a : A) i :
  0 ≤ i < Z.of_nat n → vget (replicate n a) i = Some a.
Proof.
  intros H. apply vget_Some. split; [lia|].
  apply lookup_replicate. split; [done | lia].
Qed.

(** ** Graph.h: the class invariant *)

Lemma resize_nodes_length ns n : length (resize_nodes ns n) = n.
Proof.
  unfold resize_nodes. rewrite length_app, length_take, length_replicate. lia.
Qed.

Lemma assign_ids_length ns : length (assign_ids ns) = length ns.
Proof. unfold assign_ids. apply length_imap. Qed.

Lemma assign_ids_adjacency ns i nd :
  assign_ids ns !! i = Some nd →
  ∃ nd', ns !! i = Some nd' ∧ Node.adjacencyList nd = Node.adjacencyList nd'.
Proof.
  unfold assign_ids. rewrite list_lookup_imap_Some.
  intros (nd' & H & ->). eauto.
Qed.

Lemma resize_nodes_lookup ns n i nd :
  resize_nodes ns n !! i = Some nd → ns !! i = Some nd ∨ nd = Node.default.
Proof.
  unfold resize_nodes. intros H.
  apply lookup_app_Some in H as [H | [_ H]].
  - left. apply lookup_take_Some in H. tauto.
  - right. apply lookup_replicate in H. tauto.
Qed.

Lemma Graph_default_wf : Graph_wf Graph_default.
Proof. repeat split; simpl; [lia | constructor]. Qed.

(** Growing a graph keeps the invariant; so does [setNodeCount] on a graph
    without edges, the only use the loader makes of it. *)
Lemma setNodeCount_wf g n g' :
  Graph_wf g → nodeCount g ≤ n → setNodeCount g n = Ok g' →
  Graph_wf g' ∧ nodeCount g' = n ∧ edgeCount g' = edgeCount g.
Proof.
  intros (Hn & Hlen & Hed) Hle. unfold setNodeCount.
  destruct (Z.ltb_spec n 0); [done|]. intros [= <-].
  unfold Graph_wf. cbn [nodes nodeCount edgeCount]. repeat split; try done.
  - by rewrite assign_ids_length, resize_nodes_length.
  - apply Forall_lookup. intros i nd Hi.
    apply assign_ids_adjacency in Hi as (nd' & Hi & ->).
    apply resize_nodes_lookup in Hi as [Hi | ->]; [|constructor].
    rewrite Forall_lookup in Hed. specialize (Hed _ _ Hi).
    eapply Forall_impl; [exact Hed|]. simpl. intros; lia.
Qed.

Lemma addEdge_in_range g from to w :
  0 ≤ from < nodeCount g → 0 ≤ to < nodeCount g →
  addEdge g from to w =
    mkGraph (alter (fun nd => Node.addEdge nd to w) (Z.to_nat from) (nodes g))
      (nodeCount g) (edgeCount g + 1).
Proof.
  intros ? ?. unfold addEdge.
  destruct (Z.leb_spec 0 from), (Z.ltb_spec from (nodeCount g)),
    (Z.leb_spec 0 to), (Z.ltb_spec to (nodeCount g)); simpl; try lia. done.
Qed.

Lemma addEdge_out_of_range g from to w :
  ¬ (0 ≤ from < nodeCount g ∧ 0 ≤ to < nodeCount g) → addEdge g from to w = g.
Proof.
  intros H. unfold addEdge.
  destruct (Z.leb_spec 0 from), (Z.ltb_spec from (nodeCount g)),
    (Z.leb_spec 0 to), (Z.ltb_spec to (nodeCount g)); simpl; try done. lia.
Qed.

Lemma addEdge_nodeCount g from to w : nodeCount (addEdge g from to w) = nodeCount g.
Proof. unfold addEdge. by destruct (_ && _). Qed.

Lemma addEdge_wf g from to w : Graph_wf g → Graph_wf (addEdge g from to w).
Proof.
  intros Hwf.
  destruct (decide (0 ≤ from < nodeCount g ∧ 0 ≤ to < nodeCount g)) as [[Hf Ht]|Hn].
  - rewrite addEdge_in_range by done.
    destruct Hwf as (Hn & Hlen & Hed).
    unfold Graph_wf. cbn [nodes nodeCount edgeCount]. repeat split; try done.
    + by rewrite length_alter.
    + apply Forall_lookup. intros i nd Hi.
      rewrite Forall_lookup in Hed.
      rewrite list_lookup_alter in Hi. destruct (decide (Z.to_nat from = i)) as [<-|].
      * destruct (nodes g !! Z.to_nat from) as [nd'|] eqn:E; [|done].
        simpl in Hi. injection Hi as <-. simpl.
        apply Forall_app. split; [by eapply Hed|].
        constructor; [simpl; lia | constructor].
      * by eapply Hed.
  - by rewrite addEdge_out_of_range.
Qed.

Lemma addEdge_edgeCount_le g from to w :
  edgeCount g ≤ edgeCount (addEdge g from to w) ≤ edgeCount g + 1.
Proof. unfold addEdge. destruct (_ && _); simpl; lia. Qed.

Lemma read_edges_wf n : ∀ s g g',
  Graph_wf g → read_edges n s g = Ok g' →
  Graph_wf g' ∧ nodeCount g' = nodeCount g ∧
  edgeCount g ≤ edgeCount g' ≤ edgeCount g + Z.of_nat n.
Proof.
  induction n as [|n IH]; intros s g g' Hwf; simpl.
  - intros [= <-]. split_and!; [done | done | lia | lia].
  - destruct (extract_int s) as [from s1].
    destruct (extract_int s1) as [to s2].
    destruct (extract_double s2) as [w s3].
    destruct from as [from|]; [|done]. destruct to as [to|]; [|done].
    destruct w as [w|]; [|done]. simpl. intros H.
    apply IH in H as (? & Hn & ?); [|by apply addEdge_wf].
    rewrite addEdge_nodeCount in Hn.
    pose proof (addEdge_edgeCount_le g from to w).
    split_and!; [done | done | lia | lia].
Qed.

(** A graph that [loadFromFile] delivers into a fresh [Graph] object
    satisfies the invariant. *)
Lemma loadFromFile_wf fs filename g :
  loadFromFile fs filename Graph_default = Ok (true, g) → Graph_wf g.
Proof.
  unfold loadFromFile. destruct (fs filename) as [contents|]; [|done].
  destruct (extract_int _) as [numNodes file1].
  destruct (extract_int file1) as [numEdges file2].
  destruct numNodes as [numNodes|]; [|done]. simpl.
  destruct (setNodeCount Graph_default numNodes) as [g1| |] eqn:E1; [|done|done].
  simpl. destruct numEdges as [numEdges|]; [|done]. simpl.
  destruct (read_edges _ file2 g1) as [g2| |] eqn:E2; [|done|done].
  simpl. intros [= <-].
  assert (nodeCount Graph_default ≤ numNodes).
  { unfold setNodeCount in E1. destruct (Z.ltb_spec numNodes 0); [done|]. simpl. lia. }
  apply setNodeCount_wf in E1 as (? & _); [|apply Graph_default_wf|done].
  by apply read_edges_wf in E2 as (? & _).
Qed.

(** [loadFromFile] returns [false] only when the file cannot be opened, and
    then leaves the graph as it was. *)
Lemma loadFromFile_false fs filename g g' :
  loadFromFile fs filename g = Ok (false, g') ↔ fs filename = None ∧ g' = g.
Proof.
  unfold loadFromFile. destruct (fs filename) as [contents|].
  - split; [|by intros [? _]].
    destruct (extract_int _) as [numNodes file1].
    destruct (extract_int file1) as [numEdges file2].
    destruct numNodes as [numNodes|]; [|done]. simpl.
    destruct (setNodeCount g numNodes) as [g1| |]; [|done|done]. simpl.
    destruct numEdges as [numEdges|]; [|done]. simpl.
    destruct (read_edges _ file2 g1) as [g2| |]; done.
  - split; [by intros [= <-] | by intros [_ ->]].
Qed.

(** ** Partitioner.h *)

Lemma round_robin_loop_spec P n : 0 < P → ∀ fuel node,
  n - node ≤ Z.of_nat fuel →
  ∃ l, round_robin_loop fuel node n P = Some l ∧
       (∀ m, m ∈ l ↔ node ≤ m < n ∧ (P | m - node)) ∧ NoDup l.
Proof.
  intros HP. induction fuel as [|fuel IH]; intros node Hfuel.
  - exists []. simpl. destruct (Z.ltb_spec node n); [lia|].
    split_and!; [done | | constructor].
    intros m. rewrite elem_of_nil. split; [done | lia].
  - simpl. destruct (Z.ltb_spec node n) as [Hlt|Hge].
    + destruct (IH (node + P)) as (l & -> & Hl & Hnd); [lia|].
      exists (node :: l). split_and!; [done | |].
      * intros m. rewrite elem_of_cons, Hl. split.
        -- intros [-> | [Hm [k Hk]]].
           ++ split; [lia|]. exists 0. lia.
           ++ split; [lia|]. exists (k + 1). lia.
        -- intros [Hm [k Hk]].
           destruct (decide (m = node)) as [|Hne]; [by left|right].
           assert (1 ≤ k) by nia.
           split; [nia|]. exists (k - 1). lia.
      * constructor; [|done]. rewrite Hl. lia.
    + exists []. split_and!; [done | | constructor].
      intros m. rewrite elem_of_nil. split; [done | lia].
Qed.

Lemma owner_round_robin n r P :
  0 < P → 0 ≤ r < P → r ≤ n ∧ (P | n - r) ↔ 0 ≤ n ∧ getNodeOwnerRoundRobin n P = r.
Proof.
  intros HP Hr. unfold getNodeOwnerRoundRobin. split.
  - intros [Hn [k Hk]]. split; [lia|].
    rewrite Z.rem_mod_nonneg by lia.
    replace n with (r + k * P) by lia.
    rewrite Z.mod_add by lia. apply Z.mod_small. lia.
  - intros [Hn Hrem]. rewrite Z.rem_mod_nonneg in Hrem by lia.
    pose proof (Z.div_mod n P ltac:(lia)) as Hdm.
    pose proof (Z.div_pos n P ltac:(lia) ltac:(lia)).
    split; [nia|]. exists (n / P). lia.
Qed.

(** The partition of a rank: exactly the nodes it owns, each once. *)
Lemma getRoundRobinPartition_spec g r P :
  1 ≤ P → 0 ≤ r < P →
  ∃ part, getRoundRobinPartition g r P = Some part ∧ NoDup part ∧
    ∀ n, n ∈ part ↔ 0 ≤ n < nodeCount g ∧ getNodeOwnerRoundRobin n P = r.
Proof.
  intros HP Hr. unfold getRoundRobinPartition, getNodeCount.
  destruct (round_robin_loop_spec P (nodeCount g) ltac:(lia)
              (Z.to_nat (nodeCount g - r)) r ltac:(lia)) as (l & Hl & Hin & Hnd).
  exists l. split_and!; [done | done |].
  intros n. rewrite Hin.
  pose proof (owner_round_robin n r P ltac:(lia) Hr). intuition lia.
Qed.

Lemma partitions_exist g P rs :
  1 ≤ P → Forall (fun r => 0 ≤ r < P) rs →
  ∃ parts, mapM (fun r => getRoundRobinPartition g r P) rs = Some parts.
Proof.
  intros HP Hrs. apply (mapM_is_Some (fun r => getRoundRobinPartition g r P)).
  eapply Forall_impl; [exact Hrs|]. intros r Hr. simpl.
  destruct (getRoundRobinPartition_spec g r P HP Hr) as (part & -> & _). eauto.
Qed.

Lemma partitions_lookup g P rs parts :
  1 ≤ P → Forall (fun r => 0 ≤ r < P) rs →
  mapM (fun r => getRoundRobinPartition g r P) rs = Some parts →
  Forall2 (fun r part => NoDup part ∧
     ∀ n, n ∈ part ↔ 0 ≤ n < nodeCount g ∧ getNodeOwnerRoundRobin n P = r) rs parts.
Proof.
  intros HP Hrs Hm. apply mapM_Some in Hm.
  induction Hm as [|r part rs parts Hr Hm IH]; [constructor|].
  apply Forall_cons in Hrs as [Hr0 Hrs]. constructor; [|by apply IH].
  destruct (getRoundRobinPartition_spec g r P HP Hr0) as (part' & E & ? & ?).
  by simplify_eq.
Qed.

Lemma partitions_concat (N P : Z) rs (parts : list (list Z)) :
  NoDup rs →
  Forall2 (fun r part => NoDup part ∧
     ∀ n, n ∈ part ↔ 0 ≤ n < N ∧ getNodeOwnerRoundRobin n P = r) rs parts →
  NoDup (concat parts) ∧
  ∀ n, n ∈ concat parts ↔ 0 ≤ n < N ∧ getNodeOwnerRoundRobin n P ∈ rs.
Proof.
  intros Hnd H. induction H as [|r part rs parts [Hp Hin] H IH].
  - simpl. split; [constructor|]. intros n. rewrite !elem_of_nil. tauto.
  - apply NoDup_cons in Hnd as [Hr Hnd]. destruct (IH Hnd) as [IH1 IH2].
    simpl. split.
    + apply NoDup_app. split_and!; [done | | done].
      intros n Hn Hn'. apply Hin in Hn as [_ <-]. apply IH2 in Hn' as [_ ?]. done.
    + intros n. rewrite elem_of_app, elem_of_cons, Hin, IH2. intuition.
Qed.

(** C2. For every worker count P >= 1 and node count >= 0 the round-robin
    partitions of the ranks 0..P-1 exist, their concatenation is a
    permutation of 0..nodeCount-1 (pairwise disjoint, nothing missing), and
    the partition of rank r holds exactly the nodes n with n % P = r. *)
Theorem C2_round_robin_partition_exact (g : Graph) (P : Z) :
  1 ≤ P → 0 ≤ nodeCount g →
  ∃ parts, mapM (fun r => getRoundRobinPartition g r P) (seqZ 0 P) = Some parts ∧
    concat parts ≡ₚ seqZ 0 (nodeCount g) ∧
    Forall2 (fun r part => NoDup part ∧
       ∀ n, n ∈ part ↔ 0 ≤ n < nodeCount g ∧ getNodeOwnerRoundRobin n P = r)
      (seqZ 0 P) parts.
Proof.
  intros HP HN.
  assert (Hrs : Forall (fun r => 0 ≤ r < P) (seqZ 0 P)).
  { apply Forall_forall. intros r. rewrite elem_of_seqZ. lia. }
  destruct (partitions_exist g P _ HP Hrs) as [parts Hparts].
  pose proof (partitions_lookup g P _ parts HP Hrs Hparts) as HF.
  exists parts. split_and!; [done | | done].
  destruct (partitions_concat _ _ _ _ (NoDup_seqZ 0 P) HF) as [Hnd Hin].
  apply NoDup_Permutation; [done | apply NoDup_seqZ |].
  intros n. rewrite Hin, !elem_of_seqZ. unfold getNodeOwnerRoundRobin.
  split; [lia|]. intros Hn. split; [lia|].
  rewrite Z.rem_mod_nonneg by lia.
  pose proof (Z.mod_pos_bound n P ltac:(lia)). lia.
Qed.

Lemma C2_round_robin_partition_exact_witness :
  ∃ parts,
    mapM (fun r => getRoundRobinPartition (load_graph scenario_a_file) r 2) (seqZ 0 2)
      = Some parts ∧
    concat parts ≡ₚ seqZ 0 5 ∧
    Forall2 (fun r part => NoDup part ∧
       ∀ n, n ∈ part ↔ 0 ≤ n < 5 ∧ getNodeOwnerRoundRobin n 2 = r) (seqZ 0 2) parts.
Proof.
  apply (C2_round_robin_partition_exact (load_graph scenario_a_file) 2);
    [lia | by vm_compute].
Defined.

(** C8. A call addEdge(from, to, w) with an endpoint outside
    [0, nodeCount) returns the graph as it was: no adjacency list changes and
    edgeCount is not incremented (the call has no way to signal an error);
    and there is a graph file whose loaded edge count is smaller than the
    count its header declares. *)
Theorem C8_addEdge_out_of_range_ignored :
  (∀ g from to w,
     ¬ (0 ≤ from < nodeCount g ∧ 0 ≤ to < nodeCount g) → addEdge g from to w = g) ∧
  (∃ contents declared g,
     declared_edge_count contents = Some declared ∧
     loadFromFile (fun _ => Some contents) "graph.txt" Graph_default = Ok (true, g) ∧
     edgeCount g < declared).
Proof.
  split; [apply addEdge_out_of_range|].
  exists [TInt 2; TInt 1; TInt 0; TInt 5; TDec (3 # 2)], 1.
  eexists. split_and!; [reflexivity | reflexivity | simpl; lia].
Qed.

Lemma C8_addEdge_out_of_range_ignored_witness :
  addEdge (mkGraph [Node.mk 0 zero zero []; Node.mk 1 zero zero []] 2 0) 0 5 (Fin 1)
  = mkGraph [Node.mk 0 zero zero []; Node.mk 1 zero zero []] 2 0.
Proof. apply (proj1 C8_addEdge_out_of_range_ignored). simpl. lia. Defined.

(** ** Walks *)

Lemma walk_weight_snoc es e :
  walk_weight (es ++ [e]) = dadd (walk_weight es) (weight e).
Proof. unfold walk_weight. by rewrite foldl_app. Qed.

Lemma has_edge_range g u e :
  Graph_wf g → has_edge g u e →
  0 ≤ u < nodeCount g ∧ 0 ≤ destination e < nodeCount g.
Proof.
  intros (Hn & Hlen & Hed) (es & Hes & Hin). unfold getAdjacencyList in Hes.
  destruct (vget (nodes g) u) as [nd|] eqn:E; [|done]. simpl in Hes. simplify_eq.
  pose proof (vget_range _ _ _ E) as Hr. split; [lia|].
  apply vget_Some in E as [_ E].
  rewrite Forall_lookup in Hed. specialize (Hed _ _ E).
  rewrite Forall_forall in Hed. by apply Hed.
Qed.

Lemma has_edge_nonneg g u e : nonneg_weights g → has_edge g u e → dle zero (weight e).
Proof.
  intros Hnn (es & Hes & Hin). unfold getAdjacencyList in Hes.
  destruct (vget (nodes g) u) as [nd|] eqn:E; [|done]. simpl in Hes. simplify_eq.
  apply vget_Some in E as [_ E]. unfold nonneg_weights in Hnn.
  rewrite Forall_lookup in Hnn. specialize (Hnn _ _ E).
  rewrite Forall_forall in Hnn. by apply Hnn.
Qed.

Lemma getAdjacencyList_is_Some g u :
  Graph_wf g → 0 ≤ u < nodeCount g → is_Some (getAdjacencyList g u).
Proof.
  intros (Hn & Hlen & _) Hu. unfold getAdjacencyList.
  destruct (vget_is_Some (nodes g) u) as [nd ->]; [lia|]. simpl. eauto.
Qed.

Lemma walk_start_range g s v es : walk g s v es → 0 ≤ s < nodeCount g.
Proof. induction 1; done. Qed.

Lemma walk_nil_inv g s v : walk g s v [] → v = s.
Proof.
  inversion 1 as [|u es e _ _ Heq]; [done|]. by destruct es.
Qed.

(** ** Reading distance vectors *)

Lemma dget_vget d v x : vget d v = Some x → dget d v = x.
Proof. unfold dget. by intros ->. Qed.

Lemma dget_out d v : ¬ (0 ≤ v < Z.of_nat (length d)) → dget d v = PInf.
Proof. intros H. unfold dget. by rewrite vget_None. Qed.

Lemma vget_dget d v : 0 ≤ v < Z.of_nat (length d) → vget d v = Some (dget d v).
Proof. intros H. unfold dget. by destruct (vget_is_Some d v H) as [x ->]. Qed.

Lemma dget_insert d v x i :
  0 ≤ v < Z.of_nat (length d) →
  dget (<[Z.to_nat v := x]> d) i = if decide (i = v) then x else dget d i.
Proof.
  intros Hv. assert (Hs : vset d v x = Some (<[Z.to_nat v := x]> d)).
  { by apply vset_Some. }
  destruct (decide (i = v)) as [->|Hne].
  - apply dget_vget. by eapply vget_vset_eq.
  - unfold dget. by erewrite vget_vset_ne.
Qed.

Lemma dget_ext d d' :
  length d = length d' → (∀ v, dget d v = dget d' v) → d = d'.
Proof.
  intros Hlen H. apply list_eq. intros i.
  destruct (decide (i < length d)%nat) as [Hi|Hi].
  - specialize (H (Z.of_nat i)).
    pose proof (vget_dget d (Z.of_nat i) ltac:(lia)) as E1.
    pose proof (vget_dget d' (Z.of_nat i) ltac:(lia)) as E2.
    apply vget_Some in E1 as [_ E1]. apply vget_Some in E2 as [_ E2].
    rewrite Nat2Z.id in E1, E2. congruence.
  - rewrite !lookup_ge_None_2; [done | lia | lia].
Qed.

Lemma steps_down_dle a b : steps_down a b → dle a b.
Proof. intros [-> | H]; [auto with dbl | by apply dlt_dle]. Qed.

Lemma steps_down_trans a b c : steps_down a b → steps_down b c → steps_down a c.
Proof.
  intros [-> | H1] [-> | H2]; [by left | by right | by right |].
  right. eapply dlt_dle_trans; [exact H1 | by apply dlt_dle].
Qed.

Lemma vle_refl d : vle d d.
Proof. split; [done|]. intros v. by left. Qed.

Lemma vle_trans a b c : vle a b → vle b c → vle a c.
Proof.
  intros [? H1] [? H2]. split; [congruence|].
  intros v. eapply steps_down_trans; [apply H1 | apply H2].
Qed.

Lemma vle_dle a b v : vle a b → dle (dget a v) (dget b v).
Proof. intros [_ V]. apply steps_down_dle, V. Qed.

(** ** One edge *)

Lemma relax_edge_Some u w e w' :
  relax_edge u w e = Some w' →
  let d := distances w in
  let v := destination e in
  let newDist := dadd (dget d u) (weight e) in
  0 ≤ u < Z.of_nat (length d) ∧ 0 ≤ v < Z.of_nat (length d) ∧ same_frame w w' ∧
  edgesRelaxed w' = edgesRelaxed w + 1 ∧
  ((dlt newDist (dget d v) = true ∧ distances w' = <[Z.to_nat v := newDist]> d ∧
    localChanged w' = true ∧ localUpdates w' = localUpdates w + 1) ∨
   (dlt newDist (dget d v) = false ∧ distances w' = d ∧
    localChanged w' = localChanged w ∧ localUpdates w' = localUpdates w)).
Proof.
  unfold relax_edge. intros H. cbv zeta.
  destruct (vget (distances w) u) as [du|] eqn:Eu; [|done].
  destruct (vget (distances w) (destination e)) as [dv|] eqn:Ev; [|done].
  simpl in H. rewrite (dget_vget _ _ _ Eu), (dget_vget _ _ _ Ev).
  pose proof (vget_range _ _ _ Eu). pose proof (vget_range _ _ _ Ev).
  split; [done|]. split; [done|].
  destruct (dlt (dadd du (weight e)) dv) eqn:Elt.
  - destruct (vset _ _ _) as [ds|] eqn:Es; [|done]. simpl in H.
    apply vset_Some in Es as [_ ->]. simplify_eq. simpl.
    split; [done|]. split; [done|]. left. done.
  - simplify_eq. simpl. split; [done|]. split; [done|]. right. done.
Qed.

Lemma relax_edge_is_Some u w e :
  0 ≤ u < Z.of_nat (length (distances w)) →
  0 ≤ destination e < Z.of_nat (length (distances w)) →
  is_Some (relax_edge u w e).
Proof.
  intros Hu Hv. unfold relax_edge.
  rewrite (vget_dget _ _ Hu), (vget_dget _ _ Hv). simpl.
  destruct (dlt _ _); [|eauto].
  destruct (vset_is_Some (distances w) (destination e)
              (dadd (dget (distances w) u) (weight e)) Hv) as [ds ->]. simpl. eauto.
Qed.

(** Inversion of a defined edge step in [H]: both indices are in range (as
    [Hu], [Hv]) and [H] becomes the disjunction of the two branches. *)
Ltac relax_edge_inv H :=
  apply relax_edge_Some in H as (Hu & Hv & _ & _ & H); cbv zeta in *.

Lemma same_frame_refl w : same_frame w w.
Proof. by repeat split. Qed.

Lemma same_frame_trans w1 w2 w3 : same_frame w1 w2 → same_frame w2 w3 → same_frame w1 w3.
Proof. unfold same_frame. intuition congruence. Qed.

Lemma relax_edge_vle u w e w' :
  relax_edge u w e = Some w' → vle (distances w') (distances w).
Proof.
  intros H. relax_edge_inv H.
  destruct H as [(Hlt & -> & _) | (_ & -> & _)]; [|apply vle_refl].
  split; [apply length_insert|]. intros i. rewrite dget_insert by done.
  destruct (decide _) as [->|]; [by right | by left].
Qed.

(** The entry of the head of the edge is at most the candidate. *)
Lemma relax_edge_progress u w e w' :
  relax_edge u w e = Some w' →
  dle (dget (distances w') (destination e)) (dadd (dget (distances w) u) (weight e)).
Proof.
  intros H. relax_edge_inv H.
  destruct H as [(Hlt & -> & _) | (Hlt & -> & _)]; [|done].
  rewrite dget_insert by done. rewrite decide_True by done. auto with dbl.
Qed.

Lemma relax_edge_sound g s u w e w' :
  has_edge g u e → sound g s (distances w) →
  relax_edge u w e = Some w' → sound g s (distances w').
Proof.
  intros He Hs H. relax_edge_inv H.
  destruct H as [(Hlt & -> & _) | (_ & -> & _)]; [|done].
  intros i. rewrite dget_insert by done.
  destruct (decide _) as [->|]; [|apply Hs].
  destruct (Hs u) as [Hinf | (es & Hw & Hes)].
  - rewrite Hinf in Hlt. done.
  - right. exists (es ++ [e]). split; [by econstructor|].
    by rewrite walk_weight_snoc, Hes.
Qed.

(** An edge whose candidate is no improvement changes neither the vector nor
    the flag. *)
Lemma relax_edge_unchanged u w e w' :
  dle (dget (distances w) (destination e)) (dadd (dget (distances w) u) (weight e)) →
  relax_edge u w e = Some w' →
  distances w' = distances w ∧ localChanged w' = localChanged w ∧
  localUpdates w' = localUpdates w.
Proof.
  intros Hle H. relax_edge_inv H.
  destruct H as [(Hlt & _) | (_ & -> & -> & ->)]; [|done].
  unfold dle in Hle. congruence.
Qed.

Lemma relax_edge_flag u w e w' :
  relax_edge u w e = Some w' → localChanged w' = false →
  localChanged w = false ∧ distances w' = distances w.
Proof.
  intros H Hf. relax_edge_inv H.
  destruct H as [(_ & _ & Hc & _) | (_ & -> & Hc & _)]; [congruence|].
  split; [congruence | done].
Qed.

(** ** The compute phase of one process *)

Lemma local_ok_refl g s w : local_ok g s w w.
Proof.
  split_and!; [apply same_frame_refl | apply vle_refl | done | done | lia | lia].
Qed.

Lemma local_ok_trans g s w1 w2 w3 :
  local_ok g s w1 w2 → local_ok g s w2 w3 → local_ok g s w1 w3.
Proof.
  intros (F1 & V1 & S1 & C1 & E1 & U1) (F2 & V2 & S2 & C2 & E2 & U2).
  split_and!; [by eapply same_frame_trans | by eapply vle_trans | auto | | lia | lia].
  intros H3. destruct (C2 H3) as [H2 ->]. by apply C1.
Qed.

Lemma relax_edge_ok g s u w e w' :
  has_edge g u e → relax_edge u w e = Some w' → local_ok g s w w'.
Proof.
  intros He H. split_and!.
  - by apply relax_edge_Some in H as (_ & _ & ? & _).
  - by eapply relax_edge_vle.
  - intros Hs. by eapply relax_edge_sound.
  - by eapply relax_edge_flag.
  - apply relax_edge_Some in H as (_ & _ & _ & -> & _). lia.
  - apply relax_edge_Some in H as (_ & _ & _ & _ & H). cbv zeta in H.
    destruct H as [(_ & _ & _ & ->) | (_ & _ & _ & ->)]; lia.
Qed.

Lemma relax_edges_ok g s u es : ∀ w w',
  (∀ e, e ∈ es → has_edge g u e) →
  relax_edges u es w = Some w' → local_ok g s w w'.
Proof.
  induction es as [|e es IH]; intros w w' Hes; simpl.
  - intros [= <-]. apply local_ok_refl.
  - destruct (relax_edge u w e) as [w1|] eqn:E1; [|done]. simpl. intros H.
    eapply local_ok_trans.
    + eapply relax_edge_ok; [|done]. apply Hes. by left.
    + apply IH; [|done]. intros e' ?. apply Hes. by right.
Qed.

Lemma relax_edges_progress g u es : ∀ w w',
  (∀ e, e ∈ es → has_edge g u e) →
  relax_edges u es w = Some w' →
  ∀ e, e ∈ es →
    dle (dget (distances w') (destination e)) (dadd (dget (distances w) u) (weight e)).
Proof.
  induction es as [|e0 es IH]; intros w w' Hes; simpl.
  - intros _ e He. by apply elem_of_nil in He.
  - destruct (relax_edge u w e0) as [w1|] eqn:E1; [|done]. simpl. intros H e He.
    assert (Hes' : ∀ e', e' ∈ es → has_edge g u e') by (intros; apply Hes; by right).
    apply elem_of_cons in He as [->|He].
    + pose proof (relax_edges_ok g 0 u es w1 w' Hes' H) as (_ & V & _).
      eapply dle_trans; [by apply vle_dle|]. by apply relax_edge_progress.
    + pose proof (relax_edge_vle _ _ _ _ E1) as V.
      eapply dle_trans; [by eapply IH|]. by apply dadd_mono, vle_dle.
Qed.

Lemma relax_edges_unchanged u es : ∀ w w',
  (∀ e, e ∈ es →
     dle (dget (distances w) (destination e)) (dadd (dget (distances w) u) (weight e))) →
  relax_edges u es w = Some w' →
  distances w' = distances w ∧ localChanged w' = localChanged w ∧
  localUpdates w' = localUpdates w.
Proof.
  induction es as [|e es IH]; intros w w' Hes; simpl.
  - by intros [= <-].
  - destruct (relax_edge u w e) as [w1|] eqn:E1; [|done]. simpl. intros H.
    apply relax_edge_unchanged in E1 as (E1 & E2 & E3); [|apply Hes; by left].
    apply IH in H as (-> & -> & ->); [done|].
    intros e' He'. rewrite E1. apply Hes. by right.
Qed.

Lemma relax_edges_count u es : ∀ w w',
  relax_edges u es w = Some w' →
  edgesRelaxed w' = edgesRelaxed w + Z.of_nat (length es).
Proof.
  induction es as [|e es IH]; intros w w'; simpl.
  - intros [= <-]. lia.
  - destruct (relax_edge u w e) as [w1|] eqn:E1; [|done]. simpl. intros H.
    apply IH in H. apply relax_edge_Some in E1 as (_ & _ & _ & E1 & _). lia.
Qed.

Lemma relax_edges_is_Some u es : ∀ w,
  0 ≤ u < Z.of_nat (length (distances w)) →
  (∀ e, e ∈ es → 0 ≤ destination e < Z.of_nat (length (distances w))) →
  is_Some (relax_edges u es w).
Proof.
  induction es as [|e es IH]; intros w Hu Hes; simpl; [eauto|].
  destruct (relax_edge_is_Some u w e Hu) as [w1 E1]; [apply Hes; by left|].
  rewrite E1. simpl. pose proof (relax_edge_vle _ _ _ _ E1) as [Hlen _].
  apply IH; rewrite Hlen; [done|]. intros e' ?. apply Hes. by right.
Qed.

(** *** One node of the partition *)

Lemma relax_node_Some w u w' :
  relax_node w u = Some w' →
  0 ≤ u < Z.of_nat (length (distances w)) ∧
  ((dget (distances w) u = PInf ∧ w' = w) ∨
   (dget (distances w) u ≠ PInf ∧
    ∃ es, getAdjacencyList (graph w) u = Some es ∧ relax_edges u es w = Some w')).
Proof.
  unfold relax_node. destruct (vget (distances w) u) as [du|] eqn:Eu; [|done].
  simpl. rewrite (dget_vget _ _ _ Eu). pose proof (vget_range _ _ _ Eu).
  split; [done|]. destruct du as [q|]; simpl in *.
  - right. split; [done|].
    destruct (getAdjacencyList (graph w) u) as [es|]; [|done]. eauto.
  - left. split; [done | congruence].
Qed.

Lemma relax_node_ok s w u w' :
  relax_node w u = Some w' → local_ok (graph w) s w w'.
Proof.
  intros H. apply relax_node_Some in H as (_ & [[_ ->] | (_ & es & Hes & H)]).
  - apply local_ok_refl.
  - eapply relax_edges_ok; [|done]. intros e He. by exists es.
Qed.

Lemma relax_node_progress w u w' e :
  relax_node w u = Some w' → has_edge (graph w) u e →
  dle (dget (distances w') (destination e)) (dadd (dget (distances w) u) (weight e)).
Proof.
  intros H (es' & Hes' & He).
  apply relax_node_Some in H as (_ & [[-> ->] | (_ & es & Hes & H)]).
  - auto with dbl.
  - simplify_eq. eapply (relax_edges_progress (graph w)); [|done|done].
    intros e' ?. by exists es.
Qed.

Lemma relax_node_unchanged w u w' :
  (∀ e, has_edge (graph w) u e →
     dle (dget (distances w) (destination e)) (dadd (dget (distances w) u) (weight e))) →
  relax_node w u = Some w' →
  distances w' = distances w ∧ localChanged w' = localChanged w ∧
  localUpdates w' = localUpdates w.
Proof.
  intros Hle H. apply relax_node_Some in H as (_ & [[_ ->] | (_ & es & Hes & H)]); [done|].
  eapply relax_edges_unchanged; [|done]. intros e He. apply Hle. by exists es.
Qed.

Lemma relax_node_is_Some w u :
  Graph_wf (graph w) → length (distances w) = Z.to_nat (nodeCount (graph w)) →
  0 ≤ u < nodeCount (graph w) → is_Some (relax_node w u).
Proof.
  intros Hwf Hlen Hu. unfold relax_node.
  rewrite vget_dget by lia. simpl. destruct (is_infinity _); [eauto|].
  destruct (getAdjacencyList_is_Some _ u Hwf Hu) as [es Hes]. rewrite Hes. simpl.
  apply relax_edges_is_Some; [lia|]. intros e He.
  destruct (has_edge_range (graph w) u e Hwf) as [_ ?]; [by exists es | lia].
Qed.

(** *** The whole partition *)

Lemma relax_nodes_ok s us : ∀ w w',
  relax_nodes us w = Some w' → local_ok (graph w) s w w'.
Proof.
  induction us as [|u us IH]; intros w w'; simpl.
  - intros [= <-]. apply local_ok_refl.
  - destruct (relax_node w u) as [w1|] eqn:E1; [|done]. simpl. intros H.
    pose proof (relax_node_ok s _ _ _ E1) as H1.
    eapply local_ok_trans; [exact H1|].
    destruct H1 as ((_ & <- & _) & _). by apply IH.
Qed.

Lemma relax_nodes_progress us : ∀ w w' u e,
  relax_nodes us w = Some w' → u ∈ us → has_edge (graph w) u e →
  dle (dget (distances w') (destination e)) (dadd (dget (distances w) u) (weight e)).
Proof.
  induction us as [|u0 us IH]; intros w w' u e; simpl.
  - intros _ Hu. by apply elem_of_nil in Hu.
  - destruct (relax_node w u0) as [w1|] eqn:E1; [|done]. simpl. intros H Hu He.
    pose proof (relax_node_ok 0 _ _ _ E1) as ((_ & Hg & _) & V1 & _).
    apply elem_of_cons in Hu as [->|Hu].
    + pose proof (relax_nodes_ok 0 _ _ _ H) as (_ & V & _).
      eapply dle_trans; [by apply vle_dle|]. by apply relax_node_progress.
    + eapply dle_trans; [eapply IH; [done | done | by rewrite Hg]|].
      by apply dadd_mono, vle_dle.
Qed.

Lemma relax_nodes_unchanged us : ∀ w w',
  (∀ u e, u ∈ us → has_edge (graph w) u e →
     dle (dget (distances w) (destination e)) (dadd (dget (distances w) u) (weight e))) →
  relax_nodes us w = Some w' →
  distances w' = distances w ∧ localChanged w' = localChanged w ∧
  localUpdates w' = localUpdates w.
Proof.
  induction us as [|u us IH]; intros w w' Hle; simpl.
  - by intros [= <-].
  - destruct (relax_node w u) as [w1|] eqn:E1; [|done]. simpl. intros H.
    pose proof (relax_node_ok 0 _ _ _ E1) as ((_ & Hg & _) & _).
    apply relax_node_unchanged in E1 as (E1 & E2 & E3);
      [|intros e He; apply Hle; [by left | done]].
    apply IH in H as (-> & -> & ->); [done|].
    intros u' e Hu' He. rewrite E1. apply Hle; [by right | by rewrite <- Hg].
Qed.

Lemma relax_nodes_is_Some us : ∀ w,
  Graph_wf (graph w) → length (distances w) = Z.to_nat (nodeCount (graph w)) →
  (∀ u, u ∈ us → 0 ≤ u < nodeCount (graph w)) → is_Some (relax_nodes us w).
Proof.
  induction us as [|u us IH]; intros w Hwf Hlen Hus; simpl; [eauto|].
  destruct (relax_node_is_Some w u Hwf Hlen) as [w1 E1]; [apply Hus; by left|].
  rewrite E1. simpl.
  pose proof (relax_node_ok 0 _ _ _ E1) as ((_ & Hg & _) & [Hl _] & _).
  apply IH; rewrite Hg; [done | congruence |]. intros u' ?. apply Hus. by right.
Qed.

Lemma local_phase_ok s w w' :
  local_phase w = Some w' →
  rank w' = rank w ∧ graph w' = graph w ∧ myPartition w' = myPartition w ∧
  iteration w' = iteration w ∧ exited w' = exited w ∧
  iterationsCompleted w' = iterationsCompleted w + 1 ∧
  vle (distances w') (distances w) ∧
  (sound (graph w) s (distances w) → sound (graph w) s (distances w')) ∧
  (localChanged w' = false → distances w' = distances w) ∧
  edgesRelaxed w ≤ edgesRelaxed w' ∧ localUpdates w ≤ localUpdates w'.
Proof.
  unfold local_phase. intros H.
  apply (relax_nodes_ok s) in H as ((? & ? & ? & ? & ? & ?) & ? & ? & Hc & ? & ?).
  simpl in *. split_and!; try done. intros Hf. by destruct (Hc Hf).
Qed.

Lemma local_phase_progress w w' u e :
  local_phase w = Some w' → u ∈ myPartition w → has_edge (graph w) u e →
  dle (dget (distances w') (destination e)) (dadd (dget (distances w) u) (weight e)).
Proof.
  unfold local_phase. intros H Hu He.
  by apply (relax_nodes_progress _ _ _ u e) in H.
Qed.

Lemma local_phase_unchanged w w' :
  (∀ u e, u ∈ myPartition w → has_edge (graph w) u e →
     dle (dget (distances w) (destination e)) (dadd (dget (distances w) u) (weight e))) →
  local_phase w = Some w' →
  distances w' = distances w ∧ localChanged w' = false ∧
  localUpdates w' = localUpdates w.
Proof.
  unfold local_phase. intros Hle H.
  by apply relax_nodes_unchanged in H.
Qed.

Lemma local_phase_is_Some w :
  Graph_wf (graph w) → length (distances w) = Z.to_nat (nodeCount (graph w)) →
  (∀ u, u ∈ myPartition w → 0 ≤ u < nodeCount (graph w)) → is_Some (local_phase w).
Proof. intros. unfold local_phase. by apply relax_nodes_is_Some. Qed.

(** ** Collectives *)

Lemma dget_vmin a b v :
  length a = length b → dget (vmin a b) v = dmin (dget a v) (dget b v).
Proof.
  intros Hlen. unfold dget, vget, vmin. destruct (v <? 0); [done|].
  rewrite lookup_zip_with.
  destruct (a !! Z.to_nat v) as [x|] eqn:Ea, (b !! Z.to_nat v) as [y|] eqn:Eb; try done.
  - apply lookup_lt_Some in Ea. apply lookup_ge_None in Eb. lia.
  - apply lookup_lt_Some in Eb. apply lookup_ge_None in Ea. lia.
Qed.

Lemma vmin_length a b : length a = length b → length (vmin a b) = length a.
Proof. intros H. unfold vmin. rewrite length_zip_with. lia. Qed.

Lemma foldl_vmin_spec bs : ∀ b,
  Forall (fun b' => length b' = length b) bs →
  length (foldl vmin b bs) = length b ∧
  (∀ b' v, b' ∈ b :: bs → dle (dget (foldl vmin b bs) v) (dget b' v)) ∧
  (∀ v, ∃ b', b' ∈ b :: bs ∧ dget (foldl vmin b bs) v = dget b' v).
Proof.
  induction bs as [|b0 bs IH]; intros b Hlen; simpl.
  - split_and!; [done | |].
    + intros b' v ->%list_elem_of_singleton. auto with dbl.
    + intros v. exists b. split; [by left | done].
  - apply Forall_cons in Hlen as [Hb0 Hlen].
    destruct (IH (vmin b b0)) as (IH1 & IH2 & IH3).
    { rewrite vmin_length by done. done. }
    rewrite vmin_length in IH1 by done. split_and!; [done | |].
    + intros b' v Hb'.
      assert (Hm : dle (dget (foldl vmin (vmin b b0) bs) v) (dget (vmin b b0) v)).
      { apply IH2. by left. }
      rewrite dget_vmin in Hm by done.
      apply elem_of_cons in Hb' as [->|Hb'].
      { eapply dle_trans; [exact Hm | apply dmin_le_l]. }
      apply elem_of_cons in Hb' as [->|Hb'].
      { eapply dle_trans; [exact Hm | apply dmin_le_r]. }
      apply IH2. by right.
    + intros v. destruct (IH3 v) as (b' & Hb' & E).
      apply elem_of_cons in Hb' as [->|Hb'].
      * rewrite dget_vmin in E by done.
        destruct (dmin_cases (dget b v) (dget b0 v)) as [E'|E']; rewrite E' in E.
        -- exists b. split; [by left | done].
        -- exists b0. split; [right; by left | done].
      * exists b'. split; [by do 2 right | done].
Qed.

Lemma allreduce_min_spec bufs n :
  bufs ≠ [] → Forall (fun b => length b = n) bufs →
  ∃ r, allreduce_min bufs = Some r ∧ length r = n ∧
       (∀ b v, b ∈ bufs → dle (dget r v) (dget b v)) ∧
       (∀ v, ∃ b, b ∈ bufs ∧ dget r v = dget b v).
Proof.
  intros Hne Hlen. destruct bufs as [|b bs]; [done|].
  apply Forall_cons in Hlen as [Hb Hlen]. unfold allreduce_min.
  assert (Hbs : Forall (fun b' => length b' = length b) bs).
  { eapply Forall_impl; [exact Hlen|]. simpl. intros; congruence. }
  rewrite (proj2 (forallb_forall _ bs)).
  2:{ intros b' Hb'. apply Nat.eqb_eq. rewrite Forall_forall in Hbs.
      apply Hbs. by apply list_elem_of_In. }
  destruct (foldl_vmin_spec bs b Hbs) as (H1 & H2 & H3).
  eexists. split_and!; [done | congruence | done | done].
Qed.

Lemma foldl_max_spec xs : ∀ x,
  (∀ y, y ∈ x :: xs → y ≤ foldl Z.max x xs) ∧ foldl Z.max x xs ∈ x :: xs.
Proof.
  induction xs as [|x0 xs IH]; intros x; simpl.
  - split; [|by left]. intros y ->%list_elem_of_singleton. lia.
  - destruct (IH (Z.max x x0)) as [IH1 IH2]. split.
    + intros y Hy. pose proof (IH1 (Z.max x x0) ltac:(by left)).
      apply elem_of_cons in Hy as [->|Hy]; [lia|].
      apply elem_of_cons in Hy as [->|Hy]; [lia|]. apply IH1. by right.
    + apply elem_of_cons in IH2 as [E|IH2]; [|by do 2 right].
      rewrite E. destruct (Z.max_spec x x0) as [[_ ->]|[_ ->]]; [right|]; by left.
Qed.

Lemma reduce_max_spec xs :
  xs ≠ [] → ∃ m, reduce_max xs = Some m ∧ (∀ y, y ∈ xs → y ≤ m) ∧ m ∈ xs.
Proof.
  destruct xs as [|x xs]; [done|]. intros _. simpl.
  destruct (foldl_max_spec xs x). eauto.
Qed.

Lemma foldl_add_sum xs : ∀ x, foldl Z.add x xs = x + foldr Z.add 0 xs.
Proof.
  induction xs as [|x0 xs IH]; intros x; simpl; [lia|]. rewrite IH. lia.
Qed.

Lemma reduce_sum_spec xs :
  xs ≠ [] → reduce_sum xs = Some (foldr Z.add 0 xs).
Proof.
  destruct xs as [|x xs]; [done|]. intros _. simpl. by rewrite foldl_add_sum.
Qed.

(** ** Lists and ranks *)

Lemma mapM_Forall2 {A B C} (f : B → option C) (D : A → Prop) (R : A → B → Prop)
    (Q : A → C → Prop) xs ws :
  Forall D xs → Forall2 R xs ws →
  (∀ x w, D x → R x w → ∃ l, f w = Some l ∧ Q x l) →
  ∃ ls, mapM f ws = Some ls ∧ Forall2 Q xs ls.
Proof.
  intros HD H HR. induction H as [|x w xs ws Hxw H IH].
  - exists []. split; [done | constructor].
  - apply Forall_cons in HD as [Hx HD].
    destruct (HR x w Hx Hxw) as (l & Hl & HQ). destruct (IH HD) as (ls & Hls & HQs).
    exists (l :: ls). split; [|by constructor].
    apply mapM_Some. constructor; [done|]. by apply mapM_Some.
Qed.

Lemma ranks_in_range P : Forall (fun r => 0 ≤ r < P) (seqZ 0 P).
Proof. apply Forall_forall. intros r. rewrite elem_of_seqZ. lia. Qed.

Lemma Forall2_elem_of_l {A B} (R : A → B → Prop) xs ys x :
  Forall2 R xs ys → x ∈ xs → ∃ y, y ∈ ys ∧ R x y.
Proof.
  intros H Hx. apply list_elem_of_lookup in Hx as [i Hi].
  destruct (Forall2_lookup_l _ _ _ _ _ H Hi) as (y & Hy & HR).
  exists y. split; [|done]. apply list_elem_of_lookup. eauto.
Qed.

Lemma Forall2_elem_of_r {A B} (R : A → B → Prop) xs ys y :
  Forall2 R xs ys → y ∈ ys → ∃ x, x ∈ xs ∧ R x y.
Proof.
  intros H Hy. apply list_elem_of_lookup in Hy as [i Hi].
  destruct (Forall2_lookup_r _ _ _ _ _ H Hi) as (x & Hx & HR).
  exists x. split; [|done]. apply list_elem_of_lookup. eauto.
Qed.

Lemma seqZ_nonempty P : 1 ≤ P → seqZ 0 P ≠ [].
Proof.
  intros HP E. assert (H : 0 ∈ seqZ 0 P) by (apply elem_of_seqZ; lia).
  rewrite E in H. by apply elem_of_nil in H.
Qed.

Lemma Forall2_nonempty {A B} (R : A → B → Prop) xs ys :
  Forall2 R xs ys → xs ≠ [] → ys ≠ [].
Proof. by destruct 1. Qed.

Lemma Forall2_fmap_self {A B} (f : A → B) xs :
  Forall2 (fun x y => y = f x) xs (f <$> xs).
Proof. induction xs; simpl; by constructor. Qed.

Lemma foldr_max_ge xs x : x ∈ xs → x ≤ foldr Z.max 0 xs.
Proof.
  induction xs as [|y xs IH]; intros Hx; [by apply elem_of_nil in Hx|].
  simpl. apply elem_of_cons in Hx as [->|Hx]; [lia|]. specialize (IH Hx). lia.
Qed.

Lemma foldl_max_const xs c : ∀ x, x = c → (∀ y, y ∈ xs → y = c) → foldl Z.max x xs = c.
Proof.
  induction xs as [|y xs IH]; intros x Hx Hxs; simpl; [done|].
  apply IH; [|intros z Hz; apply Hxs; by right].
  rewrite Hx, (Hxs y) by (by left). lia.
Qed.

Lemma existsb_fmap_false {A B} (f : B → bool) (h : A → B) xs :
  (∀ x, x ∈ xs → f (h x) = false) → existsb f (h <$> xs) = false.
Proof.
  induction xs as [|x xs IH]; intros H; simpl; [done|].
  rewrite H by (by left). simpl. apply IH. intros y Hy. apply H. by right.
Qed.

Lemma partition_in_range g r P part u :
  1 ≤ P → 0 ≤ r < P → getRoundRobinPartition g r P = Some part → u ∈ part →
  0 ≤ u < nodeCount g.
Proof.
  intros HP Hr Hpart Hu.
  destruct (getRoundRobinPartition_spec g r P HP Hr) as (part' & E & _ & Hin).
  simplify_eq. by apply Hin in Hu as [? _].
Qed.

Lemma owner_in_partition g P r part u :
  1 ≤ P → 0 ≤ u < nodeCount g → r = u mod P →
  getRoundRobinPartition g r P = Some part → u ∈ part.
Proof.
  intros HP Hu -> Hpart.
  pose proof (Z.mod_pos_bound u P ltac:(lia)) as Hr.
  destruct (getRoundRobinPartition_spec g (u mod P) P HP Hr) as (part' & E & _ & Hin).
  simplify_eq. apply Hin. split; [done|].
  unfold getNodeOwnerRoundRobin. apply Z.rem_mod_nonneg; lia.
Qed.

Lemma dget_replicate n v : dget (replicate n infinity) v = PInf.
Proof.
  destruct (decide (0 ≤ v < Z.of_nat n)) as [Hv|Hv].
  - apply dget_vget. by apply vget_replicate.
  - apply dget_out. by rewrite length_replicate.
Qed.

(** ** Bounds along walks *)

(** A vector that is sound and below all walks is a fixed point of the
    relaxation. *)
Lemma optimal_relaxed g s d : sound g s d → lower_bound g s d → relaxed g d.
Proof.
  intros Hs Hl u e He. destruct (Hs u) as [-> | (es & Hw & <-)]; [auto with dbl|].
  rewrite <- walk_weight_snoc. apply Hl. by econstructor.
Qed.

Lemma relaxed_lower_bound g s d :
  relaxed g d → bounded g s 0 d → lower_bound g s d.
Proof.
  intros Hr Hb v es Hw. induction Hw as [Hs | u es e Hw IH He].
  - apply Hb; [by constructor | done].
  - rewrite walk_weight_snoc. eapply dle_trans; [by apply Hr|]. by apply dadd_mono.
Qed.

Lemma bounded_mono g s k k' d : (k' ≤ k)%nat → bounded g s k d → bounded g s k' d.
Proof. intros Hk Hb v es Hw Hlen. apply Hb; [done | lia]. Qed.

Lemma bounded_shortcut g s m d : shortcut g s m → bounded g s m d → lower_bound g s d.
Proof.
  intros Hsc Hb v es Hw. destruct (Hsc v es Hw) as (es' & Hw' & Hlen & Hle).
  eapply dle_trans; [by apply Hb | done].
Qed.

Lemma bounded_step g s k d d1 :
  bounded g s k d → vle d1 d →
  (∀ u e, has_edge g u e → dle (dget d1 (destination e)) (dadd (dget d u) (weight e))) →
  bounded g s (S k) d1.
Proof.
  intros Hb V Hp v es Hw Hlen. destruct Hw as [Hs | u es e Hw He].
  - eapply dle_trans; [by apply vle_dle|]. apply Hb; [by constructor | simpl; lia].
  - rewrite walk_weight_snoc. eapply dle_trans; [by apply Hp|].
    apply dadd_mono, Hb; [done|]. rewrite length_app in Hlen. simpl in Hlen. lia.
Qed.

(** ** Walks without repeated nodes *)

Lemma verts_snoc s es e : verts s (es ++ [e]) = verts s es ++ [destination e].
Proof. unfold verts. by rewrite fmap_app. Qed.

Lemma verts_app s es1 es2 : verts s (es1 ++ es2) = verts s es1 ++ (destination <$> es2).
Proof. unfold verts. by rewrite fmap_app. Qed.

Lemma walk_edges g s v es : walk g s v es → Forall (fun e => ∃ u, has_edge g u e) es.
Proof.
  induction 1 as [|u es e Hw IH He]; [constructor|].
  apply Forall_app. split; [done|]. constructor; [eauto | constructor].
Qed.

Lemma walk_verts_range g s v es :
  Graph_wf g → walk g s v es → Forall (fun x => 0 ≤ x < nodeCount g) (verts s es).
Proof.
  intros Hwf. induction 1 as [|u es e Hw IH He].
  - unfold verts. simpl. constructor; [done | constructor].
  - rewrite verts_snoc. apply Forall_app. split; [done|].
    constructor; [|constructor]. by apply (has_edge_range g u e).
Qed.

(** A walk that visits [v] has a prefix that ends there. *)
Lemma walk_prefix g s u es v :
  walk g s u es → v ∈ verts s es → ∃ es1 es2, es = es1 ++ es2 ∧ walk g s v es1.
Proof.
  induction 1 as [Hs | u es e Hw IH He]; intros Hv.
  - apply list_elem_of_singleton in Hv as ->. exists [], []. split; [done | by constructor].
  - rewrite verts_snoc in Hv. apply elem_of_app in Hv as [Hv | Hv].
    + destruct (IH Hv) as (es1 & es2 & -> & Hw1).
      exists es1, (es2 ++ [e]). by rewrite app_assoc.
    + apply list_elem_of_singleton in Hv as ->.
      exists (es ++ [e]), []. split; [by rewrite app_nil_r | by econstructor].
Qed.

Lemma foldl_dadd_nonneg es : ∀ a,
  Forall (fun e => dle zero (weight e)) es →
  dle a (foldl (fun acc e => dadd acc (weight e)) a es).
Proof.
  induction es as [|e es IH]; intros a Hes; simpl; [auto with dbl|].
  apply Forall_cons in Hes as [He Hes].
  eapply dle_trans; [by apply dadd_nonneg | by apply IH].
Qed.

Lemma walk_weight_prefix es1 es2 :
  Forall (fun e => dle zero (weight e)) es2 →
  dle (walk_weight es1) (walk_weight (es1 ++ es2)).
Proof.
  intros H. unfold walk_weight. rewrite foldl_app. by apply foldl_dadd_nonneg.
Qed.

(** Loop erasure: under non-negative weights every walk can be replaced by
    one that visits no node twice and is not longer. *)
Lemma walk_simple g s v es :
  nonneg_weights g → walk g s v es →
  ∃ es', walk g s v es' ∧ NoDup (verts s es') ∧ dle (walk_weight es') (walk_weight es).
Proof.
  intros Hnn. induction 1 as [Hs | u es e Hw IH He].
  - exists []. split_and!; [by constructor | | auto with dbl].
    unfold verts. simpl. apply NoDup_singleton.
  - destruct IH as (es' & Hw' & Hnd & Hle).
    assert (Hstep : dle (walk_weight (es' ++ [e])) (walk_weight (es ++ [e]))).
    { rewrite !walk_weight_snoc. by apply dadd_mono. }
    destruct (decide (destination e ∈ verts s es')) as [Hin | Hnin].
    + destruct (walk_prefix _ _ _ _ _ Hw' Hin) as (es1 & es2 & -> & Hw1).
      exists es1. split_and!; [done | |].
      * rewrite verts_app in Hnd. by apply NoDup_app in Hnd as (? & _).
      * eapply dle_trans; [|exact Hstep].
        rewrite <- app_assoc. apply walk_weight_prefix.
        assert (Hed : Forall (fun e0 => ∃ u0, has_edge g u0 e0) ((es1 ++ es2) ++ [e])).
        { eapply walk_edges. by econstructor. }
        rewrite <- app_assoc in Hed. apply Forall_app in Hed as [_ Hed].
        eapply Forall_impl; [exact Hed|]. intros e0 [u0 H0]. by eapply has_edge_nonneg.
    + exists (es' ++ [e]). split_and!; [by econstructor | | done].
      rewrite verts_snoc. apply NoDup_app. split_and!; [done | | apply NoDup_singleton].
      intros x Hx ->%list_elem_of_singleton. done.
Qed.

(** With non-negative weights the walks of fewer than [nodeCount] edges
    suffice. *)
Lemma nonneg_shortcut g s :
  Graph_wf g → nonneg_weights g → shortcut g s (Z.to_nat (nodeCount g - 1)).
Proof.
  intros Hwf Hnn v es Hw.
  destruct (walk_simple g s v es Hnn Hw) as (es' & Hw' & Hnd & Hle).
  exists es'. split_and!; [done | | done].
  assert (Hlen : (length (verts s es') ≤ length (seqZ 0 (nodeCount g)))%nat).
  { apply submseteq_length, NoDup_submseteq; [done|].
    intros x Hx. pose proof (walk_verts_range g s v es' Hwf Hw') as Hr.
    rewrite Forall_forall in Hr. apply elem_of_seqZ. specialize (Hr x Hx). lia. }
  rewrite length_seqZ in Hlen. unfold verts in Hlen. simpl in Hlen.
  rewrite length_fmap in Hlen. lia.
Qed.

Lemma walk_weight_nonneg g s v es :
  nonneg_weights g → walk g s v es → dle zero (walk_weight es).
Proof.
  intros Hnn Hw. unfold walk_weight. apply foldl_dadd_nonneg.
  eapply Forall_impl; [by eapply walk_edges|].
  intros e [u He]. by eapply has_edge_nonneg.
Qed.

(** Under non-negative weights the zero at the source stays. *)
Lemma source_stays_zero g s d d0 :
  nonneg_weights g → sound g s d → vle d d0 → dget d0 s = zero → dget d s = zero.
Proof.
  intros Hnn Hsd [_ V] H0. destruct (V s) as [E | Hlt]; [congruence|].
  rewrite H0 in Hlt. exfalso. destruct (Hsd s) as [E | (es & Hw & E)].
  - by rewrite E in Hlt.
  - rewrite <- E in Hlt. eapply dle_dlt_contra; [|exact Hlt].
    by eapply walk_weight_nonneg.
Qed.

(** A node without a walk from the source holds infinity. *)
Lemma unreached_infinite g s d v : sound g s d → ¬ reachable g s v → dget d v = PInf.
Proof.
  intros Hsd Hnr. destruct (Hsd v) as [E | (es & Hw & _)]; [done|].
  exfalso. apply Hnr. by exists es.
Qed.

(** ** The cohort in lock-step

    Throughout this section [P >= 1] ranks hold replicas of one well-formed
    graph [g], and [s] is the source given on the command line. *)

Section Cohort.
Context (g : Graph) (s P : Z) (Hwf : Graph_wf g) (HP : 1 ≤ P).

(** *** One superstep

    The compute phase of a rank that is in step, then the two
    reductions. *)

Lemma compute_phase d it ic r w :
  0 ≤ r < P → length d = Z.to_nat (nodeCount g) →
  in_step g P d it false ic r w →
  ∃ l, local_phase w = Some l ∧ after_compute g s P d it ic r l.
Proof.
  intros Hr Hlen (Hrk & Hg & Hpart & Hd & Hit & Hex & Hic).
  destruct (local_phase_is_Some w) as [l Hl].
  { by rewrite Hg. }
  { by rewrite Hg, Hd. }
  { intros u Hu. rewrite Hg. by eapply partition_in_range. }
  exists l. split; [done|].
  pose proof (local_phase_ok s _ _ Hl)
    as (E1 & E2 & E3 & E4 & E5 & E6 & V & S & C & _).
  rewrite Hg, Hd in *.
  split_and!; try congruence; try done.
  - intros u e Hu He. rewrite <- Hd.
    eapply local_phase_progress; [done | congruence | by rewrite Hg].
  - intros Hs Hlb.
    apply local_phase_unchanged in Hl as (_ & ? & _); [done|].
    intros u e _ He. rewrite Hg in He. rewrite Hd.
    by apply (optimal_relaxed g s).
Qed.

(** A superstep keeps the cohort in step, on a vector [d'] that is sound,
    below [d] and relaxed against [d]; it raises the exit flag exactly when
    no rank changed an entry, which is the case when [d] is optimal. *)
Lemma superstep_spec d it ic ws :
  length d = Z.to_nat (nodeCount g) →
  synced g P d it false ic ws →
  ∃ ws' d' (ex : bool), superstep ws = Some ws' ∧
    synced g P d' (if ex then it else it + 1) ex (ic + 1) ws' ∧
    vle d' d ∧ (sound g s d → sound g s d') ∧
    (∀ u e, has_edge g u e →
       dle (dget d' (destination e)) (dadd (dget d u) (weight e))) ∧
    (ex = true → d' = d) ∧
    (sound g s d → lower_bound g s d → ex = true).
Proof.
  intros Hlen Hsync.
  destruct (mapM_Forall2 local_phase _ _ (after_compute g s P d it ic) _ _
              (ranks_in_range P) Hsync) as (locals & Hm & HQ).
  { intros r w Hr Hw. by eapply compute_phase. }
  assert (Hne : locals ≠ []).
  { eapply Forall2_nonempty; [exact HQ | by apply seqZ_nonempty]. }
  assert (Hloc : ∀ l, l ∈ locals → ∃ r, 0 ≤ r < P ∧ after_compute g s P d it ic r l).
  { intros l Hl. destruct (Forall2_elem_of_r _ _ _ _ HQ Hl) as (r & Hr & Hrl).
    exists r. split; [|done]. apply elem_of_seqZ in Hr. lia. }
  destruct (allreduce_min_spec (distances <$> locals) (length d)) as (d' & Hd' & Hl' & Hle & Hex).
  { by destruct locals. }
  { apply Forall_fmap, Forall_forall. intros l Hl.
    destruct (Hloc l Hl) as (r & _ & Hrl). simpl.
    by destruct Hrl as (_ & _ & _ & _ & _ & _ & [? _] & _). }
  destruct (reduce_max_spec (localFlag <$> locals)) as (m & Hmax & Hub & Hin).
  { by destruct locals. }
  exists (end_of_iteration d' m <$> locals), d', (m =? 0).
  split_and!.
  - unfold superstep. rewrite Hm. simpl. rewrite Hd'. simpl. by rewrite Hmax.
  - unfold synced. apply Forall2_fmap_r.
    eapply Forall2_impl; [exact HQ|]. intros r l Hrl.
    destruct Hrl as (? & ? & ? & Hit & ? & ? & _).
    unfold in_step, end_of_iteration. simpl. split_and!; try done.
    rewrite Hit. by destruct (m =? 0).
  - split; [done|]. intros v. destruct (Hex v) as (b & Hb & ->).
    apply list_elem_of_fmap in Hb as (l & -> & Hl).
    destruct (Hloc l Hl) as (r & _ & Hrl).
    destruct Hrl as (_ & _ & _ & _ & _ & _ & [_ V] & _). apply V.
  - intros Hs v. destruct (Hex v) as (b & Hb & ->).
    apply list_elem_of_fmap in Hb as (l & -> & Hl).
    destruct (Hloc l Hl) as (r & _ & Hrl).
    destruct Hrl as (_ & _ & _ & _ & _ & _ & _ & S & _). by apply S.
  - intros u e He.
    destruct (has_edge_range g u e Hwf He) as [Hu _].
    pose proof (Z.mod_pos_bound u P ltac:(lia)) as Hr.
    destruct (Forall2_elem_of_l _ _ _ (u mod P) HQ) as (l & Hl & Hrl).
    { apply elem_of_seqZ. lia. }
    destruct Hrl as (_ & _ & Hpart & _ & _ & _ & _ & _ & _ & Hprog & _).
    eapply dle_trans; [apply (Hle (distances l))|].
    { apply list_elem_of_fmap. eauto. }
    apply Hprog; [|done]. by eapply owner_in_partition.
  - intros Hm0%Z.eqb_eq. subst m. apply dget_ext; [done|].
    intros v. destruct (Hex v) as (b & Hb & ->).
    apply list_elem_of_fmap in Hb as (l & -> & Hl).
    destruct (Hloc l Hl) as (r & _ & Hrl).
    destruct Hrl as (_ & _ & _ & _ & _ & _ & _ & _ & C & _).
    rewrite C; [done|].
    assert (localFlag l ≤ 0) as Hf.
    { apply Hub, list_elem_of_fmap. eauto. }
    unfold localFlag in Hf. destruct (localChanged l); [lia | done].
  - intros Hs Hlb. apply Z.eqb_eq.
    apply list_elem_of_fmap in Hin as (l & -> & Hl).
    destruct (Hloc l Hl) as (r & _ & Hrl).
    destruct Hrl as (_ & _ & _ & _ & _ & _ & _ & _ & _ & _ & U).
    unfold localFlag. by rewrite U.
Qed.

(** *** The loop test on a cohort in step *)

Lemma loop_test_synced d it ex ic ws w :
  synced g P d it ex ic ws → w ∈ ws →
  loop_test w = negb ex && (it <? nodeCount g).
Proof.
  intros Hs Hw. destruct (Forall2_elem_of_r _ _ _ _ Hs Hw) as (r & _ & Hrw).
  destruct Hrw as (_ & Hg & _ & _ & Hit & Hex & _).
  unfold loop_test, maxIterations, getNodeCount. by rewrite Hg, Hit, Hex.
Qed.

Lemma synced_nonempty d it ex ic ws : synced g P d it ex ic ws → ws ≠ [].
Proof. intros Hs. eapply Forall2_nonempty; [exact Hs | by apply seqZ_nonempty]. Qed.

Lemma synced_all d it ex ic ws w :
  synced g P d it ex ic ws → w ∈ ws →
  graph w = g ∧ distances w = d ∧ iteration w = it ∧ exited w = ex ∧
  iterationsCompleted w = ic.
Proof.
  intros Hs Hw. destruct (Forall2_elem_of_r _ _ _ _ Hs Hw) as (r & _ & Hrw).
  by destruct Hrw as (_ & ? & _ & ? & ? & ? & ?).
Qed.

Lemma synced_Forall d it ex ic ws :
  synced g P d it ex ic ws → Forall (fun w => distances w = d) ws.
Proof.
  intros Hs. apply Forall_forall. intros w Hw. by eapply synced_all.
Qed.

Lemma synced_head d it ex ic ws :
  synced g P d it ex ic ws → ∃ w0, head ws = Some w0 ∧ in_step g P d it ex ic 0 w0.
Proof.
  intros Hs. unfold synced in Hs.
  assert (E : seqZ 0 P = 0 :: seqZ 1 (P - 1)).
  { rewrite (seqZ_cons 0 P) by lia. reflexivity. }
  rewrite E in Hs. apply Forall2_cons_inv_l in Hs as (w0 & ws' & H0 & _ & ->).
  exists w0. done.
Qed.

Lemma loop_enter d it ic ws :
  synced g P d it false ic ws → it < nodeCount g → forallb loop_test ws = true.
Proof.
  intros Hs Hit. apply forallb_forall. intros w Hw%list_elem_of_In.
  rewrite (loop_test_synced _ _ _ _ _ _ Hs Hw). simpl. by apply Z.ltb_lt.
Qed.

Lemma loop_leave d it ex ic ws :
  synced g P d it ex ic ws → ex = true ∨ nodeCount g ≤ it →
  forallb loop_test ws = false ∧ forallb (fun w => negb (loop_test w)) ws = true.
Proof.
  intros Hs Hex.
  assert (Hall : ∀ w, w ∈ ws → loop_test w = false).
  { intros w Hw. rewrite (loop_test_synced _ _ _ _ _ _ Hs Hw).
    destruct Hex as [-> | Hit]; [done|].
    destruct (Z.ltb_spec it (nodeCount g)); [lia|]. by rewrite andb_false_r. }
  split.
  - pose proof (synced_nonempty _ _ _ _ _ Hs) as Hne.
    destruct ws as [|w ws']; [done|]. simpl. rewrite Hall; [done | by left].
  - apply forallb_forall. intros w Hw%list_elem_of_In. by rewrite Hall.
Qed.

Lemma relaxation_loop_leave d it ex ic ws fuel :
  synced g P d it ex ic ws → ex = true ∨ nodeCount g ≤ it →
  relaxation_loop fuel ws = Some ws.
Proof.
  intros Hs Hex. destruct (loop_leave _ _ _ _ _ Hs Hex) as [E1 E2].
  destruct fuel; simpl; by rewrite E1, E2.
Qed.

(** *** The loop

    From a state in step after [k] supersteps, with [j] iterations left
    before the cap: the loop ends, in step, either through the exit flag
    (with an optimal vector) or at the cap; under a [shortcut] bound [m] it
    ends through the flag within [m + 1] supersteps. *)

Lemma loop_spec :
  ∀ (j : nat) (k : Z) d ws fuel,
    0 ≤ k → k + Z.of_nat j = nodeCount g → (j ≤ fuel)%nat →
    synced g P d k false k ws → length d = Z.to_nat (nodeCount g) →
    sound g s d → bounded g s (Z.to_nat k) d →
    ∃ ws' d' it (ex : bool),
      relaxation_loop fuel ws = Some ws' ∧
      synced g P d' it ex (if ex then it + 1 else it) ws' ∧
      length d' = Z.to_nat (nodeCount g) ∧ sound g s d' ∧ vle d' d ∧ k ≤ it ∧
      (if ex then it < nodeCount g ∧ lower_bound g s d'
       else it = nodeCount g ∧ bounded g s (Z.to_nat it) d') ∧
      (∀ m, shortcut g s m → (Z.to_nat k ≤ m)%nat → Z.of_nat m < nodeCount g →
            ex = true ∧ it ≤ Z.of_nat m) ∧
      (ex = true → it = k → d' = d).
Proof.
  induction j as [|j IH]; intros k d ws fuel Hk Hkj Hfuel Hs Hlen Hsd Hb.
  - exists ws, d, k, false. split_and!; [| done | done | done | | lia | lia | done | | done].
    + eapply relaxation_loop_leave; [exact Hs | right; lia].
    + apply vle_refl.
    + intros m _ ? ?. lia.
  - destruct fuel as [|fuel]; [lia|]. simpl.
    rewrite (loop_enter _ _ _ _ Hs) by lia.
    destruct (superstep_spec d k k ws Hlen Hs)
      as (ws1 & d1 & ex1 & -> & Hs1 & V1 & S1 & P1 & E1 & O1).
    simpl. destruct ex1.
    + rewrite (E1 eq_refl) in *.
      exists ws1, d, k, true. split_and!; [| done | done | done | done | lia | lia | | | done].
      * eapply relaxation_loop_leave; [exact Hs1 | by left].
      * apply relaxed_lower_bound; [exact P1|].
        eapply bounded_mono; [|exact Hb]. lia.
      * intros m _ ? ?. split; [done | lia].
    + assert (Hb1 : bounded g s (Z.to_nat (k + 1)) d1).
      { replace (Z.to_nat (k + 1)) with (S (Z.to_nat k)) by lia.
        by eapply bounded_step. }
      destruct (IH (k + 1) d1 ws1 fuel) as (ws' & d' & it & ex & Hl & Hs' & L' & S' & V' & K' & F' & M' & _);
        try done; try lia.
      { destruct V1 as [-> _]. done. }
      { by apply S1. }
      exists ws', d', it, ex. split_and!; [done | done | done | done | | lia | done | | ].
      * by eapply vle_trans.
      * intros m Hsc Hkm Hmn.
        destruct (decide (Z.to_nat k = m)) as [<-|Hne].
        -- pose proof (O1 Hsd (bounded_shortcut _ _ _ _ Hsc Hb)). done.
        -- apply M'; [done | lia | done].
      * intros _ ?. lia.
Qed.

(** *** INIT *)

Lemma init_worker_spec r :
  0 ≤ r < P →
  ∃ w, init_worker P s (r, g) = Some w ∧ after_init g s P r w.
Proof.
  intros Hr. pose proof Hwf as (Hn & _).
  destruct (getRoundRobinPartition_spec g r P HP Hr) as (part & Hpart & _ & Hin).
  unfold init_worker, getNodeCount. rewrite Hpart. simpl.
  destruct (Z.ltb_spec (nodeCount g) 0); [lia|].
  set (ds := replicate (Z.to_nat (nodeCount g)) infinity).
  assert (Hlen : length ds = Z.to_nat (nodeCount g)) by apply length_replicate.
  destruct (decide (s ∈ part)) as [Hs|Hs].
  - rewrite bool_decide_eq_true_2 by done.
    apply Hin in Hs as [Hs Ho].
    assert (Hs' : 0 ≤ s < Z.of_nat (length ds)) by lia.
    destruct (vset_is_Some ds s zero Hs') as [ds' E]. rewrite E. simpl.
    apply vset_Some in E as [_ ->].
    eexists. split; [done|]. unfold after_init. simpl.
    split_and!; try done.
    + by rewrite length_insert.
    + intros v. rewrite dget_insert by done. destruct (decide (v = s)) as [->|].
      * right. done.
      * left. apply dget_replicate.
    + intros _ _. rewrite dget_insert by done. by rewrite decide_True.
  - rewrite bool_decide_eq_false_2 by done. simpl.
    eexists. split; [done|]. unfold after_init. simpl.
    split_and!; try done.
    + intros v. left. apply dget_replicate.
    + intros -> Hs'. exfalso. apply Hs. by eapply owner_in_partition.
Qed.

Lemma init_cohort_spec :
  ∃ ws d, init_cohort P s (replicate_graph P g) = Some ws ∧
    synced g P d 0 false 0 ws ∧ length d = Z.to_nat (nodeCount g) ∧
    sound g s d ∧ bounded g s 0 d ∧
    (∀ v, dget d v = PInf ∨ (v = s ∧ 0 ≤ s < nodeCount g ∧ dget d v = zero)) ∧
    (0 ≤ s < nodeCount g → dget d s = zero).
Proof.
  destruct (mapM_Forall2 (init_worker P s) _ _ (after_init g s P) _ _
              (ranks_in_range P) (Forall2_fmap_self (fun r => (r, g)) (seqZ 0 P)))
    as (ws0 & Hm & HQ).
  { intros r rg Hr ->. by apply init_worker_spec. }
  assert (Hloc : ∀ w, w ∈ ws0 → ∃ r, 0 ≤ r < P ∧ after_init g s P r w).
  { intros w Hw. destruct (Forall2_elem_of_r _ _ _ _ HQ Hw) as (r & Hr & Hrw).
    exists r. split; [|done]. apply elem_of_seqZ in Hr. lia. }
  assert (Hne : ws0 ≠ []).
  { eapply Forall2_nonempty; [exact HQ | by apply seqZ_nonempty]. }
  destruct (allreduce_min_spec (distances <$> ws0) (Z.to_nat (nodeCount g)))
    as (d & Hd & Hl & Hle & Hex).
  { by destruct ws0. }
  { apply Forall_fmap, Forall_forall. intros w Hw.
    destruct (Hloc w Hw) as (r & _ & Hrw). simpl.
    by destruct Hrw as (_ & _ & _ & _ & _ & _ & ? & _). }
  assert (Hval : ∀ v, dget d v = PInf ∨ (v = s ∧ 0 ≤ s < nodeCount g ∧ dget d v = zero)).
  { intros v. destruct (Hex v) as (b & Hb & ->).
    apply list_elem_of_fmap in Hb as (w & -> & Hw).
    destruct (Hloc w Hw) as (r & _ & Hrw).
    destruct Hrw as (_ & _ & _ & _ & _ & _ & _ & V & _). apply V. }
  assert (Hsrc : 0 ≤ s < nodeCount g → dget d s = zero).
  { intros Hs. pose proof (Z.mod_pos_bound s P ltac:(lia)) as Hr.
    destruct (Forall2_elem_of_l _ _ _ (s mod P) HQ) as (w & Hw & Hrw).
    { apply elem_of_seqZ. lia. }
    destruct Hrw as (_ & _ & _ & _ & _ & _ & _ & _ & Z0).
    assert (Hz : dle (dget d s) zero).
    { rewrite <- (Z0 eq_refl Hs). apply Hle, list_elem_of_fmap. eauto. }
    destruct (Hval s) as [E | (_ & _ & E)]; [|done]. by rewrite E in Hz. }
  exists (set_distances d <$> ws0), d.
  split_and!; [ | | done | | | done | done].
  - unfold init_cohort, replicate_graph. rewrite Hm. simpl.
    unfold init_sync. by rewrite Hd.
  - unfold synced. apply Forall2_fmap_r.
    eapply Forall2_impl; [exact HQ|]. intros r w Hrw.
    destruct Hrw as (? & ? & ? & ? & ? & ? & _).
    unfold in_step, set_distances. simpl. done.
  - intros v. destruct (Hval v) as [E | (-> & Hs & E)]; [by left | right].
    exists []. split; [by constructor | by rewrite E].
  - intros v es Hw Hlen. destruct es; [|simpl in Hlen; lia].
    pose proof (walk_start_range _ _ _ _ Hw) as Hs.
    apply walk_nil_inv in Hw as ->.
    rewrite (Hsrc Hs). auto with dbl.
Qed.

(** *** INIT and the loop *)

Lemma loop_fuel_synced d it ex ic ws :
  synced g P d it ex ic ws → (Z.to_nat (nodeCount g) ≤ loop_fuel ws)%nat.
Proof.
  intros Hs. unfold loop_fuel.
  destruct (Forall2_elem_of_l _ _ _ 0 Hs) as (w & Hw & Hrw).
  { apply elem_of_seqZ. lia. }
  destruct Hrw as (_ & Hg & _).
  assert (nodeCount g ≤ foldr Z.max 0 (maxIterations <$> ws)); [|lia].
  apply foldr_max_ge, list_elem_of_fmap. exists w. split; [|done].
  unfold maxIterations, getNodeCount. by rewrite Hg.
Qed.

(** INIT and the loop on a cohort of [P] replicas of [g]: the run is
    defined, the cohort ends in lock-step on one vector [d], after
    [it + 1] supersteps when it converged and [nodeCount] when it did not. *)
Lemma engine_spec :
  ∃ ws d it (ex : bool),
    engine P s (replicate_graph P g) = Some ws ∧
    synced g P d it ex (if ex then it + 1 else it) ws ∧
    length d = Z.to_nat (nodeCount g) ∧ sound g s d ∧ 0 ≤ it ∧
    (if ex then it < nodeCount g ∧ lower_bound g s d
     else it = nodeCount g ∧ bounded g s (Z.to_nat it) d) ∧
    (∀ m, shortcut g s m → Z.of_nat m < nodeCount g → ex = true ∧ it ≤ Z.of_nat m) ∧
    (∃ d0, init_sync_vector g s P d0 ∧ vle d d0 ∧ (ex = true → it = 0 → d = d0)).
Proof.
  destruct init_cohort_spec as (ws0 & d0 & Hi & Hs0 & Hl0 & Hsd0 & Hb0 & Hv0 & Hz0).
  pose proof Hwf as (Hn & _).
  destruct (loop_spec (Z.to_nat (nodeCount g)) 0 d0 ws0 (loop_fuel ws0))
    as (ws & d & it & ex & Hl & Hs & Hlen & Hsd & V & Hit & F & M & D); try done; try lia.
  { by eapply loop_fuel_synced. }
  exists ws, d, it, ex. split_and!; try done.
  - unfold engine. by rewrite Hi.
  - intros m Hsc Hm. apply M; [done | lia | done].
  - exists d0. split_and!; [by split_and! | done | done].
Qed.

(** *** The states along the loop *)

Lemma loop_prefix_leave d it ex ic ws k :
  synced g P d it ex ic ws → ex = true ∨ nodeCount g ≤ it →
  loop_prefix k ws = Some ws.
Proof.
  intros Hs Hex. destruct (loop_leave _ _ _ _ _ Hs Hex) as [E1 _].
  destruct k; simpl; [done | by rewrite E1].
Qed.

Lemma loop_prefix_spec :
  ∀ k ws d it,
    synced g P d it false it ws → 0 ≤ it → length d = Z.to_nat (nodeCount g) →
    sound g s d →
    ∃ ws' d' it' (ex : bool),
      loop_prefix k ws = Some ws' ∧
      synced g P d' it' ex (if ex then it' + 1 else it') ws' ∧
      length d' = Z.to_nat (nodeCount g) ∧ sound g s d' ∧ vle d' d ∧ it ≤ it'.
Proof.
  induction k as [|k IH]; intros ws d it Hs Hit Hlen Hsd.
  - exists ws, d, it, false. split_and!; [done | done | done | done | apply vle_refl | lia].
  - destruct (decide (it < nodeCount g)) as [Hlt|Hge].
    + simpl. rewrite (loop_enter _ _ _ _ Hs Hlt).
      destruct (superstep_spec d it it ws Hlen Hs)
        as (ws1 & d1 & ex1 & -> & Hs1 & V1 & S1 & _).
      simpl. destruct ex1.
      * exists ws1, d1, it, true.
        split_and!; [ | done | by destruct V1 as [-> _] | by apply S1 | done | lia].
        eapply loop_prefix_leave; [exact Hs1 | by left].
      * destruct (IH ws1 d1 (it + 1)) as (ws' & d' & it' & ex & Hl & Hs' & L' & S' & V' & K');
          [done | lia | by destruct V1 as [-> _] | by apply S1 |].
        exists ws', d', it', ex.
        split_and!; [done | done | done | done | by eapply vle_trans | lia].
    + exists ws, d, it, false.
      split_and!; [ | done | done | done | apply vle_refl | lia].
      eapply loop_prefix_leave; [exact Hs | right; lia].
Qed.

(** *** Statistics *)

(** The three reductions on a cohort in lock-step: the maximum of the
    superstep counts is the common count. *)
Lemma gather_statistics_synced d it ex ic ws :
  synced g P d it ex ic ws →
  gather_statistics ws =
    Some (mkSummary (foldr Z.add 0 (edgesRelaxed <$> ws))
                    (foldr Z.add 0 (localUpdates <$> ws)) ic).
Proof.
  intros Hs. pose proof (synced_nonempty _ _ _ _ _ Hs) as Hne.
  unfold gather_statistics.
  rewrite !reduce_sum_spec by (by destruct ws). simpl.
  assert (Hmax : reduce_max (iterationsCompleted <$> ws) = Some ic).
  { destruct ws as [|w ws']; [done|]. simpl. f_equal. apply foldl_max_const.
    - by eapply synced_all; [exact Hs | left].
    - intros y Hy. apply list_elem_of_fmap in Hy as (w' & -> & Hw').
      by eapply synced_all; [exact Hs | right]. }
  by rewrite Hmax.
Qed.

End Cohort.

(** ** Shortest-path distances *)

(** A vector that is sound and a lower bound holds the shortest-path
    distances. *)
Lemma sound_lower_bound_shortest g s d t :
  sound g s d → lower_bound g s d → shortest_distance g s t (dget d t).
Proof.
  intros Hsd Hlb. split; [intros es Hw; by apply Hlb|].
  destruct (Hsd t) as [E | (es & Hw & E)]; [by left | right; eauto].
Qed.

(** Two shortest-path distances of the same pair are numerically equal. *)
Lemma shortest_distance_unique g s t a b :
  shortest_distance g s t a → shortest_distance g s t b → deq a b.
Proof.
  intros [La Aa] [Lb Ab]. split.
  - destruct Ab as [-> | (es & Hw & <-)]; [auto with dbl | by apply La].
  - destruct Aa as [-> | (es & Hw & <-)]; [auto with dbl | by apply Lb].
Qed.

(** ** The entry point on a cohort that loads one graph *)

Lemma main_loaded P fs dur prog file a2 a3 rest s t g :
  atoi a2 = Some s → atoi a3 = Some t →
  (∀ r, 0 ≤ r < P → loadFromFile (fs r) file Graph_default = Ok (true, g)) →
  main P fs dur (prog :: file :: a2 :: a3 :: rest) =
    match ws ← engine P s (replicate_graph P g);
          sm ← gather_statistics ws;
          w0 ← head ws;
          report P s t dur w0 sm with
    | Some out => Exited 0 out
    | None => Erroneous
    end.
Proof.
  intros Hs Ht Hload. unfold main. rewrite Hs, Ht.
  assert (Hr : ∀ r, r ∈ seqZ 0 P → loadFromFile (fs r) file Graph_default = Ok (true, g)).
  { intros r Hr. apply Hload. apply elem_of_seqZ in Hr. lia. }
  rewrite !existsb_fmap_false; try (intros r Hr'; simpl; by rewrite (Hr r Hr')).
  assert (Hm : mapM loaded_graph
                 ((fun r => (r, loadFromFile (fs r) file Graph_default)) <$> seqZ 0 P)
               = Some (replicate_graph P g)).
  { apply mapM_Some. unfold replicate_graph.
    apply Forall2_fmap. apply Forall_Forall2_diag, Forall_forall.
    intros r Hr'. unfold loaded_graph. simpl. by rewrite (Hr r Hr'). }
  rewrite Hm. simpl. unfold engine, finish.
  destruct (init_cohort P s (replicate_graph P g)) as [ws0|]; [|done]. simpl.
  by destruct (relaxation_loop (loop_fuel ws0) ws0).
Qed.

Lemma report_fields P s t dur w sm out :
  report P s t dur w sm = Some out →
  ∃ finalDist, vget (distances w) t = Some finalDist ∧
    reported_distance out = Some finalDist ∧
    reported_iterations out = Some (maxIterations_global sm).
Proof.
  unfold report. destruct (vget (distances w) t) as [finalDist|]; [|done].
  simpl. intros [= <-]. exists finalDist. split_and!; done.
Qed.

(** The run of [main] on a cohort whose ranks all load [g], with the
    destination a node of [g]: it ends normally, and the report shows entry
    [t] of the final vector and the common superstep count. *)
Lemma main_spec P fs dur prog file a2 a3 rest s t g ws d it ex ic :
  1 ≤ P → atoi a2 = Some s → atoi a3 = Some t →
  (∀ r, 0 ≤ r < P → loadFromFile (fs r) file Graph_default = Ok (true, g)) →
  0 ≤ t < nodeCount g →
  engine P s (replicate_graph P g) = Some ws →
  synced g P d it ex ic ws → length d = Z.to_nat (nodeCount g) →
  ∃ out,
    main P fs dur (prog :: file :: a2 :: a3 :: rest) = Exited 0 out ∧
    reported_distance out = Some (dget d t) ∧
    reported_iterations out = Some ic.
Proof.
  intros HP Hs Ht Hload Hrange He Hsy Hlen.
  destruct (synced_head _ _ HP _ _ _ _ _ Hsy) as (w0 & Hw0 & H0).
  destruct H0 as (_ & _ & _ & Hd & _).
  rewrite (main_loaded P fs dur prog file a2 a3 rest s t g Hs Ht Hload).
  rewrite He. simpl. rewrite (gather_statistics_synced _ _ HP _ _ _ _ _ Hsy). simpl.
  rewrite Hw0. simpl.
  destruct (report P s t dur w0 _) as [out|] eqn:Er.
  - apply report_fields in Er as (fd & Hfd & Hrd & Hri). simpl in Hri.
    exists out. split_and!; try done.
    rewrite Hd in Hfd. by rewrite (dget_vget _ _ _ Hfd).
  - exfalso. unfold report in Er. rewrite Hd in Er.
    rewrite vget_dget in Er by lia. done.
Qed.

Lemma loaded_wf P fs file g :
  1 ≤ P →
  (∀ r, 0 ≤ r < P → loadFromFile (fs r) file Graph_default = Ok (true, g)) →
  Graph_wf g.
Proof. intros HP Hload. eapply (loadFromFile_wf (fs 0)). apply Hload. lia. Qed.

(** ** Monotonicity across supersteps *)

Lemma loop_prefix_S k : ∀ ws,
  loop_prefix (S k) ws =
    ws' ← loop_prefix k ws; if forallb loop_test ws' then superstep ws' else Some ws'.
Proof.
  induction k as [|k IH]; intros ws.
  - simpl. destruct (forallb loop_test ws); [|done]. by destruct (superstep ws).
  - change (loop_prefix (S (S k)) ws)
      with (if forallb loop_test ws then ws' ← superstep ws; loop_prefix (S k) ws'
            else Some ws).
    change (loop_prefix (S k) ws)
      with (if forallb loop_test ws then ws' ← superstep ws; loop_prefix k ws'
            else Some ws).
    destruct (forallb loop_test ws) eqn:E; simpl; [|by rewrite E].
    destruct (superstep ws) as [ws1|]; simpl; [apply IH | done].
Qed.

(** The state in which the loop ends is the state after [fuel] supersteps. *)
Lemma relaxation_loop_prefix fuel : ∀ ws ws',
  relaxation_loop fuel ws = Some ws' →
  loop_prefix fuel ws = Some ws' ∧ forallb loop_test ws' = false.
Proof.
  induction fuel as [|fuel IH]; intros ws ws'; simpl.
  - destruct (forallb loop_test ws) eqn:E; [done|].
    destruct (forallb (fun w => negb (loop_test w)) ws); [|done]. by intros [= <-].
  - destruct (forallb loop_test ws) eqn:E.
    + destruct (superstep ws) as [ws1|]; simpl; [apply IH | done].
    + destruct (forallb (fun w => negb (loop_test w)) ws); [|done]. by intros [= <-].
Qed.

(** C3. Take the states of the cohort after k and after k+1 supersteps of
    the loop (the same state when the loop has ended before). Every rank
    holds the same vector in each; the entry of every node after the
    superstep's global minimum reduction is at most its entry before; with
    non-negative weights the entry of the source, 0 after INIT, is 0 in both;
    a node that no walk from the source reaches holds +infinity in both. *)
Theorem C3_distances_monotone (g : Graph) (s P : Z) (k : nat) :
  Graph_wf g → 1 ≤ P →
  ∃ ws0 ws ws' d d',
    init_cohort P s (replicate_graph P g) = Some ws0 ∧
    loop_prefix k ws0 = Some ws ∧
    loop_prefix (S k) ws0 = Some ws' ∧
    Forall (fun w => distances w = d) ws ∧
    Forall (fun w => distances w = d') ws' ∧
    (∀ n, 0 ≤ n < nodeCount g →
       ∃ a b, vget d n = Some a ∧ vget d' n = Some b ∧ dle b a) ∧
    (nonneg_weights g → 0 ≤ s < nodeCount g →
       vget d s = Some zero ∧ vget d' s = Some zero) ∧
    (∀ n, 0 ≤ n < nodeCount g → ¬ reachable g s n →
       vget d n = Some PInf ∧ vget d' n = Some PInf).
Proof.
  intros Hwf HP.
  destruct (init_cohort_spec g s P Hwf HP)
    as (ws0 & d0 & Hi & Hs0 & Hl0 & Hsd0 & _ & _ & Hz0).
  destruct (loop_prefix_spec g s P Hwf HP k ws0 d0 0 Hs0 ltac:(lia) Hl0 Hsd0)
    as (ws & d & it & ex & Hl & Hs & Hlen & Hsd & V & Hit).
  assert (Hnext : ∃ ws' d' it' (ex' : bool) ic',
            loop_prefix (S k) ws0 = Some ws' ∧ synced g P d' it' ex' ic' ws' ∧
            length d' = Z.to_nat (nodeCount g) ∧ sound g s d' ∧ vle d' d).
  { rewrite loop_prefix_S, Hl. simpl.
    destruct (decide (ex = true ∨ nodeCount g ≤ it)) as [Hstop|Hgo].
    - destruct (loop_leave _ _ HP _ _ _ _ _ Hs Hstop) as [-> _].
      eexists ws, d, it, ex, _. split_and!; [done | exact Hs | done | done | apply vle_refl].
    - assert (ex = false) as -> by (destruct ex; tauto). simpl in Hs.
      rewrite (loop_enter _ _ _ _ _ _ Hs) by lia.
      destruct (superstep_spec g s P Hwf HP d it it ws Hlen Hs)
        as (ws' & d' & ex' & Hss & Hs' & V' & S' & _).
      eexists ws', d', _, ex', _.
      split_and!; [done | exact Hs' | by destruct V' as [-> _] | by apply S' | done]. }
  destruct Hnext as (ws' & d' & it' & ex' & ic' & Hl' & Hs' & Hlen' & Hsd' & V').
  exists ws0, ws, ws', d, d'.
  split_and!; [done | done | done | by eapply synced_Forall | by eapply synced_Forall | | |].
  - intros n Hn. exists (dget d n), (dget d' n).
    split_and!; [apply vget_dget; lia | apply vget_dget; lia | by apply vle_dle].
  - intros Hnn Hsr. rewrite !vget_dget by lia.
    assert (dget d s = zero) as -> by (eapply source_stays_zero; eauto).
    assert (dget d' s = zero) as ->; [|done].
    eapply source_stays_zero; [done | done | | by apply Hz0]. by eapply vle_trans.
  - intros n Hn Hnr. rewrite !vget_dget by lia.
    by rewrite (unreached_infinite g s d n), (unreached_infinite g s d' n).
Qed.

Lemma C3_distances_monotone_witness :
  ∃ ws0 ws ws' d d',
    init_cohort 2 0 (replicate_graph 2 (load_graph chain4_file)) = Some ws0 ∧
    loop_prefix 1 ws0 = Some ws ∧
    loop_prefix 2 ws0 = Some ws' ∧
    Forall (fun w => distances w = d) ws ∧
    Forall (fun w => distances w = d') ws' ∧
    vget d 0 = Some zero ∧ vget d' 0 = Some zero.
Proof.
  destruct (C3_distances_monotone (load_graph chain4_file) 0 2 1)
    as (ws0 & ws & ws' & d & d' & H1 & H2 & H3 & H4 & H5 & _ & H6 & _).
  - apply (bool_decide_unpack _). by vm_compute.
  - lia.
  - exists ws0, ws, ws', d, d'. split_and!; [done | done | done | done | done | |];
      apply H6; try (apply (bool_decide_unpack _); by vm_compute);
      vm_compute; (split; [discriminate | reflexivity]).
Defined.

(** ** Lock-step and statistics *)

(** The flag that ends the loop is the maximum of the flags of all ranks:
    after a superstep every rank has [exited] set, or none has, and it is
    set exactly when no rank changed a distance. *)
Lemma superstep_flag ws ws' : superstep ws = Some ws' → flag_is_global ws'.
Proof.
  unfold superstep. intros H.
  destruct (mapM local_phase ws) as [locals|]; [|done]. simpl in H.
  destruct (allreduce_min (distances <$> locals)) as [global|]; [|done]. simpl in H.
  destruct (reduce_max (localFlag <$> locals)) as [m|] eqn:Em; [|done]. simpl in H.
  injection H as <-.
  assert (Hne : localFlag <$> locals ≠ []) by (intros E; by rewrite E in Em).
  destruct (reduce_max_spec _ Hne) as (m' & Em' & Hub & Hin).
  rewrite Em in Em'. injection Em' as <-.
  exists (m =? 0). split.
  - apply Forall_fmap, Forall_forall. intros l _. reflexivity.
  - rewrite Forall_fmap, Forall_forall. split.
    + intros Hm%Z.eqb_eq l Hl. simpl.
      assert (Hf : localFlag l ≤ m) by (apply Hub, list_elem_of_fmap; eauto).
      unfold localFlag in Hf. destruct (localChanged l); [lia | done].
    + intros Hall. apply Z.eqb_eq.
      apply list_elem_of_fmap in Hin as (l & -> & Hl).
      specialize (Hall l Hl). simpl in Hall. unfold localFlag. by rewrite Hall.
Qed.

Lemma last_cons_default {A} (a x : A) (l : list A) :
  default a (last (x :: l)) = default x (last l).
Proof.
  destruct l as [|y l]; [done|]. change (last (x :: y :: l)) with (last (y :: l)).
  destruct (last (y :: l)) eqn:E; [done|]. by apply last_None in E.
Qed.

(** The loop as the sequence of its supersteps: from a cohort in step at
    iteration [k], with [j] iterations left. *)
Lemma loop_trace (g : Graph) (s P : Z) :
  Graph_wf g → 1 ≤ P →
  ∀ (j : nat) (k : Z) d ws fuel,
    0 ≤ k → k + Z.of_nat j = nodeCount g → (j ≤ fuel)%nat →
    synced g P d k false k ws → length d = Z.to_nat (nodeCount g) →
    ∃ trace ws' d' it (ex : bool),
      relaxation_loop fuel ws = Some ws' ∧
      supersteps_from ws trace ∧ ws' = default ws (last trace) ∧
      synced g P d' it ex (k + Z.of_nat (length trace)) ws' ∧
      Forall (fun w => loop_test w = false) ws' ∧
      Forall flag_is_global trace ∧
      (∀ i wsi, trace !! i = Some wsi →
         Forall (fun w => iterationsCompleted w = k + Z.of_nat (S i)) wsi).
Proof.
  intros Hwf HP.
  assert (Hleft : ∀ d it ex ic ws, synced g P d it ex ic ws →
            ex = true ∨ nodeCount g ≤ it → Forall (fun w => loop_test w = false) ws).
  { intros d it ex ic ws Hs Hex. destruct (loop_leave g P HP d it ex ic ws Hs Hex) as [_ H].
    apply Forall_forall. intros w Hw. rewrite forallb_forall in H.
    specialize (H w). rewrite <- list_elem_of_In in H. specialize (H Hw).
    by destruct (loop_test w). }
  induction j as [|j IH]; intros k d ws fuel Hk Hkj Hfuel Hs Hlen.
  - exists [], ws, d, k, false. rewrite Z.add_0_r.
    split_and!; [| done | done | done | | constructor | by intros i wsi ?].
    + eapply relaxation_loop_leave; [exact HP | exact Hs | right; lia].
    + eapply Hleft; [exact Hs | right; lia].
  - destruct fuel as [|fuel]; [lia|].
    pose proof (loop_enter g P d k k ws Hs ltac:(lia)) as Henter.
    destruct (superstep_spec g s P Hwf HP d k k ws Hlen Hs)
      as (ws1 & d1 & ex1 & Hstep & Hs1 & [Hlen1 _] & _).
    assert (Hin : Forall (fun w => loop_test w = true) ws).
    { apply Forall_forall. intros w Hw. rewrite forallb_forall in Henter.
      apply Henter. by apply list_elem_of_In. }
    assert (Hone : Forall (fun w => iterationsCompleted w = k + 1) ws1).
    { apply Forall_forall. intros w Hw.
      by destruct (synced_all g P _ _ _ _ _ _ Hs1 Hw) as (_ & _ & _ & _ & ?). }
    cbn [relaxation_loop]. rewrite Henter, Hstep. cbn [mbind option_bind].
    destruct ex1.
    + exists [ws1], ws1, d1, k, true.
      split_and!; [| done | done | | | |].
      * eapply relaxation_loop_leave; [exact HP | exact Hs1 | by left].
      * simpl. exact Hs1.
      * eapply Hleft; [exact Hs1 | by left].
      * constructor; [by eapply superstep_flag | constructor].
      * intros [|i] wsi Hi; simpl in Hi; [|done]. by simplify_eq.
    + destruct (IH (k + 1) d1 ws1 fuel) as (trace & ws' & d' & it & ex & Hl & Ht & Hlast & Hs' & Hout & Hflag & Hic);
        [lia | lia | lia | exact Hs1 | congruence |].
      exists (ws1 :: trace), ws', d', it, ex.
      split_and!; [done | done | by rewrite last_cons_default | | done | |].
      * replace (k + Z.of_nat (length (ws1 :: trace)))
          with (k + 1 + Z.of_nat (length trace)) by (simpl; lia). done.
      * constructor; [by eapply superstep_flag | done].
      * intros [|i] wsi Hi; simpl in Hi.
        -- simplify_eq. replace (k + Z.of_nat 1) with (k + 1) by lia. done.
        -- replace (k + Z.of_nat (S (S i))) with (k + 1 + Z.of_nat (S i)) by lia.
           by apply Hic.
Qed.

(** The three reductions of the statistics, on any cohort. *)
Lemma gather_statistics_spec ws :
  ws ≠ [] →
  ∃ sm, gather_statistics ws = Some sm ∧
    totalEdgesRelaxed sm = foldr Z.add 0 (edgesRelaxed <$> ws) ∧
    totalLocalUpdates sm = foldr Z.add 0 (localUpdates <$> ws) ∧
    (∀ w, w ∈ ws → iterationsCompleted w ≤ maxIterations_global sm) ∧
    (∃ w, w ∈ ws ∧ iterationsCompleted w = maxIterations_global sm).
Proof.
  intros Hne. unfold gather_statistics.
  rewrite !reduce_sum_spec by (by destruct ws). cbn [mbind option_bind].
  destruct (reduce_max_spec (iterationsCompleted <$> ws)) as (m & -> & Hub & Hin);
    [by destruct ws|]. cbn [mbind option_bind].
  eexists. split_and!; [done | done | done | |]; simpl.
  - intros w Hw. apply Hub, list_elem_of_fmap. eauto.
  - apply list_elem_of_fmap in Hin as (w & -> & Hw). eauto.
Qed.

(** C9. On a cohort of P >= 1 replicas of a well-formed graph the run is
    defined and is a sequence of supersteps that every rank enters and
    leaves together: after each one the ranks agree on the exit flag, which
    is set exactly when no rank changed a distance (the flag is reduced over
    all ranks), every rank has then completed the same number of supersteps,
    and all ranks are out of the loop after the last one. The summary holds
    the sums of edgesRelaxed and localUpdates over the ranks and, as the
    maximum of the superstep counts, the number of supersteps that were run.
    On any cohort the three reductions give the two sums and the greatest
    count of a rank. *)
Theorem C9_lockstep_statistics (g : Graph) (s P : Z) :
  Graph_wf g → 1 ≤ P →
  (∃ ws0 trace ws sm it (ex : bool),
     init_cohort P s (replicate_graph P g) = Some ws0 ∧
     engine P s (replicate_graph P g) = Some ws ∧
     supersteps_from ws0 trace ∧ ws = default ws0 (last trace) ∧
     Forall flag_is_global trace ∧
     (∀ i wsi, trace !! i = Some wsi →
        Forall (fun w => iterationsCompleted w = Z.of_nat (S i)) wsi) ∧
     Forall (fun w => loop_test w = false ∧ iteration w = it ∧ exited w = ex ∧
                      iterationsCompleted w = Z.of_nat (length trace)) ws ∧
     gather_statistics ws = Some sm ∧
     maxIterations_global sm = Z.of_nat (length trace) ∧
     totalEdgesRelaxed sm = foldr Z.add 0 (edgesRelaxed <$> ws) ∧
     totalLocalUpdates sm = foldr Z.add 0 (localUpdates <$> ws)) ∧
  (∀ ws' : list Worker, ws' ≠ [] →
     ∃ sm', gather_statistics ws' = Some sm' ∧
       totalEdgesRelaxed sm' = foldr Z.add 0 (edgesRelaxed <$> ws') ∧
       totalLocalUpdates sm' = foldr Z.add 0 (localUpdates <$> ws') ∧
       (∀ w, w ∈ ws' → iterationsCompleted w ≤ maxIterations_global sm') ∧
       (∃ w, w ∈ ws' ∧ iterationsCompleted w = maxIterations_global sm')).
Proof.
  intros Hwf HP. split; [|apply gather_statistics_spec].
  pose proof Hwf as (Hn & _).
  destruct (init_cohort_spec g s P Hwf HP) as (ws0 & d0 & Hi & Hs0 & Hlen0 & _).
  destruct (loop_trace g s P Hwf HP (Z.to_nat (nodeCount g)) 0 d0 ws0 (loop_fuel ws0))
    as (trace & ws & d & it & ex & Hl & Ht & Hlast & Hs & Hout & Hflag & Hic);
    [lia | lia | by eapply (loop_fuel_synced g P HP) | done | done |].
  rewrite Z.add_0_l in Hs.
  pose proof (gather_statistics_synced g P HP _ _ _ _ _ Hs) as Hsm.
  eexists ws0, trace, ws, _, it, ex.
  split_and!; [done | | done | done | done | | | exact Hsm | done | done | done].
  - unfold engine. by rewrite Hi.
  - intros i wsi Hi'. specialize (Hic i wsi Hi'). by rewrite Z.add_0_l in Hic.
  - apply Forall_forall. intros w Hw. rewrite Forall_forall in Hout.
    destruct (synced_all g P _ _ _ _ _ _ Hs Hw) as (_ & _ & ? & ? & ?).
    split_and!; [by apply Hout | done | done | done].
Qed.

Lemma C9_lockstep_statistics_witness :
  (∃ ws0 trace ws sm it (ex : bool),
     init_cohort 3 0 (replicate_graph 3 (load_graph chain4_file)) = Some ws0 ∧
     engine 3 0 (replicate_graph 3 (load_graph chain4_file)) = Some ws ∧
     supersteps_from ws0 trace ∧ ws = default ws0 (last trace) ∧
     Forall flag_is_global trace ∧
     (∀ i wsi, trace !! i = Some wsi →
        Forall (fun w => iterationsCompleted w = Z.of_nat (S i)) wsi) ∧
     Forall (fun w => loop_test w = false ∧ iteration w = it ∧ exited w = ex ∧
                      iterationsCompleted w = Z.of_nat (length trace)) ws ∧
     gather_statistics ws = Some sm ∧
     maxIterations_global sm = Z.of_nat (length trace) ∧
     totalEdgesRelaxed sm = foldr Z.add 0 (edgesRelaxed <$> ws) ∧
     totalLocalUpdates sm = foldr Z.add 0 (localUpdates <$> ws)) ∧
  (∀ ws' : list Worker, ws' ≠ [] →
     ∃ sm', gather_statistics ws' = Some sm' ∧
       totalEdgesRelaxed sm' = foldr Z.add 0 (edgesRelaxed <$> ws') ∧
       totalLocalUpdates sm' = foldr Z.add 0 (localUpdates <$> ws') ∧
       (∀ w, w ∈ ws' → iterationsCompleted w ≤ maxIterations_global sm') ∧
       (∃ w, w ∈ ws' ∧ iterationsCompleted w = maxIterations_global sm')).
Proof.
  apply (C9_lockstep_statistics (load_graph chain4_file) 0 3); [|lia].
  apply (bool_decide_unpack _). by vm_compute.
Defined.

(** ** The destination argument is not validated *)

(** C10. Whenever the destination given on the command line is not a node
    of the loaded graph, the run reaches the report with a cohort in good
    order, and the read of distances[destination] on rank 0 is outside the
    vector: no check intervenes, and the run is erroneous. *)
Theorem C10_destination_unchecked (P : Z) (fs : Z → FileSystem) (dur : Z)
    (prog file a2 a3 : string) (rest : list string) (s t : Z) (g : Graph) :
  1 ≤ P → atoi a2 = Some s → atoi a3 = Some t →
  (∀ r, 0 ≤ r < P → loadFromFile (fs r) file Graph_default = Ok (true, g)) →
  ¬ (0 ≤ t < nodeCount g) →
  ∃ ws sm w0,
    engine P s (replicate_graph P g) = Some ws ∧
    gather_statistics ws = Some sm ∧
    head ws = Some w0 ∧
    vget (distances w0) t = None ∧
    main P fs dur (prog :: file :: a2 :: a3 :: rest) = Erroneous.
Proof.
  intros HP Hs Ht Hload Hrange.
  assert (Hwf : Graph_wf g).
  { eapply (loadFromFile_wf (fs 0)). apply Hload. lia. }
  destruct (engine_spec g s P Hwf HP) as (ws & d & it & ex & He & Hsy & Hlen & _).
  destruct (synced_head _ _ HP _ _ _ _ _ Hsy) as (w0 & Hw0 & H0).
  destruct H0 as (_ & _ & _ & Hd & _).
  assert (Hoob : vget (distances w0) t = None).
  { apply vget_None. rewrite Hd, Hlen. destruct Hwf as (? & _). lia. }
  pose proof (gather_statistics_synced _ _ HP _ _ _ _ _ Hsy) as Hsm.
  eexists ws, _, w0. split_and!; [done | exact Hsm | done | done |].
  rewrite (main_loaded P fs dur prog file a2 a3 rest s t g Hs Ht Hload).
  rewrite He. simpl. rewrite (gather_statistics_synced _ _ HP _ _ _ _ _ Hsy). simpl.
  rewrite Hw0. simpl. unfold report. by rewrite Hoob.
Qed.

Lemma C10_destination_unchecked_witness :
  ∃ ws sm w0,
    engine 2 0 (replicate_graph 2 (load_graph chain4_file)) = Some ws ∧
    gather_statistics ws = Some sm ∧
    head ws = Some w0 ∧
    vget (distances w0) 9 = None ∧
    main 2 (shared_fs chain4_file) 0 ["prog"; "graph.txt"; "0"; "9"]%string = Erroneous.
Proof.
  apply (C10_destination_unchecked 2 (shared_fs chain4_file) 0
           "prog" "graph.txt" "0" "9" [] 0 9 (load_graph chain4_file));
    [lia | reflexivity | reflexivity | intros r _; reflexivity |].
  intros [_ H]. vm_compute in H. discriminate H.
Defined.

(** ** Loading *)

Lemma existsb_fmap_true {A B} (f : B → bool) (h : A → B) xs x :
  x ∈ xs → f (h x) = true → existsb f (h <$> xs) = true.
Proof.
  intros Hx Hf. apply existsb_exists. exists (h x). split; [|done].
  apply list_elem_of_In, list_elem_of_fmap. eauto.
Qed.

(** A load that returns [false] on one rank aborts the job, whatever the
    other ranks loaded. *)
Lemma main_aborts P fs dur prog file a2 a3 rest s t r :
  atoi a2 = Some s → atoi a3 = Some t →
  0 ≤ r < P → fs r file = None →
  main P fs dur (prog :: file :: a2 :: a3 :: rest) = Aborted 1.
Proof.
  intros Hs Ht Hr Hnone. unfold main. rewrite Hs, Ht.
  rewrite (existsb_fmap_true _ _ _ r); [done | apply elem_of_seqZ; lia |].
  simpl. unfold loadFromFile. by rewrite Hnone.
Qed.

(** C7 (as the code has it). Loading returns failure exactly when the file
    cannot be opened, whatever its header, and then leaves the graph object
    as it was; and when the load fails on any rank of the job, [main]
    aborts the whole cohort. *)
Theorem C7_load_fails_iff_unreadable :
  (∀ fs file g g',
     loadFromFile fs file g = Ok (false, g') ↔ fs file = None ∧ g' = g) ∧
  (∀ P fs dur prog file a2 a3 rest s t r g',
     atoi a2 = Some s → atoi a3 = Some t →
     0 ≤ r < P →
     loadFromFile (fs r) file Graph_default = Ok (false, g') →
     main P fs dur (prog :: file :: a2 :: a3 :: rest) = Aborted 1).
Proof.
  split; [apply loadFromFile_false|].
  intros P fs dur prog file a2 a3 rest s t r g' Hs Ht Hr Hfail.
  apply loadFromFile_false in Hfail as [Hnone _]. by eapply main_aborts.
Qed.

Lemma C7_load_fails_iff_unreadable_witness :
  main 2 (fun r => if r =? 1 then (fun _ => None) else shared_fs chain4_file 0) 0
    ["prog"; "graph.txt"; "0"; "3"]%string = Aborted 1.
Proof.
  apply (proj2 C7_load_fails_iff_unreadable 2 _ 0
           "prog"%string "graph.txt"%string "0"%string "3"%string [] 0 3 1 Graph_default);
    [reflexivity | reflexivity | lia | reflexivity].
Defined.

(** The claim as the specification states it fails: a readable file whose
    header is malformed loads with success. *)
Lemma C7_counterexample :
  ¬ (∀ fs file g,
       (∃ g', loadFromFile fs file g = Ok (false, g')) ↔
       (fs file = None ∨ ∃ contents, fs file = Some contents ∧ header_ok contents = false)).
Proof.
  intros H.
  destruct (proj2 (H (fun _ => Some bad_header_file) "graph.txt"%string Graph_default))
    as [g' Hg'].
  - right. exists bad_header_file. done.
  - vm_compute in Hg'. done.
Qed.

(** ** Chains *)

Lemma chain_node_range g c i u : unit_chain g c → c !! i = Some u → 0 ≤ u < nodeCount g.
Proof.
  intros (Hwf & _ & Hadj) Hi. specialize (Hadj i u Hi).
  unfold getAdjacencyList in Hadj.
  destruct (vget (nodes g) u) as [nd|] eqn:E; [|done].
  apply vget_range in E. destruct Hwf as (? & ? & _). lia.
Qed.

(** A walk from the head of the chain follows the chain. *)
Lemma chain_walk g c s v es :
  unit_chain g c → c !! 0%nat = Some s → walk g s v es → c !! length es = Some v.
Proof.
  intros Hc Hs. induction 1 as [|u es e Hw IH (adj & Hadj & Hin)]; [done|].
  destruct Hc as (_ & _ & Hc). rewrite (Hc _ _ IH) in Hadj.
  rewrite length_app. simpl. replace (length es + 1)%nat with (S (length es)) by lia.
  destruct (c !! S (length es)) as [v|]; simplify_eq.
  - by apply list_elem_of_singleton in Hin as ->.
  - by apply elem_of_nil in Hin.
Qed.

Lemma chain_shortcut g c s :
  unit_chain g c → c !! 0%nat = Some s → shortcut g s (length c - 1).
Proof.
  intros Hc Hs v es Hw. exists es. split_and!; [done | | auto with dbl].
  pose proof (chain_walk _ _ _ _ _ Hc Hs Hw) as Hl. apply lookup_lt_Some in Hl. lia.
Qed.

Lemma chain_length g c : unit_chain g c → Z.of_nat (length c) ≤ nodeCount g.
Proof.
  intros Hc. pose proof Hc as ((Hn & _) & Hnd & _).
  assert (Hlen : (length c ≤ length (seqZ 0 (nodeCount g)))%nat).
  { apply submseteq_length, NoDup_submseteq; [done|].
    intros u Hu. apply list_elem_of_lookup in Hu as [i Hi].
    apply elem_of_seqZ. pose proof (chain_node_range _ _ _ _ Hc Hi). lia. }
  rewrite length_seqZ in Hlen. lia.
Qed.

(** C4 (as the code has it). On a graph that contains a directed chain of k
    nodes with unit weights, from the head of the chain and with any
    P >= 1, the loop is left through the convergence flag, never through
    the iteration cap, after at most k supersteps; it takes at least two
    when the chain has an edge. *)
Theorem C4_chain_converges (g : Graph) (c : list Z) (s P : Z) :
  unit_chain g c → c !! 0%nat = Some s → 1 ≤ P →
  ∃ ws j,
    engine P s (replicate_graph P g) = Some ws ∧
    converged_after ws j ∧
    Z.min 2 (Z.of_nat (length c)) ≤ j ≤ Z.of_nat (length c).
Proof.
  intros Hc Hs HP. pose proof Hc as (Hwf & Hnd & Hadj).
  destruct (engine_spec g s P Hwf HP)
    as (ws & d & it & ex & He & Hsy & Hlen & Hsd & Hit & F & M & d0 & Hd0 & V & D).
  pose proof (lookup_lt_Some _ _ _ Hs) as Hpos.
  pose proof (chain_length _ _ Hc) as Hcn.
  destruct (M (length c - 1)%nat (chain_shortcut _ _ _ Hc Hs)) as [-> Hle]; [lia|].
  exists ws, (it + 1). split_and!; [done | | | lia].
  - apply Forall_forall. intros w Hw.
    by destruct (synced_all _ _ _ _ _ _ _ _ Hsy Hw) as (_ & _ & _ & ? & ?).
  - destruct (decide (it = 0)) as [->|]; [|lia].
    destruct (c !! 1%nat) as [c1|] eqn:E1.
    2:{ apply lookup_ge_None in E1. lia. }
    exfalso. rewrite (D eq_refl eq_refl) in F. destruct F as [_ Hlb].
    pose proof (chain_node_range _ _ _ _ Hc Hs) as Hsr.
    assert (Hw : walk g s c1 ([] ++ [mkEdge c1 (Fin 1)])).
    { apply (walk_snoc g s s [] (mkEdge c1 (Fin 1))); [by constructor|].
      eexists. split; [apply (Hadj _ _ Hs)|]. rewrite E1. by left. }
    specialize (Hlb _ _ Hw). destruct Hd0 as (_ & Hv & _).
    destruct (Hv c1) as [E | (-> & _)].
    + rewrite E in Hlb. done.
    + pose proof (NoDup_lookup _ _ _ _ Hnd Hs E1). done.
Qed.

Lemma chain4_unit_chain : unit_chain (load_graph chain4_file) [0; 1; 2; 3].
Proof.
  split_and!.
  - apply (bool_decide_unpack _). by vm_compute.
  - apply (bool_decide_unpack _). by vm_compute.
  - intros [|[|[|[|i]]]] u; simpl; intros [= <-]; reflexivity.
Qed.

Lemma C4_chain_converges_witness :
  ∃ ws j,
    engine 2 0 (replicate_graph 2 (load_graph chain4_file)) = Some ws ∧
    converged_after ws j ∧ Z.min 2 4 ≤ j ≤ 4.
Proof.
  apply (C4_chain_converges (load_graph chain4_file) [0; 1; 2; 3] 0 2);
    [apply chain4_unit_chain | reflexivity | lia].
Defined.

(** The claim as the specification states it fails on the chain
    0 -> 1 -> 2 -> 3 with one worker: the loop converges after two
    supersteps, not three. *)
Lemma C4_counterexample :
  ¬ (∀ g c s P,
       unit_chain g c → c !! 0%nat = Some s → 1 ≤ P →
       ∃ ws, engine P s (replicate_graph P g) = Some ws ∧
             converged_after ws (Z.of_nat (length c) - 1)).
Proof.
  intros H.
  destruct (H (load_graph chain4_file) [0; 1; 2; 3] 0 1 chain4_unit_chain eq_refl)
    as (ws & He & Hc); [lia|].
  vm_compute in He. injection He as <-.
  apply Forall_cons in Hc as [[_ Hc] _]. vm_compute in Hc. discriminate Hc.
Qed.

(** ** A single node *)

(** C5 (as the code has it). For a graph with a single node, source and
    destination 0 and non-negative weights: distance[0] is 0.0 on every rank
    right after INIT; the loop runs one superstep, which leaves the vector
    as it was, and is left through the convergence flag; the report shows
    the distance 0.0 and the iteration count 1. *)
Theorem C5_single_node (P : Z) (fs : Z → FileSystem) (dur : Z)
    (prog file a2 a3 : string) (rest : list string) (g : Graph) :
  1 ≤ P → atoi a2 = Some 0 → atoi a3 = Some 0 →
  (∀ r, 0 ≤ r < P → loadFromFile (fs r) file Graph_default = Ok (true, g)) →
  nodeCount g = 1 → nonneg_weights g →
  (∃ ws0, init_cohort P 0 (replicate_graph P g) = Some ws0 ∧
          Forall (fun w => vget (distances w) 0 = Some zero) ws0) ∧
  (∃ ws, engine P 0 (replicate_graph P g) = Some ws ∧
         converged_after ws 1 ∧
         Forall (fun w => vget (distances w) 0 = Some zero) ws) ∧
  (∃ out, main P fs dur (prog :: file :: a2 :: a3 :: rest) = Exited 0 out ∧
          reported_distance out = Some zero ∧
          reported_iterations out = Some 1).
Proof.
  intros HP Hs Ht Hload Hn Hnn.
  pose proof (loaded_wf P fs file g HP Hload) as Hwf.
  destruct (init_cohort_spec g 0 P Hwf HP)
    as (ws0 & d0 & Hi & Hs0 & Hl0 & _ & _ & _ & Hz0).
  destruct (engine_spec g 0 P Hwf HP)
    as (ws & d & it & ex & He & Hsy & Hlen & Hsd & Hit & F & M & d1 & Hd1 & V & D).
  destruct (M 0%nat) as [-> Hle]; [|lia|].
  { pose proof (nonneg_shortcut g 0 Hwf Hnn) as Hsc. by rewrite Hn in Hsc. }
  assert (it = 0) as -> by lia. simpl in Hsy.
  assert (Hd : dget d 0 = zero).
  { rewrite (D eq_refl eq_refl). destruct Hd1 as (_ & _ & Hz). apply Hz. lia. }
  split_and!.
  - exists ws0. split; [done|]. apply Forall_forall. intros w Hw.
    destruct (synced_all _ _ _ _ _ _ _ _ Hs0 Hw) as (_ & -> & _).
    rewrite vget_dget by lia. f_equal. apply Hz0. lia.
  - exists ws. split_and!; [done | |]; apply Forall_forall; intros w Hw;
      destruct (synced_all _ _ _ _ _ _ _ _ Hsy Hw) as (_ & Hdw & _ & ? & ?); [done|].
    rewrite Hdw, vget_dget by lia. by f_equal.
  - destruct (main_spec P fs dur prog file a2 a3 rest 0 0 g ws d 0 true 1)
      as (out & Hm & Hrd & Hri); try done; [lia|].
    exists out. by rewrite <- Hd.
Qed.

Lemma C5_single_node_witness :
  (∃ ws0, init_cohort 2 0 (replicate_graph 2 (load_graph single_node_file)) = Some ws0 ∧
          Forall (fun w => vget (distances w) 0 = Some zero) ws0) ∧
  (∃ ws, engine 2 0 (replicate_graph 2 (load_graph single_node_file)) = Some ws ∧
         converged_after ws 1 ∧
         Forall (fun w => vget (distances w) 0 = Some zero) ws) ∧
  (∃ out, main 2 (shared_fs single_node_file) 0 ["prog"; "graph.txt"; "0"; "0"]%string
            = Exited 0 out ∧
          reported_distance out = Some zero ∧
          reported_iterations out = Some 1).
Proof.
  apply (C5_single_node 2 (shared_fs single_node_file) 0 "prog" "graph.txt" "0" "0" []
           (load_graph single_node_file));
    [lia | reflexivity | reflexivity | intros r _; reflexivity | reflexivity |].
  apply (bool_decide_unpack _). by vm_compute.
Defined.

(** The claim as the specification states it fails on the single-node
    graph: the reported iteration count is 1, not 0. *)
Lemma C5_counterexample :
  ¬ (∀ P fs dur prog file a2 a3 rest g,
       1 ≤ P → atoi a2 = Some 0 → atoi a3 = Some 0 →
       (∀ r, 0 ≤ r < P → loadFromFile (fs r) file Graph_default = Ok (true, g)) →
       nodeCount g = 1 → nonneg_weights g →
       ∃ out, main P fs dur (prog :: file :: a2 :: a3 :: rest) = Exited 0 out ∧
              reported_distance out = Some zero ∧
              reported_iterations out = Some 0).
Proof.
  intros H.
  destruct (H 1 (shared_fs single_node_file) 0 "prog"%string "graph.txt"%string
              "0"%string "0"%string [] (load_graph single_node_file))
    as (out & Hm & _ & Hri);
    [lia | reflexivity | reflexivity | intros r _; reflexivity | reflexivity | |].
  { apply (bool_decide_unpack _). by vm_compute. }
  vm_compute in Hm. injection Hm as <-. vm_compute in Hri. discriminate Hri.
Qed.

(** ** No path *)






(** ** The model on the scenarios of the specification *)

Example round_robin_of_ten :
  getRoundRobinPartition (mkGraph [] 10 0) 1 3 = Some [1; 4; 7] ∧
  getRoundRobinPartition (mkGraph [] 10 0) 0 4 = Some [0; 4; 8] ∧
  getRoundRobinPartition (mkGraph [] 2 0) 3 4 = Some [].
Proof. by vm_compute. Qed.

Example load_drops_out_of_range_edge :
  loadFromFile (shared_fs [TInt 2; TInt 2; TInt 0; TInt 1; TDec (5 # 2);
                           TInt 1; TInt 2; TInt 1] 0) "graph.txt" Graph_default
  = Ok (true, mkGraph [Node.mk 0 zero zero [mkEdge 1 (Fin (5 # 2))];
                       Node.mk 1 zero zero []] 2 1).
Proof. by vm_compute. Qed.

Example load_outcomes :
  loadFromFile (shared_fs [] 0) "other.txt" Graph_default = Ok (false, Graph_default) ∧
  loadFromFile (shared_fs [] 0) "graph.txt" Graph_default = Undefined ∧
  loadFromFile (shared_fs [TInt (-1); TInt 0] 0) "graph.txt" Graph_default = Throws ∧
  loadFromFile (shared_fs [TInt 2; TInt 1; TInt 0] 0) "graph.txt" Graph_default
    = Undefined.
Proof. by vm_compute. Qed.

(** Scenario A: the distance from 0 to 4 is 4.0 for every worker count
    tried; the number of supersteps depends on it. *)
Example scenario_a :
  scraped (main 1 (shared_fs scenario_a_file) 0 ["bsp"; "graph.txt"; "0"; "4"]%string)
    = Some (Some (Fin 4), Some 2) ∧
  scraped (main 2 (shared_fs scenario_a_file) 0 ["bsp"; "graph.txt"; "0"; "4"]%string)
    = Some (Some (Fin 4), Some 5) ∧
  scraped (main 3 (shared_fs scenario_a_file) 0 ["bsp"; "graph.txt"; "0"; "4"]%string)
    = Some (Some (Fin 4), Some 5) ∧
  scraped (main 5 (shared_fs scenario_a_file) 0 ["bsp"; "graph.txt"; "0"; "4"]%string)
    = Some (Some (Fin 4), Some 5) ∧
  totalDistance <$> sequentialDijkstra (PQ := list PQElement)
                      (load_graph scenario_a_file) 0 4 = Some (Fin 4).
Proof. by vm_compute. Qed.

(** Scenario B, scenario C and a missing argument. *)
Example scenarios_b_c :
  scraped (main 2 (shared_fs two_components_file) 0 ["bsp"; "graph.txt"; "0"; "3"]%string)
    = Some (Some PInf, Some 2) ∧
  scraped (main 4 (shared_fs single_node_file) 0 ["bsp"; "graph.txt"; "0"; "0"]%string)
    = Some (Some zero, Some 1) ∧
  main 4 (shared_fs single_node_file) 0 ["bsp"; "graph.txt"; "0"]%string
    = Exited 1 [Str "Usage: mpirun -np N "; Str "bsp";
                Str (" graph.txt source dest" ++ nl)].
Proof. by vm_compute. Qed.

(** ** Contiguous partitioning *)

Lemma quot_rem_nonneg n P :
  1 ≤ P → 0 ≤ n →
  0 ≤ Z.quot n P ∧ 0 ≤ Z.rem n P < P ∧ n = P * Z.quot n P + Z.rem n P.
Proof.
  intros HP Hn. split_and!.
  - apply Z.quot_pos; lia.
  - apply Z.rem_bound_pos; lia.
  - apply Z.rem_bound_pos; lia.
  - apply Z.quot_rem'.
Qed.

(** The block of rank [r] starts where the block of rank [r - 1] ends. *)
Lemma contiguous_block g r P :
  P ≠ 0 →
  getContiguousPartition g r P =
    Some (seqZ (r * Z.quot (nodeCount g) P + Z.min r (Z.rem (nodeCount g) P))
               (((r + 1) * Z.quot (nodeCount g) P + Z.min (r + 1) (Z.rem (nodeCount g) P))
                - (r * Z.quot (nodeCount g) P + Z.min r (Z.rem (nodeCount g) P)))).
Proof.
  intros HP. unfold getContiguousPartition, getNodeCount.
  rewrite (proj2 (Z.eqb_neq P 0)) by done. cbv zeta. do 2 f_equal.
  destruct (Z.ltb_spec r (Z.rem (nodeCount g) P)); lia.
Qed.

Lemma contiguous_blocks_concat g P (k : nat) :
  1 ≤ P → 0 ≤ nodeCount g →
  ∃ parts,
    mapM (fun r => getContiguousPartition g r P) (seqZ 0 (Z.of_nat k)) = Some parts ∧
    concat parts =
      seqZ 0 (Z.of_nat k * Z.quot (nodeCount g) P
              + Z.min (Z.of_nat k) (Z.rem (nodeCount g) P)) ∧
    Forall (fun part =>
              Z.quot (nodeCount g) P ≤ Z.of_nat (length part)
                ≤ Z.quot (nodeCount g) P + 1) parts.
Proof.
  intros HP Hn. destruct (quot_rem_nonneg _ _ HP Hn) as (Hq & Hr & _).
  induction k as [|k (parts & Hm & Hc & Hl)].
  - exists []. split_and!; [done | | constructor].
    simpl. rewrite Z.min_l by lia. done.
  - rewrite seqZ_S. simpl.
    eexists (parts ++ [_]). split_and!.
    + apply mapM_Some. apply Forall2_app; [by apply mapM_Some|].
      constructor; [|constructor]. apply contiguous_block. lia.
    + rewrite concat_app, Hc. simpl. rewrite app_nil_r.
      set (a := Z.of_nat k * Z.quot (nodeCount g) P
                + Z.min (Z.of_nat k) (Z.rem (nodeCount g) P)).
      set (b := (Z.of_nat k + 1) * Z.quot (nodeCount g) P
                + Z.min (Z.of_nat k + 1) (Z.rem (nodeCount g) P)).
      replace (Z.of_nat (S k) * Z.quot (nodeCount g) P
               + Z.min (Z.of_nat (S k)) (Z.rem (nodeCount g) P)) with (a + (b - a))
        by (unfold a, b; lia).
      rewrite seqZ_app by (unfold a, b; lia). done.
    + apply Forall_app. split; [done|]. constructor; [|constructor].
      rewrite length_seqZ. lia.
Qed.

Lemma owner_scan_spec nodeId q rem (k : nat) : ∀ r,
  0 ≤ q → 0 ≤ r →
  match owner_scan nodeId q rem (seqZ r (Z.of_nat k)) (r * q + Z.min r rem) with
  | Some r' =>
      r ≤ r' < r + Z.of_nat k ∧ nodeId < (r' + 1) * q + Z.min (r' + 1) rem ∧
      (r' = r ∨ r' * q + Z.min r' rem ≤ nodeId)
  | None =>
      (r + Z.of_nat k) * q + Z.min (r + Z.of_nat k) rem ≤ nodeId ∨ k = O
  end.
Proof.
  induction k as [|k IH]; intros r Hq Hr; [simpl; by right|].
  rewrite seqZ_cons by lia. cbn [owner_scan].
  replace (Z.pred (Z.of_nat (S k))) with (Z.of_nat k) by lia.
  assert (E : r * q + Z.min r rem + (q + (if r <? rem then 1 else 0))
              = Z.succ r * q + Z.min (Z.succ r) rem).
  { destruct (Z.ltb_spec r rem); lia. }
  rewrite E. destruct (Z.ltb_spec nodeId (Z.succ r * q + Z.min (Z.succ r) rem)) as [Hlt|Hge].
  - split_and!; [lia | lia | | by left].
    replace (r + 1) with (Z.succ r) by lia. done.
  - specialize (IH (Z.succ r) Hq ltac:(lia)).
    destruct (owner_scan _ _ _ _ _) as [r'|].
    + destruct IH as (H1 & H2 & H3). split_and!; [lia | lia | done |].
      right. destruct H3 as [-> | H3]; [lia | done].
    + left. destruct IH as [IH | ->].
      * replace (r + Z.of_nat (S k)) with (Z.succ r + Z.of_nat k) by lia. done.
      * replace (r + Z.of_nat 1) with (Z.succ r) by lia. done.
Qed.

(** X1. The contiguous partitions of ranks 0..P-1 are consecutive blocks:
    in rank order they concatenate to 0, 1, ..., nodeCount-1, so they are
    disjoint and cover every node, and each block holds nodeCount / P nodes
    or one more. [Graph::getPartition] computes the same blocks. *)
Theorem X1_contiguous_partition_exact (g : Graph) (P : Z) :
  1 ≤ P → 0 ≤ getNodeCount g →
  ∃ parts,
    mapM (fun r => getContiguousPartition g r P) (seqZ 0 P) = Some parts ∧
    mapM (fun r => getPartition g r P) (seqZ 0 P) = Some parts ∧
    concat parts = seqZ 0 (getNodeCount g) ∧
    Forall (fun part =>
              Z.quot (getNodeCount g) P ≤ Z.of_nat (length part)
                ≤ Z.quot (getNodeCount g) P + 1) parts.
Proof.
  unfold getNodeCount. intros HP Hn.
  destruct (quot_rem_nonneg _ _ HP Hn) as (Hq & Hr & E).
  destruct (contiguous_blocks_concat g P (Z.to_nat P) HP Hn) as (parts & Hm & Hc & Hl).
  rewrite Z2Nat.id in Hm, Hc by lia.
  exists parts. split_and!; [done | | | done].
  - rewrite <- Hm. by apply mapM_ext.
  - rewrite Hc. f_equal. lia.
Qed.

Lemma X1_contiguous_partition_exact_witness :
  ∃ parts,
    mapM (fun r => getContiguousPartition (mkGraph [] 10 0) r 4) (seqZ 0 4) = Some parts ∧
    mapM (fun r => getPartition (mkGraph [] 10 0) r 4) (seqZ 0 4) = Some parts ∧
    concat parts = seqZ 0 (getNodeCount (mkGraph [] 10 0)) ∧
    Forall (fun part =>
              Z.quot (getNodeCount (mkGraph [] 10 0)) 4 ≤ Z.of_nat (length part)
                ≤ Z.quot (getNodeCount (mkGraph [] 10 0)) 4 + 1) parts.
Proof.
  apply (X1_contiguous_partition_exact (mkGraph [] 10 0) 4); simpl; lia.
Defined.

(** X2. [getNodeOwnerContiguous] returns a rank of the cohort; for a node
    of the graph it is the rank whose contiguous block holds the node; a
    negative id goes to rank 0 and an id past the last node to the last
    rank. *)
Theorem X2_contiguous_owner (g : Graph) (nodeId P : Z) :
  1 ≤ P → 0 ≤ getNodeCount g →
  ∃ r, getNodeOwnerContiguous nodeId (getNodeCount g) P = Some r ∧
    0 ≤ r < P ∧
    (0 ≤ nodeId < getNodeCount g →
       ∃ part, getContiguousPartition g r P = Some part ∧ nodeId ∈ part) ∧
    (nodeId < 0 → r = 0) ∧
    (getNodeCount g ≤ nodeId → r = P - 1).
Proof.
  unfold getNodeCount. intros HP Hn.
  destruct (quot_rem_nonneg _ _ HP Hn) as (Hq & Hr & E).
  unfold getNodeOwnerContiguous. rewrite (proj2 (Z.eqb_neq P 0)) by lia. cbv zeta.
  pose proof (owner_scan_spec nodeId (Z.quot (nodeCount g) P) (Z.rem (nodeCount g) P)
                (Z.to_nat P) 0 Hq ltac:(lia)) as H.
  rewrite Z2Nat.id in H by lia. simpl in H.
  replace (Z.min 0 (Z.rem (nodeCount g) P)) with 0 in H by lia.
  destruct (owner_scan _ _ _ _ _) as [r|]; simpl.
  - destruct H as (H1 & H2 & H3). exists r. split_and!; [done | lia | lia | | |].
    + intros Hin. rewrite contiguous_block by lia. eexists. split; [done|].
      apply elem_of_seqZ. lia.
    + intros Hneg. destruct H3 as [-> | H3]; [done|]. nia.
    + intros Hge. exfalso. nia.
  - exists (P - 1). split_and!; [done | lia | lia | | | done].
    + intros Hin. exfalso. destruct H as [H | H]; lia.
    + intros Hneg. exfalso. destruct H as [H | H]; lia.
Qed.

Lemma X2_contiguous_owner_witness :
  ∃ r, getNodeOwnerContiguous 7 (getNodeCount (mkGraph [] 10 0)) 4 = Some r ∧
    0 ≤ r < 4 ∧
    (0 ≤ 7 < getNodeCount (mkGraph [] 10 0) →
       ∃ part, getContiguousPartition (mkGraph [] 10 0) r 4 = Some part ∧ 7 ∈ part) ∧
    (7 < 0 → r = 0) ∧
    (getNodeCount (mkGraph [] 10 0) ≤ 7 → r = 4 - 1).
Proof.
  apply (X2_contiguous_owner (mkGraph [] 10 0) 7 4); simpl; lia.
Defined.

(** ** Boundary nodes *)

Lemma scan_edges_spec (myNodes : gset Z) node es (B : gset Z) u :
  u ∈ scan_edges myNodes node es B ↔
  u ∈ B ∨ (u = node ∧ ∃ e, e ∈ es ∧ destination e ∉ myNodes).
Proof.
  induction es as [|e es IH]; simpl.
  - split; [by left|]. intros [H | (_ & e & He & _)]; [done|].
    by apply elem_of_nil in He.
  - case_bool_decide as Hd.
    + rewrite IH. split; (intros [H | (-> & e' & He' & Hn)]; [by left | right]).
      * split; [done|]. exists e'. split; [by right | done].
      * split; [done|]. apply elem_of_cons in He' as [-> | He']; [done|].
        by exists e'.
    + rewrite elem_of_union, elem_of_singleton. split.
      * intros [-> | H]; [right | by left]. split; [done|]. exists e.
        split; [by left | done].
      * intros [H | (-> & _)]; [by right | by left].
Qed.

Lemma boundary_fold g (myNodes : gset Z) part : ∀ B0 : gset Z,
  Graph_wf g → Forall (fun u => 0 ≤ u < nodeCount g) part →
  ∃ B : gset Z,
    foldl (fun acc node =>
             boundaryNodes ← acc;
             es ← getAdjacencyList g node;
             Some (scan_edges myNodes node es boundaryNodes))
          (Some B0) part = Some B ∧
    ∀ u, u ∈ B ↔
         u ∈ B0 ∨ (u ∈ part ∧ ∃ e, has_edge g u e ∧ destination e ∉ myNodes).
Proof.
  induction part as [|node part IH]; intros B0 Hwf Hpart; simpl.
  - exists B0. split; [done|]. intros u. split; [by left|].
    intros [H | (H & _)]; [done | by apply elem_of_nil in H].
  - apply Forall_cons in Hpart as [Hnode Hpart].
    destruct (getAdjacencyList_is_Some g node Hwf Hnode) as [es Hes].
    rewrite Hes. simpl.
    destruct (IH (scan_edges myNodes node es B0) Hwf Hpart) as (B & HB & Hin).
    exists B. split; [done|]. intros u. rewrite Hin, scan_edges_spec. split.
    + intros [[H | (-> & e & He & Hn)] | (H & e & He & Hn)].
      * by left.
      * right. split; [by left|]. exists e. split; [by exists es | done].
      * right. split; [by right|]. by exists e.
    + intros [H | (H & e & He & Hn)]; [by left; left|].
      apply elem_of_cons in H as [-> | H].
      * left. right. split; [done|]. exists e. split; [|done].
        destruct He as (es' & Hes' & He). by simplify_eq.
      * right. split; [done|]. by exists e.
Qed.

(** X3. [identifyBoundaryNodes] returns exactly the nodes of the partition
    that have an edge to a node outside the partition; a partition that
    holds every node of the graph has no boundary node. *)
Theorem X3_boundary_nodes (g : Graph) (part : list Z) (r P : Z) :
  Graph_wf g → Forall (fun u => 0 ≤ u < nodeCount g) part →
  ∃ B : gset Z,
    identifyBoundaryNodes g part r P = Some B ∧
    (∀ u, u ∈ B ↔ u ∈ part ∧ ∃ e, has_edge g u e ∧ destination e ∉ part) ∧
    ((∀ v, 0 ≤ v < nodeCount g → v ∈ part) → B = ∅).
Proof.
  intros Hwf Hpart. unfold identifyBoundaryNodes.
  destruct (boundary_fold g (list_to_set part) part ∅ Hwf Hpart) as (B & HB & Hin).
  exists B. split; [done|].
  assert (Hspec : ∀ u, u ∈ B ↔ u ∈ part ∧ ∃ e, has_edge g u e ∧ destination e ∉ part).
  { intros u. rewrite Hin. split.
    - intros [H | (H & e & He & Hn)]; [by apply elem_of_empty in H|].
      split; [done|]. exists e. split; [done|]. by rewrite elem_of_list_to_set in Hn.
    - intros (H & e & He & Hn). right. split; [done|]. exists e. split; [done|].
      by rewrite elem_of_list_to_set. }
  split; [done|]. intros Hall. apply set_eq. intros u. rewrite Hspec. split.
  - intros (_ & e & He & Hn). exfalso. apply Hn, Hall.
    by apply (has_edge_range g u e).
  - intros H. by apply elem_of_empty in H.
Qed.

Lemma X3_boundary_nodes_witness :
  ∃ B : gset Z,
    identifyBoundaryNodes (load_graph scenario_a_file) [0; 2; 4] 0 2 = Some B ∧
    (∀ u, u ∈ B ↔ u ∈ [0; 2; 4] ∧
            ∃ e, has_edge (load_graph scenario_a_file) u e ∧ destination e ∉ [0; 2; 4]) ∧
    ((∀ v, 0 ≤ v < nodeCount (load_graph scenario_a_file) → v ∈ [0; 2; 4]) → B = ∅).
Proof.
  apply (X3_boundary_nodes (load_graph scenario_a_file) [0; 2; 4] 0 2).
  - apply (bool_decide_unpack _). by vm_compute.
  - apply (bool_decide_unpack _). by vm_compute.
Defined.

(** ** Replaying edges into a graph *)

Lemma rebuild_cons g from to w es :
  rebuild g ((from, to, w) :: es) = rebuild (addEdge g from to w) es.
Proof. done. Qed.

Lemma rebuild_nodeCount es : ∀ g, nodeCount (rebuild g es) = nodeCount g.
Proof.
  induction es as [|[[from to] w] es IH]; intros g; [done|].
  by rewrite rebuild_cons, IH, addEdge_nodeCount.
Qed.

Lemma with_more_edges_nil nd : with_more_edges nd [] = nd.
Proof. destruct nd. unfold with_more_edges. simpl. by rewrite app_nil_r. Qed.

Lemma imap_with_more_nil ns : imap (fun _ nd => with_more_edges nd []) ns = ns.
Proof.
  apply list_eq. intros i. rewrite list_lookup_imap.
  destruct (ns !! i); simpl; [|done]. by rewrite with_more_edges_nil.
Qed.

Lemma in_range_true n from to w :
  in_range n (from, to, w) = true ↔ 0 ≤ from < n ∧ 0 ≤ to < n.
Proof.
  unfold in_range.
  destruct (Z.leb_spec 0 from), (Z.ltb_spec from n), (Z.leb_spec 0 to),
    (Z.ltb_spec to n); simpl; split; (done || lia).
Qed.

(** The edges that a replay accepts end up, in their order, behind the
    edges that their nodes had; the others leave no trace. *)
Lemma rebuild_spec es : ∀ g,
  let kept := filter (fun e => in_range (nodeCount g) e = true) es in
  rebuild g es =
    mkGraph (imap (fun i nd => with_more_edges nd (edges_from (Z.of_nat i) kept))
               (nodes g))
            (nodeCount g) (edgeCount g + Z.of_nat (length kept)).
Proof.
  induction es as [|[[from to] w] es IH]; intros g; cbv zeta.
  - simpl. rewrite imap_with_more_nil, Z.add_0_r. by destruct g.
  - rewrite rebuild_cons, IH. cbv zeta. rewrite addEdge_nodeCount.
    rewrite filter_cons. case_decide as Hin.
    + apply in_range_true in Hin as [Hf Ht]. rewrite addEdge_in_range by done.
      cbn [nodes nodeCount edgeCount]. f_equal.
      * apply list_eq. intros i. rewrite !list_lookup_imap.
        rewrite list_lookup_alter. case_decide as Hi.
        -- subst i. destruct (nodes g !! Z.to_nat from) as [nd|]; [|done]. simpl.
           f_equal. unfold with_more_edges, Node.addEdge, edges_from. simpl.
           rewrite Z2Nat.id by lia. rewrite decide_True by done. simpl.
           by rewrite <- app_assoc.
        -- destruct (nodes g !! i) as [nd|]; [|done]. simpl. f_equal.
           unfold edges_from. simpl. rewrite decide_False by lia. done.
      * simpl. lia.
    + rewrite addEdge_out_of_range; [done|].
      intros H. apply Hin. by apply in_range_true.
Qed.

Lemma rebuild_adjacency g es u adj :
  getAdjacencyList g u = Some adj →
  getAdjacencyList (rebuild g es) u =
    Some (adj ++ edges_from u (filter (fun e => in_range (nodeCount g) e = true) es)).
Proof.
  unfold getAdjacencyList. intros H.
  destruct (vget (nodes g) u) as [nd|] eqn:E; [|done]. simpl in H. simplify_eq.
  pose proof (vget_range _ _ _ E) as Hu. apply vget_Some in E as [_ E].
  rewrite rebuild_spec. cbv zeta. cbn [nodes].
  assert (H : vget (imap (fun i nd => with_more_edges nd
                            (edges_from (Z.of_nat i)
                               (filter (fun e => in_range (nodeCount g) e = true) es)))
                      (nodes g)) u
              = Some (with_more_edges nd
                        (edges_from u
                           (filter (fun e => in_range (nodeCount g) e = true) es)))).
  { apply vget_Some. split; [lia|].
    rewrite list_lookup_imap, E. simpl. by rewrite Z2Nat.id by lia. }
  by rewrite H.
Qed.

Lemma rebuild_edgeCount g es :
  edgeCount (rebuild g es) =
    edgeCount g + Z.of_nat (length (filter (fun e => in_range (nodeCount g) e = true) es)).
Proof. by rewrite rebuild_spec. Qed.

(** ** The loader as a replay *)

Lemma read_edges_entries n : ∀ s g,
  read_edges n s g = obind (read_entries n s) (fun es => Ok (rebuild g es)).
Proof.
  induction n as [|n IH]; intros s g; simpl; [done|].
  destruct (extract_int s) as [from s1].
  destruct (extract_int s1) as [to s2].
  destruct (extract_double s2) as [w s3].
  destruct from as [from|]; [|done]. destruct to as [to|]; [|done].
  destruct w as [w|]; [|done]. simpl. rewrite IH.
  by destruct (read_entries n s3).
Qed.

(** A load that returns [true] has read a header [n m] and [m] triples,
    resized the graph and replayed the triples. *)
Lemma loadFromFile_true fs filename g g' :
  loadFromFile fs filename g = Ok (true, g') ↔
  ∃ contents n s1 m s2 es,
    fs filename = Some contents ∧
    extract_int (mkStream contents false) = (Some n, s1) ∧
    extract_int s1 = (Some m, s2) ∧ 0 ≤ n ∧
    read_entries (Z.to_nat m) s2 = Ok es ∧
    g' = rebuild (mkGraph (assign_ids (resize_nodes (nodes g) (Z.to_nat n))) n
                    (edgeCount g)) es.
Proof.
  unfold loadFromFile. destruct (fs filename) as [contents|].
  - destruct (extract_int _) as [numNodes file1] eqn:E1.
    destruct (extract_int file1) as [numEdges file2] eqn:E2.
    unfold setNodeCount. split.
    + destruct numNodes as [numNodes|]; [|done]. simpl.
      destruct (Z.ltb_spec numNodes 0); [done|]. simpl.
      destruct numEdges as [numEdges|]; [|done]. simpl.
      rewrite read_edges_entries.
      destruct (read_entries _ file2) as [es| |] eqn:E3; [|done|done].
      simpl. intros [= <-]. by exists contents, numNodes, file1, numEdges, file2, es.
    + intros (c & n & s1 & m & s2 & es & Hc & H1 & H2 & Hn & H3 & ->).
      injection Hc as <-. rewrite E1 in H1. injection H1 as -> ->.
      rewrite E2 in H2. injection H2 as -> ->. simpl.
      destruct (Z.ltb_spec n 0); [lia|]. simpl.
      rewrite read_edges_entries, H3. done.
  - split; [done|]. by intros (c & n & s1 & m & s2 & es & Hc & _).
Qed.

Lemma resize_nodes_same ns : resize_nodes ns (length ns) = ns.
Proof.
  unfold resize_nodes. rewrite firstn_all, Nat.sub_diag. simpl. apply app_nil_r.
Qed.

Lemma resize_nodes_nil n : resize_nodes [] n = replicate n Node.default.
Proof. unfold resize_nodes. by rewrite take_nil, Nat.sub_0_r. Qed.

(** ** What [addEdge] and the loader keep *)

Lemma stored_edges_alter ns i to w nd :
  ns !! i = Some nd →
  length (concat (Node.adjacencyList <$> alter (fun nd => Node.addEdge nd to w) i ns))
  = S (length (concat (Node.adjacencyList <$> ns))).
Proof.
  revert i. induction ns as [|n0 ns IH]; intros i Hi; [done|].
  destruct i as [|i]; csimpl in *.
  - simplify_eq. rewrite !length_app. simpl. lia.
  - rewrite !length_app. rewrite (IH i Hi). lia.
Qed.

Lemma addEdge_inv g from to w : Graph_inv g → Graph_inv (addEdge g from to w).
Proof.
  intros [Hwf Hec]. split; [by apply addEdge_wf|].
  destruct (decide (0 ≤ from < nodeCount g ∧ 0 ≤ to < nodeCount g)) as [[Hf Ht]|Hn].
  - rewrite addEdge_in_range by done. unfold stored_edges. cbn [nodes edgeCount].
    destruct Hwf as (Hn & Hlen & _).
    destruct (lookup_lt_is_Some_2 (nodes g) (Z.to_nat from)) as [nd Hnd]; [lia|].
    rewrite (stored_edges_alter _ _ _ _ _ Hnd). unfold stored_edges in Hec. lia.
  - by rewrite addEdge_out_of_range.
Qed.

Lemma rebuild_inv es : ∀ g, Graph_inv g → Graph_inv (rebuild g es).
Proof.
  induction es as [|[[from to] w] es IH]; intros g Hg; [done|].
  rewrite rebuild_cons. by apply IH, addEdge_inv.
Qed.

Lemma fresh_graph_nodes n i nd :
  assign_ids (replicate n Node.default) !! i = Some nd →
  nd = Node.mk (Z.of_nat i) zero zero [].
Proof.
  unfold assign_ids. rewrite list_lookup_imap_Some.
  intros (nd' & H & ->). apply lookup_replicate in H as [-> _]. done.
Qed.

Lemma fresh_graph_inv n :
  0 ≤ n → Graph_inv (mkGraph (assign_ids (replicate (Z.to_nat n) Node.default)) n 0).
Proof.
  intros Hn. split.
  - unfold Graph_wf. cbn [nodes nodeCount]. split_and!; [done | |].
    + by rewrite assign_ids_length, length_replicate.
    + apply Forall_lookup. intros i nd Hi. apply fresh_graph_nodes in Hi as ->.
      constructor.
  - unfold stored_edges. cbn [nodes edgeCount].
    assert (H : concat (Node.adjacencyList <$>
                          assign_ids (replicate (Z.to_nat n) Node.default)) = []).
    { apply (proj2 (concat_nil_Forall _)). apply Forall_lookup. intros i es Hi.
      apply list_lookup_fmap_Some in Hi as (nd & -> & Hi).
      by apply fresh_graph_nodes in Hi as ->. }
    by rewrite H.
Qed.

(** A graph that [loadFromFile] delivers into a fresh [Graph] object
    satisfies the invariant of the class, and its nodes carry no
    coordinates. *)
Lemma loadFromFile_inv fs filename g :
  loadFromFile fs filename Graph_default = Ok (true, g) →
  Graph_inv g ∧
  Forall (fun nd => Node.x nd = zero ∧ Node.y nd = zero) (nodes g).
Proof.
  intros H. apply loadFromFile_true in H
    as (c & n & s1 & m & s2 & es & Hc & H1 & H2 & Hn & H3 & ->).
  simpl. rewrite resize_nodes_nil. split.
  - apply rebuild_inv, fresh_graph_inv, Hn.
  - rewrite rebuild_spec. cbv zeta. cbn [nodes]. apply Forall_lookup. intros i nd Hi.
    apply list_lookup_imap_Some in Hi as (nd' & Hi & ->).
    by apply fresh_graph_nodes in Hi as ->.
Qed.

(** ** The stored edges as entries *)

Lemma entries_of_nil f off : entries_of f off [] = [].
Proof. done. Qed.

Lemma entries_of_cons f off nd ns :
  entries_of f off (nd :: ns) =
    ((fun e => (off, destination e, f (weight e))) <$> Node.adjacencyList nd)
    ++ entries_of f (off + 1) ns.
Proof.
  unfold entries_of. rewrite imap_cons. simpl. rewrite Z.add_0_r. f_equal. f_equal.
  apply imap_ext. intros j nd' _. simpl.
  replace (off + 1 + Z.of_nat j) with (off + Z.of_nat (S j)) by lia. done.
Qed.

Lemma entries_of_length f ns : ∀ off,
  length (entries_of f off ns) = length (concat (Node.adjacencyList <$> ns)).
Proof.
  induction ns as [|nd ns IH]; intros off; [done|].
  rewrite entries_of_cons. csimpl. rewrite !length_app, length_fmap. by rewrite IH.
Qed.

Lemma entries_of_fmap f ns : ∀ off,
  (fun '(from, to, w) => (from, to, f w)) <$> entries_of (fun w => w) off ns
  = entries_of f off ns.
Proof.
  induction ns as [|nd ns IH]; intros off; [done|].
  rewrite !entries_of_cons, fmap_app, IH. f_equal.
  rewrite <- list_fmap_compose. done.
Qed.

Lemma edges_from_app u es1 es2 :
  edges_from u (es1 ++ es2) = edges_from u es1 ++ edges_from u es2.
Proof. unfold edges_from. apply omap_app. Qed.

Lemma edges_from_node f u i es :
  edges_from u ((fun e => (i, destination e, f (weight e))) <$> es)
  = if decide (i = u) then (fun e => mkEdge (destination e) (f (weight e))) <$> es
    else [].
Proof.
  unfold edges_from. induction es as [|e es IH]; csimpl; [by destruct (decide _)|].
  rewrite IH. by destruct (decide (i = u)).
Qed.

Lemma edges_from_entries_of f u ns : ∀ off,
  edges_from u (entries_of f off ns) =
    if decide (off ≤ u)
    then from_option
           (fun nd => (fun e => mkEdge (destination e) (f (weight e)))
                        <$> Node.adjacencyList nd)
           [] (ns !! Z.to_nat (u - off))
    else [].
Proof.
  induction ns as [|nd ns IH]; intros off.
  - rewrite entries_of_nil. by destruct (decide _).
  - rewrite entries_of_cons, edges_from_app, edges_from_node, IH.
    destruct (decide (off = u)) as [->|Hne].
    + destruct (decide (u + 1 ≤ u)); [lia|]. destruct (decide (u ≤ u)); [|lia].
      rewrite Z.sub_diag. simpl. by rewrite app_nil_r.
    + simpl. destruct (decide (off + 1 ≤ u)) as [Hle|Hgt].
      * destruct (decide (off ≤ u)); [|lia].
        replace (Z.to_nat (u - off)) with (S (Z.to_nat (u - (off + 1)))) by lia.
        done.
      * destruct (decide (off ≤ u)); [lia | done].
Qed.

Lemma entries_of_in_range f g :
  Graph_wf g →
  Forall (fun e => in_range (nodeCount g) e = true) (entries_of f 0 (nodes g)).
Proof.
  intros (Hn & Hlen & Hed).
  assert (H : ∀ ns off, 0 ≤ off → off + Z.of_nat (length ns) ≤ nodeCount g →
            Forall (fun nd => Forall (fun e => 0 ≤ destination e < nodeCount g)
                                (Node.adjacencyList nd)) ns →
            Forall (fun e => in_range (nodeCount g) e = true) (entries_of f off ns)).
  { induction ns as [|nd ns IH]; intros off Hoff Hle Hns; [constructor|].
    apply Forall_cons in Hns as [Hnd Hns]. simpl in Hle.
    rewrite entries_of_cons. apply Forall_app. split.
    - apply Forall_fmap. eapply Forall_impl; [exact Hnd|].
      intros e He. cbv beta in *. apply in_range_true. lia.
    - apply IH; [lia | lia | done]. }
  apply H; [lia | lia | done].
Qed.

Lemma filter_all {A} (P : A → Prop) `{∀ x, Decision (P x)} (l : list A) :
  Forall P l → filter P l = l.
Proof.
  induction 1 as [|x l Hx Hl IH]; [done|].
  rewrite filter_cons, decide_True by done. by rewrite IH.
Qed.

(** Replaying the entries of a graph into a fresh object of the same size
    rebuilds the graph as a file carries it. *)
Lemma rebuild_fresh f g :
  Graph_inv g → rebuild (fresh_graph (nodeCount g)) (entries_of f 0 (nodes g))
                = stored_form f g.
Proof.
  intros [Hwf Hec]. pose proof Hwf as (Hn & Hlen & _).
  rewrite rebuild_spec. cbv zeta. unfold fresh_graph. cbn [nodes nodeCount edgeCount].
  rewrite (filter_all _ _ (entries_of_in_range f g Hwf)).
  unfold stored_form. f_equal.
  - apply list_eq. intros i. rewrite !list_lookup_imap.
    destruct (nodes g !! i) as [nd|] eqn:E.
    + apply lookup_lt_Some in E as Hi.
      assert (Hf : assign_ids (replicate (Z.to_nat (nodeCount g)) Node.default) !! i
                   = Some (Node.mk (Z.of_nat i) zero zero [])).
      { unfold assign_ids. rewrite list_lookup_imap.
        rewrite (proj2 (lookup_replicate _ _ _ _)) by (split; [done | lia]). done. }
      rewrite Hf. simpl. f_equal. unfold with_more_edges. simpl. f_equal.
      rewrite edges_from_entries_of. rewrite decide_True by lia.
      rewrite Z.sub_0_r, Nat2Z.id, E. done.
    + apply lookup_ge_None in E.
      rewrite (proj2 (lookup_ge_None _ _)); [done|].
      rewrite assign_ids_length, length_replicate. lia.
  - rewrite entries_of_length. unfold stored_edges in Hec. lia.
Qed.

Lemma getAdjacencyList_lookup g i nd :
  nodes g !! i = Some nd →
  getAdjacencyList g (Z.of_nat i) = Some (Node.adjacencyList nd).
Proof.
  intros H. unfold getAdjacencyList.
  rewrite (proj2 (vget_Some (nodes g) (Z.of_nat i) nd)); [done|].
  split; [lia|]. by rewrite Nat2Z.id.
Qed.

Lemma flatten_edges_entries g suf : ∀ pre,
  nodes g = pre ++ suf →
  flatten_edges g (seqZ (Z.of_nat (length pre)) (Z.of_nat (length suf)))
  = Some (entries_of (fun w => w) (Z.of_nat (length pre)) suf).
Proof.
  induction suf as [|nd suf IH]; intros pre Hg; [done|].
  rewrite seqZ_cons by (simpl; lia). cbn [flatten_edges].
  rewrite (getAdjacencyList_lookup g (length pre) nd).
  2:{ rewrite Hg. rewrite lookup_app_r by lia. by rewrite Nat.sub_diag. }
  simpl. specialize (IH (pre ++ [nd])). rewrite length_app in IH. simpl in IH.
  replace (Z.succ (Z.of_nat (length pre))) with (Z.of_nat (length pre + 1)) by lia.
  replace (Z.pred (Z.of_nat (S (length suf)))) with (Z.of_nat (length suf)) by lia.
  rewrite IH by (by rewrite <- app_assoc). simpl.
  rewrite entries_of_cons. do 3 f_equal. lia.
Qed.

Lemma edge_lines_entries fmt g suf : ∀ pre,
  nodes g = pre ++ suf →
  edge_lines fmt g (seqZ (Z.of_nat (length pre)) (Z.of_nat (length suf)))
  = Some (concat (entry_line fmt <$> entries_of (fun w => w) (Z.of_nat (length pre)) suf)).
Proof.
  induction suf as [|nd suf IH]; intros pre Hg; [done|].
  rewrite seqZ_cons by (simpl; lia). cbn [edge_lines].
  assert (Hnd : vget (nodes g) (Z.of_nat (length pre)) = Some nd).
  { apply vget_Some. split; [lia|]. rewrite Nat2Z.id, Hg.
    rewrite lookup_app_r by lia. by rewrite Nat.sub_diag. }
  rewrite Hnd. simpl. specialize (IH (pre ++ [nd])). rewrite length_app in IH. simpl in IH.
  replace (Z.succ (Z.of_nat (length pre))) with (Z.of_nat (length pre + 1)) by lia.
  replace (Z.pred (Z.of_nat (S (length suf)))) with (Z.of_nat (length suf)) by lia.
  rewrite IH by (by rewrite <- app_assoc). simpl.
  rewrite entries_of_cons, fmap_app, concat_app. do 2 f_equal.
  - rewrite <- list_fmap_compose. done.
  - do 3 f_equal. lia.
Qed.

(** ** Reading back what was written *)

Lemma extract_int_TInt z rest :
  INT_MIN ≤ z ≤ INT_MAX →
  extract_int (mkStream (TInt z :: rest) false) = (Some z, mkStream rest false).
Proof.
  intros Hz. unfold extract_int. simpl.
  destruct (Z.ltb_spec z INT_MIN); [lia|]. destruct (Z.ltb_spec INT_MAX z); [lia|]. done.
Qed.

Lemma extract_double_field t v rest :
  field_value t = Some v →
  extract_double (mkStream (t :: rest) false) = (Some v, mkStream rest false).
Proof. destruct t; simpl; intros; by simplify_eq. Qed.

Lemma read_entries_lines fmt rd F : ∀ rest,
  Forall (fun '(from, to, w) =>
            INT_MIN ≤ from ≤ INT_MAX ∧ INT_MIN ≤ to ≤ INT_MAX ∧
            field_value (fmt w) = Some (rd w)) F →
  read_entries (length F) (mkStream (concat (entry_line fmt <$> F) ++ rest) false)
  = Ok ((fun '(from, to, w) => (from, to, rd w)) <$> F).
Proof.
  induction F as [|[[from to] w] F IH]; intros rest HF; [done|].
  apply Forall_cons in HF as [(Hf & Ht & Hw) HF].
  cbn [length read_entries]. csimpl.
  rewrite extract_int_TInt by done. rewrite extract_int_TInt by done.
  rewrite (extract_double_field _ _ _ Hw). simpl. by rewrite IH.
Qed.

Lemma entries_of_Forall (Q : Z * Z * double → Prop) f ns : ∀ off,
  (∀ j nd e, ns !! j = Some nd → e ∈ Node.adjacencyList nd →
     Q (off + Z.of_nat j, destination e, f (weight e))) →
  Forall Q (entries_of f off ns).
Proof.
  induction ns as [|nd ns IH]; intros off H; [constructor|].
  rewrite entries_of_cons. apply Forall_app. split.
  - apply Forall_fmap, Forall_forall. intros e He. simpl.
    specialize (H O nd e eq_refl He). simpl in H. by rewrite Z.add_0_r in H.
  - apply IH. intros j nd' e Hj He. specialize (H (S j) nd' e Hj He).
    replace (off + 1 + Z.of_nat j) with (off + Z.of_nat (S j)) by lia. done.
Qed.

Lemma stored_form_adjacency g u :
  getAdjacencyList (stored_form (fun w => w) g) u = getAdjacencyList g u.
Proof.
  unfold getAdjacencyList, stored_form, vget. cbn [nodes].
  destruct (u <? 0); [done|]. rewrite list_lookup_imap.
  destruct (nodes g !! Z.to_nat u) as [nd|]; [|done]. simpl. f_equal.
  induction (Node.adjacencyList nd) as [|[d w] es IH]; [done|]. csimpl. by rewrite IH.
Qed.

Lemma setNodeCount_default n :
  0 ≤ n → setNodeCount Graph_default n = Ok (fresh_graph n).
Proof.
  intros Hn. unfold setNodeCount, fresh_graph. destruct (Z.ltb_spec n 0); [lia|].
  simpl. by rewrite resize_nodes_nil.
Qed.

Lemma assign_ids_adjacency_list g :
  ∀ u, Node.adjacencyList <$> vget (assign_ids (nodes g)) u = getAdjacencyList g u.
Proof.
  intros u. unfold getAdjacencyList, vget, assign_ids. destruct (u <? 0); [done|].
  rewrite list_lookup_imap. by destruct (nodes g !! Z.to_nat u).
Qed.

(** X4. [loadFromFile] does not reset the graph it loads into: on an object
    that already holds a graph of the file's node count, the edges of the
    file are appended to the adjacency lists that are there, and the edge
    count grows by the number of edges added. *)
Theorem X4_load_appends (fs : FileSystem) (filename : string) (g gf : Graph) :
  Graph_wf g →
  loadFromFile fs filename Graph_default = Ok (true, gf) →
  nodeCount gf = nodeCount g →
  ∃ g', loadFromFile fs filename g = Ok (true, g') ∧
    nodeCount g' = nodeCount g ∧
    edgeCount g' = edgeCount g + edgeCount gf ∧
    ∀ u, 0 ≤ u < nodeCount g →
      ∃ old new, getAdjacencyList g u = Some old ∧ getAdjacencyList gf u = Some new ∧
                 getAdjacencyList g' u = Some (old ++ new).
Proof.
  intros Hwf Hload Hsame. pose proof (loadFromFile_wf _ _ _ Hload) as Hwff.
  apply loadFromFile_true in Hload
    as (c & n & s1 & m & s2 & es & Hc & H1 & H2 & Hn & H3 & ->).
  rewrite rebuild_nodeCount in Hsame. cbn [nodeCount] in Hsame. subst n.
  pose proof Hwf as (_ & Hlen & _).
  eexists. split.
  { apply loadFromFile_true. by exists c, (nodeCount g), s1, m, s2, es. }
  rewrite <- Hlen, resize_nodes_same.
  split; [by rewrite rebuild_nodeCount|]. split.
  { rewrite !rebuild_edgeCount. simpl. lia. }
  intros u Hu.
  destruct (getAdjacencyList_is_Some g u Hwf Hu) as [old Hold].
  exists old, (edges_from u (filter (fun e => in_range (nodeCount g) e = true) es)).
  split; [done|]. split.
  - rewrite (rebuild_adjacency _ es u []); [done|]. simpl.
    rewrite resize_nodes_nil. unfold getAdjacencyList. cbn [nodes].
    destruct (vget_is_Some (assign_ids (replicate (length (nodes g)) Node.default)) u)
      as [nd Hnd].
    { rewrite assign_ids_length, length_replicate. lia. }
    rewrite Hnd. simpl. apply vget_Some in Hnd as [_ Hnd].
    by apply fresh_graph_nodes in Hnd as ->.
  - rewrite (rebuild_adjacency _ es u old); [done|].
    unfold getAdjacencyList at 1. cbn [nodes].
    by rewrite assign_ids_adjacency_list.
Qed.

Lemma X4_load_appends_witness :
  ∃ g', loadFromFile (shared_fs chain4_file 0) "graph.txt" (load_graph chain4_file)
        = Ok (true, g') ∧
    nodeCount g' = nodeCount (load_graph chain4_file) ∧
    edgeCount g' = edgeCount (load_graph chain4_file) + edgeCount (load_graph chain4_file) ∧
    ∀ u, 0 ≤ u < nodeCount (load_graph chain4_file) →
      ∃ old new, getAdjacencyList (load_graph chain4_file) u = Some old ∧
                 getAdjacencyList (load_graph chain4_file) u = Some new ∧
                 getAdjacencyList g' u = Some (old ++ new).
Proof.
  apply (X4_load_appends (shared_fs chain4_file 0) "graph.txt"
           (load_graph chain4_file) (load_graph chain4_file)).
  - apply (bool_decide_unpack _). by vm_compute.
  - reflexivity.
  - reflexivity.
Defined.

(** X5. What [saveToFile] writes, [loadFromFile] reads back into a fresh
    object as the same graph, provided every weight is written as a numeric
    field: the counts, and node by node the edges in their order, each
    weight as the number [rd w] that its written field denotes. The
    coordinates of the nodes do not reach the file. *)
Theorem X5_save_then_load (fmt : double → token) (rd : double → double)
    (creatable : string → bool) (fs : FileSystem) (filename : string) (g : Graph) :
  Graph_inv g → nodeCount g ≤ INT_MAX → edgeCount g ≤ INT_MAX →
  creatable filename = true →
  Forall (fun nd => Forall (fun e => field_value (fmt (weight e)) = Some (rd (weight e)))
                      (Node.adjacencyList nd)) (nodes g) →
  ∃ fs', saveToFile fmt creatable fs filename g = Some (true, fs') ∧
         loadFromFile fs' filename Graph_default = Ok (true, stored_form rd g).
Proof.
  intros Hinv HnM HeM Hcr Hfmt. pose proof Hinv as [Hwf Hec].
  pose proof Hwf as (Hn & Hlen & Hed).
  unfold saveToFile, saved_contents. rewrite Hcr.
  pose proof (edge_lines_entries fmt g (nodes g) [] eq_refl) as Hl.
  change (Z.of_nat (length [])) with 0 in Hl.
  rewrite Hlen, Z2Nat.id in Hl by done. rewrite Hl. simpl.
  eexists. split; [done|].
  set (F := entries_of (fun w => w) 0 (nodes g)) in *.
  assert (HF : Forall (fun '(from, to, w) =>
                         INT_MIN ≤ from ≤ INT_MAX ∧ INT_MIN ≤ to ≤ INT_MAX ∧
                         field_value (fmt w) = Some (rd w)) F).
  { apply entries_of_Forall. intros j nd e Hj He.
    apply lookup_lt_Some in Hj as Hjl.
    rewrite Forall_lookup in Hed, Hfmt. specialize (Hed _ _ Hj). specialize (Hfmt _ _ Hj).
    rewrite Forall_forall in Hed, Hfmt. specialize (Hed _ He). specialize (Hfmt _ He).
    unfold INT_MIN, INT_MAX in *. split_and!; [lia | lia | lia | lia | done]. }
  assert (Hm : Z.to_nat (edgeCount g) = length F).
  { unfold F. rewrite entries_of_length. unfold stored_edges in Hec. lia. }
  assert (Hm0 : 0 ≤ edgeCount g) by (unfold stored_edges in Hec; lia).
  apply loadFromFile_true.
  exists (TInt (nodeCount g) :: TInt (edgeCount g) :: concat (entry_line fmt <$> F)),
    (nodeCount g),
    (mkStream (TInt (edgeCount g) :: concat (entry_line fmt <$> F)) false),
    (edgeCount g), (mkStream (concat (entry_line fmt <$> F)) false),
    ((fun '(from, to, w) => (from, to, rd w)) <$> F).
  split_and!.
  - by rewrite String.eqb_refl.
  - apply extract_int_TInt. unfold INT_MIN. lia.
  - apply extract_int_TInt. unfold INT_MIN. lia.
  - done.
  - rewrite Hm. rewrite <- (app_nil_r (concat _)). by apply read_entries_lines.
  - unfold F. rewrite entries_of_fmap. cbn [nodes]. rewrite resize_nodes_nil.
    symmetry. by apply rebuild_fresh.
Qed.

Lemma X5_save_then_load_witness :
  ∃ fs', saveToFile (fun w => match w with Fin q => TDec q | PInf => TWord end)
           (fun _ => true) (shared_fs [] 0) "out.txt" (load_graph two_components_file)
         = Some (true, fs') ∧
         loadFromFile fs' "out.txt" Graph_default
         = Ok (true, stored_form (fun w => w) (load_graph two_components_file)).
Proof.
  apply (X5_save_then_load (fun w => match w with Fin q => TDec q | PInf => TWord end)
           (fun w => w) (fun _ => true) (shared_fs [] 0) "out.txt"
           (load_graph two_components_file)).
  - apply (bool_decide_unpack _). by vm_compute.
  - by vm_compute.
  - by vm_compute.
  - reflexivity.
  - vm_compute. repeat constructor.
Defined.

(** ** The broadcast of a graph *)

Lemma mapM_fmap_total {A B} (f : A → option B) (h : A → B) l :
  (∀ x, x ∈ l → f x = Some (h x)) → mapM f l = Some (h <$> l).
Proof.
  intros H. apply mapM_Some. apply Forall2_fmap_r, Forall_Forall2_diag, Forall_forall.
  intros x Hx. by apply H.
Qed.

Lemma lookup_zip_ranks {A} (l : list A) i :
  zip (seqZ 0 (Z.of_nat (length l))) l !! i = (fun x => (Z.of_nat i, x)) <$> l !! i.
Proof.
  rewrite list.lookup_zip_with.
  destruct (l !! i) as [x|] eqn:E.
  - apply lookup_lt_Some in E as Hi. rewrite lookup_seqZ_lt by lia. done.
  - by destruct (seqZ _ _ !! i).
Qed.

(** X6. After [broadcastGraphData], every process that started with a fresh
    [Graph] object holds the graph of the root as a file would carry it: the
    same counts and, for every node, the same adjacency list; the
    coordinates stay behind. The graph of the root is left as it was. *)
Theorem X6_broadcast_replicates (graphs : list Graph) (rootRank : Z) (root : Graph) :
  vget graphs rootRank = Some root → Graph_inv root →
  (∀ r g, vget graphs r = Some g → r ≠ rootRank → g = Graph_default) →
  ∃ graphs', broadcastGraphData graphs rootRank = Some graphs' ∧
    length graphs' = length graphs ∧
    vget graphs' rootRank = Some root ∧
    ∀ r g', vget graphs' r = Some g' → r ≠ rootRank →
      g' = stored_form (fun w => w) root ∧
      nodeCount g' = nodeCount root ∧ edgeCount g' = edgeCount root ∧
      ∀ u, getAdjacencyList g' u = getAdjacencyList root u.
Proof.
  intros Hroot Hinv Hfresh. pose proof Hinv as [Hwf _].
  pose proof Hwf as (Hn & Hlen & _).
  unfold broadcastGraphData. rewrite Hroot. simpl. unfold getNodeCount.
  pose proof (flatten_edges_entries root (nodes root) [] eq_refl) as Hfl.
  change (Z.of_nat (length [])) with 0 in Hfl.
  rewrite Hlen, Z2Nat.id in Hfl by done. rewrite Hfl. simpl.
  set (h := fun '(myRank, graph) =>
              if myRank =? rootRank then graph : Graph
              else stored_form (fun w => w) root).
  exists (h <$> zip (seqZ 0 (Z.of_nat (length graphs))) graphs).
  assert (Hlook : ∀ r g',
            vget (h <$> zip (seqZ 0 (Z.of_nat (length graphs))) graphs) r = Some g' →
            ∃ g, vget graphs r = Some g ∧ g' = h (r, g)).
  { intros r g' H. apply vget_Some in H as [Hr H].
    rewrite list_lookup_fmap, lookup_zip_ranks in H.
    destruct (graphs !! Z.to_nat r) as [g|] eqn:E; [|done]. simpl in H.
    rewrite Z2Nat.id in H by done. exists g. split; [|by simplify_eq].
    by apply vget_Some. }
  split_and!.
  - apply mapM_fmap_total. intros [r g] Hin.
    apply list_elem_of_lookup in Hin as [i Hi]. rewrite lookup_zip_ranks in Hi.
    destruct (graphs !! i) as [g0|] eqn:E; [|done]. simpl in Hi. simplify_eq.
    unfold h. destruct (Z.eqb_spec (Z.of_nat i) rootRank) as [Heq|Hne]; [done|].
    assert (g = Graph_default) as ->.
    { apply (Hfresh (Z.of_nat i)); [|done]. apply vget_Some. split; [lia|].
      by rewrite Nat2Z.id. }
    rewrite setNodeCount_default by done. by rewrite rebuild_fresh.
  - rewrite length_fmap, length_zip, length_seqZ. lia.
  - pose proof (vget_range _ _ _ Hroot) as Hr. apply vget_Some. split; [lia|].
    rewrite list_lookup_fmap, lookup_zip_ranks.
    apply vget_Some in Hroot as [_ ->]. simpl. rewrite Z2Nat.id by lia.
    by rewrite Z.eqb_refl.
  - intros r g' Hg' Hne. destruct (Hlook r g' Hg') as (g & Hg & ->).
    unfold h. rewrite (proj2 (Z.eqb_neq r rootRank)) by done.
    split_and!; [done | done | done |]. apply stored_form_adjacency.
Qed.

Lemma X6_broadcast_replicates_witness :
  ∃ graphs',
    broadcastGraphData [Graph_default; load_graph scenario_a_file; Graph_default] 1
    = Some graphs' ∧
    length graphs' = length [Graph_default; load_graph scenario_a_file; Graph_default] ∧
    vget graphs' 1 = Some (load_graph scenario_a_file) ∧
    ∀ r g', vget graphs' r = Some g' → r ≠ 1 →
      g' = stored_form (fun w => w) (load_graph scenario_a_file) ∧
      nodeCount g' = nodeCount (load_graph scenario_a_file) ∧
      edgeCount g' = edgeCount (load_graph scenario_a_file) ∧
      ∀ u, getAdjacencyList g' u = getAdjacencyList (load_graph scenario_a_file) u.
Proof.
  apply (X6_broadcast_replicates
           [Graph_default; load_graph scenario_a_file; Graph_default] 1
           (load_graph scenario_a_file)).
  - reflexivity.
  - apply (bool_decide_unpack _). by vm_compute.
  - intros r g H Hr. unfold vget in H. destruct (r <? 0); [done|].
    destruct (Z.to_nat r) as [|[|[|k]]] eqn:E; simpl in H; try by simplify_eq.
    lia.
Defined.

(** ** Walks on integer weights *)

Lemma has_edge_integer B g u e :
  integer_weights B g → has_edge g u e →
  ∃ z, deq (weight e) (Fin (inject_Z z)) ∧ - B ≤ z ≤ B.
Proof.
  intros Hi (es & Hes & Hin). unfold getAdjacencyList in Hes.
  destruct (vget (nodes g) u) as [nd|] eqn:E; [|done]. simpl in Hes. simplify_eq.
  apply vget_Some in E as [_ E]. unfold integer_weights in Hi.
  rewrite Forall_lookup in Hi. specialize (Hi _ _ E).
  rewrite Forall_forall in Hi. by apply Hi.
Qed.

Lemma integer_weights_finite B g : integer_weights B g → finite_weights g.
Proof.
  unfold integer_weights, finite_weights. intros H.
  eapply Forall_impl; [exact H|]. intros nd H'.
  eapply Forall_impl; [exact H'|]. intros e (z & Hz & _) E. rewrite E in Hz.
  destruct Hz as [Hz _]. by apply dle_PInf_inv in Hz.
Qed.

(** The weight of a walk on integer weights is an integer, within [B] times
    the number of its edges. *)
Lemma walk_weight_integer B g s v es :
  integer_weights B g → walk g s v es →
  ∃ z, deq (walk_weight es) (Fin (inject_Z z)) ∧
       - (Z.of_nat (length es) * B) ≤ z ≤ Z.of_nat (length es) * B.
Proof.
  intros Hi. induction 1 as [Hs | u es e Hw IH He].
  - exists 0. split; [split; apply dle_refl | simpl; lia].
  - destruct IH as (z & Hz & Hb).
    destruct (has_edge_integer B g u e Hi He) as (z' & Hz' & Hb').
    exists (z + z'). rewrite walk_weight_snoc, length_app. split.
    + destruct (walk_weight es) as [p|]; [|destruct Hz as [Hz _]; by apply dle_PInf_inv in Hz].
      destruct (weight e) as [q|]; [|destruct Hz' as [Hz' _]; by apply dle_PInf_inv in Hz'].
      destruct Hz as [H1 H2], Hz' as [H3 H4]. apply dle_Fin in H1, H2, H3, H4.
      simpl. rewrite inject_Z_plus. split; apply dle_Fin; lra.
    + simpl. lia.
Qed.

(** Where walks of fewer than [nodeCount] edges suffice, a shortest
    distance on integer weights is infinite or an integer within
    [nodeCount * B]. *)
Lemma shortest_distance_integer B g s t d :
  Graph_wf g → 0 ≤ B → integer_weights B g →
  shortcut g s (Z.to_nat (nodeCount g - 1)) →
  shortest_distance g s t d →
  d = PInf ∨ ∃ z, deq d (Fin (inject_Z z)) ∧
                  - (nodeCount g * B) ≤ z ≤ nodeCount g * B.
Proof.
  intros Hwf HB Hi Hsc [Hlb [-> | (es & Hw & <-)]]; [by left | right].
  destruct (Hsc t es Hw) as (es' & Hw' & Hlen & Hle).
  destruct (walk_weight_integer B g s t es' Hi Hw') as (z & Hz & Hb).
  exists z. split.
  - destruct Hz as [H1 H2]. split.
    + eapply dle_trans; [by apply Hlb | done].
    + eapply dle_trans; [exact H2 | done].
  - pose proof (walk_start_range g s t es' Hw') as Hs. nia.
Qed.

(** ** The list queue is a priority queue *)

Lemma PQElement_gt_false x y : PQElement_gt x y = false ↔ dle (fScore x) (fScore y).
Proof. done. Qed.

Lemma extract_min_spec q :
  match extract_min q with
  | None => q = []
  | Some (x, r) => q ≡ₚ x :: r ∧ Forall (fun y => PQElement_gt x y = false) r
  end.
Proof.
  induction q as [|x q IH]; simpl; [done|].
  destruct (extract_min q) as [[y r]|].
  - destruct IH as [Hp Hmin]. destruct (PQElement_gt y x) eqn:E.
    + split; [done|]. rewrite Hp. unfold PQElement_gt in E. constructor.
      * apply PQElement_gt_false. by apply dlt_dle.
      * eapply Forall_impl; [exact Hmin|]. intros z Hz. simpl in *.
        apply PQElement_gt_false. apply PQElement_gt_false in Hz.
        eapply dle_trans; [by apply dlt_dle | done].
    + split; [rewrite Hp; apply perm_swap|]. by constructor.
  - subst q. split; [done | constructor].
Qed.

Lemma list_queue_laws : PriorityQueueLaws (list PQElement).
Proof.
  split; simpl.
  - done.
  - done.
  - intros q. pose proof (extract_min_spec q) as H.
    destruct (extract_min q) as [[x r]|]; [|done].
    split; [done|]. intros ->. destruct H as [H _].
    by apply Permutation_nil_cons in H.
  - intros q x q' E. pose proof (extract_min_spec q) as H. by rewrite E in H.
Qed.

(** ** The cut argument of Dijkstra's algorithm *)

(** If the edges out of the nodes of [R] are relaxed and no node outside [R]
    is nearer than [t], no walk to [t] is shorter than the entry of [t]. *)
Lemma dijkstra_cut g s t d (R : list Z) :
  nonneg_weights g → dle (dget d s) zero →
  (∀ u e, u ∈ R → has_edge g u e →
     dle (dget d (destination e)) (dadd (dget d u) (weight e))) →
  (∀ v, v ∉ R → dle (dget d t) (dget d v)) →
  ∀ es, walk g s t es → dle (dget d t) (walk_weight es).
Proof.
  intros Hnn Hs Hrel Hout.
  assert (H : ∀ v es, walk g s v es →
            dle (dget d t) (walk_weight es) ∨ (v ∈ R ∧ dle (dget d v) (walk_weight es))).
  { intros v es Hw. induction Hw as [Hr | u es e Hw IH He].
    - destruct (decide (s ∈ R)) as [Hin|Hout'].
      + right. by split.
      + left. eapply dle_trans; [by apply Hout | done].
    - rewrite walk_weight_snoc. destruct IH as [IH | [Hu IH]].
      + left. eapply dle_trans; [exact IH|]. apply dadd_nonneg.
        by eapply has_edge_nonneg.
      + assert (Hv : dle (dget d (destination e)) (dadd (walk_weight es) (weight e))).
        { eapply dle_trans; [by apply Hrel | by apply dadd_mono]. }
        destruct (decide (destination e ∈ R)) as [Hin|Hout'].
        * right. by split.
        * left. eapply dle_trans; [by apply Hout | done]. }
  intros es Hw. destruct (H t es Hw) as [H1 | [_ H1]]; done.
Qed.

(** ** Counting the edges that are left *)

Lemma pending_all g :
  Graph_wf g →
  pending_edges g [] = length (concat (Node.adjacencyList <$> nodes g)).
Proof.
  intros (Hn & Hlen & _). unfold pending_edges. do 2 f_equal.
  rewrite filter_all by (apply Forall_forall; intros u _; apply not_elem_of_nil).
  apply list_eq. intros i. rewrite !list_lookup_fmap.
  destruct (nodes g !! i) as [nd|] eqn:E.
  - apply lookup_lt_Some in E as Hi. rewrite lookup_seqZ_lt by lia.
    rewrite Z.add_0_l. simpl.
    rewrite (getAdjacencyList_lookup g i nd E). done.
  - apply lookup_ge_None in E. rewrite lookup_seqZ_ge by lia. done.
Qed.

Lemma filter_ext_in {A} (P Q : A → Prop) `{∀ x, Decision (P x)} `{∀ x, Decision (Q x)}
    (l : list A) :
  (∀ x, x ∈ l → P x ↔ Q x) → filter P l = filter Q l.
Proof.
  induction l as [|a l IH]; intros Hext; [done|].
  rewrite !filter_cons.
  assert (Ha : P a ↔ Q a) by (apply Hext; by left).
  rewrite IH by (intros x Hx; apply Hext; by right).
  destruct (decide (P a)), (decide (Q a)); tauto.
Qed.

Lemma pending_split_list (f : Z → list Edge) order cur l :
  NoDup l → cur ∈ l → cur ∉ order →
  length (concat (f <$> filter (fun u => u ∉ order) l)) =
  (length (f cur) + length (concat (f <$> filter (fun u => u ∉ cur :: order) l)))%nat.
Proof.
  induction l as [|a l IH]; intros Hnd Hin Hout; [by apply elem_of_nil in Hin|].
  apply NoDup_cons in Hnd as [Ha Hnd]. rewrite !filter_cons.
  destruct (decide (a = cur)) as [->|Hne].
  - rewrite decide_True by done. rewrite decide_False by (intros H; apply H; by left).
    csimpl. rewrite length_app. do 4 f_equal.
    apply filter_ext_in. intros x Hx. rewrite not_elem_of_cons.
    split; [|tauto]. intros ?. split; [|done]. by intros ->.
  - apply elem_of_cons in Hin as [->|Hin]; [done|]. specialize (IH Hnd Hin Hout).
    destruct (decide (a ∉ order)) as [Hao|Hao].
    + rewrite decide_True by (rewrite not_elem_of_cons; tauto).
      csimpl. rewrite !length_app, IH. lia.
    + rewrite decide_False by (rewrite not_elem_of_cons; tauto). done.
Qed.

Lemma pending_split g order cur es :
  0 ≤ cur < nodeCount g → cur ∉ order → getAdjacencyList g cur = Some es →
  pending_edges g order = (length es + pending_edges g (cur :: order))%nat.
Proof.
  intros Hc Hout Hes. unfold pending_edges.
  rewrite (pending_split_list _ order cur); [by rewrite Hes | apply NoDup_seqZ | | done].
  apply elem_of_seqZ. lia.
Qed.

Lemma vget_insert {A} (l : list A) v x i :
  0 ≤ v < Z.of_nat (length l) →
  vget (<[Z.to_nat v := x]> l) i = if decide (i = v) then Some x else vget l i.
Proof.
  intros Hv. assert (Hs : vset l v x = Some (<[Z.to_nat v := x]> l)) by (by apply vset_Some).
  destruct (decide (i = v)) as [->|Hne].
  - by eapply vget_vset_eq.
  - by erewrite vget_vset_ne.
Qed.

Lemma dle_deq_l a b c : deq a b → dle b c → dle a c.
Proof. intros [H _] ?. by eapply dle_trans. Qed.

Lemma dle_deq_r a b c : dle a b → deq b c → dle a c.
Proof. intros ? [H _]. by eapply dle_trans. Qed.

Lemma dlt_finite a b : dlt a b = true → a ≠ PInf.
Proof. by destruct a. Qed.

Lemma dadd_zero_r a : deq (dadd a zero) a.
Proof.
  destruct a as [p|]; simpl; [|split; apply dle_refl].
  split; apply dle_Fin; lra.
Qed.

Lemma NoDup_split_unique {A} (v : A) l1 : ∀ l2 m1 m2,
  NoDup (l1 ++ v :: l2) → l1 ++ v :: l2 = m1 ++ v :: m2 → l2 = m2.
Proof.
  induction l1 as [|a l1 IH]; intros l2 m1 m2 Hnd E.
  - destruct m1 as [|a' m1]; simpl in *; [by simplify_eq|].
    injection E as <- ->. apply NoDup_cons in Hnd as [Hn _].
    exfalso. apply Hn. apply elem_of_app. right. by left.
  - destruct m1 as [|a' m1]; simpl in *.
    + injection E as -> <-. apply NoDup_cons in Hnd as [Hn _].
      exfalso. apply Hn. apply elem_of_app. right. by left.
    + injection E as <- E. apply NoDup_cons in Hnd as [_ Hnd]. by eapply IH.
Qed.

Lemma has_edge_finite g u e : finite_weights g → has_edge g u e → weight e ≠ PInf.
Proof.
  intros Hfw (es & Hes & Hin). unfold getAdjacencyList in Hes.
  destruct (vget (nodes g) u) as [nd|] eqn:E; [|done]. simpl in Hes. simplify_eq.
  apply vget_Some in E as [_ E]. unfold finite_weights in Hfw.
  rewrite Forall_lookup in Hfw. specialize (Hfw _ _ E).
  rewrite Forall_forall in Hfw. by apply Hfw.
Qed.

Lemma walk_weight_finite g s v es :
  finite_weights g → walk g s v es → walk_weight es ≠ PInf.
Proof.
  intros Hfw. induction 1 as [|u es e Hw IH He]; [done|].
  rewrite walk_weight_snoc. pose proof (has_edge_finite g u e Hfw He).
  destruct (walk_weight es), (weight e); done.
Qed.

(** ** The invariant of the sequential search *)

Section SearchCorrect.
Context {PQ : Type} `{!PriorityQueue PQ} `{!PriorityQueueLaws PQ}.
Context (g : Graph) (s : Z) (fscore : Z → double → option double).
Context (Hwf : Graph_wf g) (Hnn : nonneg_weights g).
Context (Hs : 0 ≤ s < nodeCount g).
Context (Hf : ∀ v d, 0 ≤ v < nodeCount g → ∃ f, fscore v d = Some f ∧ deq f d).

Lemma inv_order_range order cur todo b st v :
  search_inv g s order cur todo b st → v ∈ order → 0 ≤ v < nodeCount g.
Proof.
  intros I Hv. apply (inv_marked _ _ _ _ _ _ _ I) in Hv. apply vget_range in Hv.
  rewrite (inv_visited _ _ _ _ _ _ _ I) in Hv. destruct Hwf as (? & _). lia.
Qed.

(** No marked node is farther than a node that is not marked. *)
Lemma inv_order_le order cur todo b st u v :
  search_inv g s order cur todo b st → u ∈ order → v ∉ order →
  dle (dget (Sequential.distances st) u) (dget (Sequential.distances st) v).
Proof.
  intros I Hu Hv.
  destruct (decide (0 ≤ v < nodeCount g)) as [Hr|Hr].
  - destruct (dget (Sequential.distances st) v) as [q|] eqn:E; [|auto with dbl].
    destruct (inv_queued _ _ _ _ _ _ _ I v Hr Hv) as (x & Hx & _ & Hle);
      [by rewrite E|].
    rewrite E in Hle. eapply dle_trans; [|exact Hle]. by eapply inv_queue_above.
  - rewrite (dget_out _ v); [auto with dbl|].
    rewrite (inv_distances _ _ _ _ _ _ _ I). destruct Hwf as (? & _). lia.
Qed.

(** One edge of the inner loop. *)
Lemma relax_inv order cur e todo b st :
  search_inv g s order cur (e :: todo) b st →
  ∃ st', Sequential.relax fscore cur st e = Some st' ∧
         search_inv g s order cur todo b st'.
Proof.
  intros I.
  assert (Hcur : cur ∈ order) by (by apply (inv_cur _ _ _ _ _ _ _ I)).
  assert (He : has_edge g cur e) by (apply (inv_todo _ _ _ _ _ _ _ I); by left).
  destruct (has_edge_range g cur e Hwf He) as [Hcr Hvr].
  pose proof (inv_distances _ _ _ _ _ _ _ I) as Hld.
  pose proof (inv_predecessors _ _ _ _ _ _ _ I) as Hlp.
  pose proof Hwf as (Hn & _).
  assert (Hcd : 0 ≤ cur < Z.of_nat (length (Sequential.distances st))) by lia.
  assert (Hvd : 0 ≤ destination e < Z.of_nat (length (Sequential.distances st))) by lia.
  assert (Hvp : 0 ≤ destination e < Z.of_nat (length (Sequential.predecessors st))) by lia.
  unfold Sequential.relax. rewrite (vget_dget _ _ Hcd), (vget_dget _ _ Hvd). simpl.
  set (d := Sequential.distances st) in *.
  set (nd := dadd (dget d cur) (weight e)).
  destruct (dlt nd (dget d (destination e))) eqn:Elt.
  - (* the entry of the neighbour drops *)
    destruct (vset_is_Some d (destination e) nd Hvd) as [ds Hds].
    destruct (vset_is_Some (Sequential.predecessors st) (destination e) cur Hvp)
      as [ps Hps].
    destruct (Hf (destination e) nd Hvr) as (f & Hfs & Hfd).
    rewrite Hds, Hps. simpl. rewrite Hfs. simpl.
    apply vset_Some in Hds as [_ ->]. apply vset_Some in Hps as [_ ->].
    eexists. split; [done|].
    assert (Hw : dle zero (weight e)) by (by eapply has_edge_nonneg).
    assert (Hge : dle (dget d cur) nd) by (by apply dadd_nonneg).
    assert (Hnot : destination e ∉ order).
    { intros Hin. eapply dle_dlt_contra; [|exact Elt].
      eapply dle_trans; [by apply (inv_last _ _ _ _ _ _ _ I)|done]. }
    assert (Hns : destination e ≠ s).
    { intros E. eapply dle_dlt_contra; [|exact Elt]. rewrite E.
      unfold d at 1. rewrite (inv_source _ _ _ _ _ _ _ I).
      eapply dle_trans; [apply (inv_nonneg _ _ _ _ _ _ _ I cur) | done]. }
    assert (Hsame : ∀ u, u ∈ order →
              dget (<[Z.to_nat (destination e) := nd]> d) u = dget d u).
    { intros u Hu. rewrite dget_insert by done.
      rewrite decide_False; [done|]. by intros ->. }
    assert (Hdown : ∀ v, dle (dget (<[Z.to_nat (destination e) := nd]> d) v) (dget d v)).
    { intros v. rewrite dget_insert by done. destruct (decide _) as [->|]; [|auto with dbl].
      by apply dlt_dle. }
    split; cbn [Sequential.distances Sequential.predecessors Sequential.visited
                Sequential.pq].
    + by rewrite length_insert.
    + by rewrite length_insert.
    + apply (inv_visited _ _ _ _ _ _ _ I).
    + apply (inv_marked _ _ _ _ _ _ _ I).
    + apply (inv_NoDup _ _ _ _ _ _ _ I).
    + rewrite dget_insert by done. rewrite decide_False by done.
      apply (inv_source _ _ _ _ _ _ _ I).
    + rewrite vget_insert by done. rewrite decide_False by done.
      apply (inv_source_pred _ _ _ _ _ _ _ I).
    + intros v. rewrite dget_insert by done. destruct (decide _); [|apply I].
      eapply dle_trans; [apply (inv_nonneg _ _ _ _ _ _ _ I cur) | done].
    + intros v Hv Hvs. rewrite dget_insert, vget_insert by done.
      destruct (decide (v = destination e)) as [->|Hne].
      * right. exists cur, e. split_and!; [done | done | done | done | | done].
        by rewrite (Hsame cur Hcur).
      * destruct (inv_tree _ _ _ _ _ _ _ I v Hv Hvs)
          as [[H1 H2] | (u & e' & H1 & H2 & H3 & H4 & H5 & H6)]; [by left|].
        right. exists u, e'. split_and!; try done. by rewrite (Hsame u H2).
    + intros u e' Hu He'.
      destruct (inv_relaxed _ _ _ _ _ _ _ I u e' Hu He') as [[-> Hin] | Hrel].
      * apply elem_of_cons in Hin as [-> | Hin]; [|left; by split].
        right. rewrite (Hsame cur Hcur). rewrite dget_insert by done.
        rewrite decide_True by done. apply dle_refl.
      * right. rewrite (Hsame u Hu). eapply dle_trans; [apply Hdown | done].
    + intros u x Hu Hx. rewrite (Hsame u Hu).
      rewrite pq_push_elements in Hx. apply elem_of_cons in Hx as [-> | Hx].
      * simpl. eapply dle_deq_r; [|apply (conj (proj2 Hfd) (proj1 Hfd))].
        eapply dle_trans; [by apply (inv_last _ _ _ _ _ _ _ I) | done].
      * by apply (inv_queue_above _ _ _ _ _ _ _ I).
    + intros x Hx. rewrite pq_push_elements in Hx. apply elem_of_cons in Hx as [-> | Hx].
      * simpl. rewrite dget_insert by done. rewrite decide_True by done.
        split_and!; [lia | lia | apply Hfd | by eapply dlt_finite].
      * destruct (inv_queue _ _ _ _ _ _ _ I x Hx) as (H1 & H2 & H3).
        split_and!; [lia | lia | by eapply dle_trans; [apply Hdown|] |].
        rewrite dget_insert by done. destruct (decide _); [by eapply dlt_finite | done].
    + intros v Hv Hvo. rewrite dget_insert by done.
      destruct (decide (v = destination e)) as [->|Hne]; intros Hfin.
      * exists (mkPQElement (destination e) nd f). split_and!; [|done|apply Hfd].
        rewrite pq_push_elements. by left.
      * destruct (inv_queued _ _ _ _ _ _ _ I v Hv Hvo Hfin) as (x & Hx & H1 & H2).
        exists x. split_and!; [|done|done]. rewrite pq_push_elements. by right.
    + intros v Hv. rewrite (Hsame v Hv). by apply (inv_finite _ _ _ _ _ _ _ I).
    + intros u Hu. rewrite (Hsame u Hu), (Hsame cur Hcur).
      by apply (inv_last _ _ _ _ _ _ _ I).
    + intros e' He'. apply (inv_todo _ _ _ _ _ _ _ I). by right.
    + done.
    + pose proof (inv_budget _ _ _ _ _ _ _ I) as Hb. simpl in Hb.
      rewrite pq_push_elements. simpl. lia.
  - (* no improvement *)
    eexists. split; [done|].
    split; try apply I.
    + intros u e' Hu He'.
      destruct (inv_relaxed _ _ _ _ _ _ _ I u e' Hu He') as [[-> Hin] | Hrel]; [|by right].
      apply elem_of_cons in Hin as [-> | Hin]; [right | left; by split].
      by apply Elt.
    + intros e' He'. apply (inv_todo _ _ _ _ _ _ _ I). by right.
    + done.
    + pose proof (inv_budget _ _ _ _ _ _ _ I) as Hb. simpl in Hb. lia.
Qed.

(** The inner loop. *)
Lemma explore_inv order cur b todo : ∀ st,
  search_inv g s order cur todo b st →
  ∃ st', Sequential.explore fscore cur todo st = Some st' ∧
         search_inv g s order cur [] b st'.
Proof.
  induction todo as [|e todo IH]; intros st I; simpl; [by exists st|].
  destruct (relax_inv _ _ _ _ _ _ I) as (st1 & -> & I1). simpl. by apply IH.
Qed.

Lemma pop_top st x rest :
  pq_pop (Sequential.pq st) = Some (x, rest) →
  pq_elements (Sequential.pq st) ≡ₚ x :: pq_elements rest ∧
  ∀ y, y ∈ pq_elements rest → dle (fScore x) (fScore y).
Proof.
  intros Hpop. destruct (pq_pop_top _ _ _ Hpop) as [Hp Hmin]. split; [done|].
  intros y Hy. rewrite Forall_forall in Hmin. by apply PQElement_gt_false, Hmin.
Qed.

(** An element whose node is marked already is dropped. *)
Lemma skip_inv order cur b st x rest :
  search_inv g s order cur [] b st →
  pq_pop (Sequential.pq st) = Some (x, rest) → nodeId x ∈ order →
  ∃ b', b = S b' ∧
    search_inv g s order cur [] b'
      (Sequential.mk (Sequential.distances st) (Sequential.predecessors st)
         (Sequential.visited st) rest (Sequential.nodesProcessed st)).
Proof.
  intros I Hpop Hxo. destruct (pop_top _ _ _ Hpop) as [Hp Hmin].
  pose proof (inv_budget _ _ _ _ _ _ _ I) as Hb. rewrite Hp in Hb. simpl in Hb.
  destruct b as [|b']; [lia|]. exists b'. split; [done|].
  assert (Hin : ∀ y, y ∈ pq_elements rest → y ∈ pq_elements (Sequential.pq st)).
  { intros y Hy. rewrite Hp. by right. }
  split; cbn [Sequential.distances Sequential.predecessors Sequential.visited
              Sequential.pq]; try apply I.
  - intros u y Hu Hy. apply (inv_queue_above _ _ _ _ _ _ _ I); [done | by apply Hin].
  - intros y Hy. by apply (inv_queue _ _ _ _ _ _ _ I), Hin.
  - intros v Hv Hvo Hfin.
    destruct (inv_queued _ _ _ _ _ _ _ I v Hv Hvo Hfin) as (y & Hy & H1 & H2).
    exists y. split_and!; [|done|done].
    rewrite Hp in Hy. apply elem_of_cons in Hy as [-> | Hy]; [|done].
    by rewrite H1 in Hxo.
  - simpl. lia.
Qed.

(** An element whose node is not marked yet: the node is marked, and its
    edges are to be relaxed. Its entry is final. *)
Lemma mark_inv order cur b st x rest es :
  search_inv g s order cur [] b st →
  pq_pop (Sequential.pq st) = Some (x, rest) → nodeId x ∉ order →
  getAdjacencyList g (nodeId x) = Some es →
  ∃ b', b = S b' ∧
    search_inv g s (nodeId x :: order) (nodeId x) es b'
      (Sequential.mk (Sequential.distances st) (Sequential.predecessors st)
         (<[Z.to_nat (nodeId x) := true]> (Sequential.visited st)) rest
         (Sequential.nodesProcessed st + 1)).
Proof.
  intros I Hpop Hxo Hes. destruct (pop_top _ _ _ Hpop) as [Hp Hmin].
  pose proof (inv_budget _ _ _ _ _ _ _ I) as Hb. rewrite Hp in Hb. simpl in Hb.
  destruct b as [|b']; [lia|]. exists b'. split; [done|].
  assert (Hin : ∀ y, y ∈ pq_elements rest → y ∈ pq_elements (Sequential.pq st)).
  { intros y Hy. rewrite Hp. by right. }
  assert (Hx : x ∈ pq_elements (Sequential.pq st)) by (rewrite Hp; by left).
  destruct (inv_queue _ _ _ _ _ _ _ I x Hx) as (Hxr & Hxle & Hxfin).
  pose proof (inv_visited _ _ _ _ _ _ _ I) as Hlv. pose proof Hwf as (Hn & _).
  assert (Hxv : 0 ≤ nodeId x < Z.of_nat (length (Sequential.visited st))) by lia.
  assert (Hlast : ∀ u, u ∈ nodeId x :: order →
            dle (dget (Sequential.distances st) u)
                (dget (Sequential.distances st) (nodeId x))).
  { intros u [-> | Hu]%elem_of_cons; [apply dle_refl|]. by eapply inv_order_le. }
  split; cbn [Sequential.distances Sequential.predecessors Sequential.visited
              Sequential.pq]; try apply I.
  - by rewrite length_insert.
  - intros v. rewrite vget_insert by done. rewrite elem_of_cons.
    destruct (decide (v = nodeId x)) as [->|Hne].
    + split; [by left | done].
    + rewrite (inv_marked _ _ _ _ _ _ _ I). split; [by right | by intros [? | ?]].
  - apply NoDup_cons. split; [done | apply I].
  - intros v Hv Hvs.
    destruct (inv_tree _ _ _ _ _ _ _ I v Hv Hvs)
      as [[H1 H2] | (u & e & H1 & H2 & H3 & H4 & H5 & H6)]; [by left|].
    right. exists u, e. split_and!; [done | by right | done | done | done |].
    intros [-> | Hvo]%elem_of_cons.
    + exists [], order. by split.
    + destruct (H6 Hvo) as (l1 & l2 & -> & Hu). exists (nodeId x :: l1), l2. by split.
  - intros u e [-> | Hu]%elem_of_cons He.
    + left. split; [done|]. destruct He as (es' & Hes' & He). by simplify_eq.
    + destruct (inv_relaxed _ _ _ _ _ _ _ I u e Hu He) as [[_ Hn'] | Hrel]; [|by right].
      by apply elem_of_nil in Hn'.
  - intros u y [-> | Hu]%elem_of_cons Hy.
    + eapply dle_trans; [exact Hxle | by apply Hmin].
    + apply (inv_queue_above _ _ _ _ _ _ _ I); [done | by apply Hin].
  - intros y Hy. by apply (inv_queue _ _ _ _ _ _ _ I), Hin.
  - intros v Hv Hvo Hfin. apply not_elem_of_cons in Hvo as [Hne Hvo].
    destruct (inv_queued _ _ _ _ _ _ _ I v Hv Hvo Hfin) as (y & Hy & H1 & H2).
    exists y. split_and!; [|done|done].
    rewrite Hp in Hy. apply elem_of_cons in Hy as [-> | Hy]; [|done]. done.
  - intros v [-> | Hv]%elem_of_cons; [done | by apply (inv_finite _ _ _ _ _ _ _ I)].
  - exact Hlast.
  - intros e He. by exists es.
  - intros _. by left.
  - rewrite (pending_split g order (nodeId x) es Hxr Hxo Hes) in Hb. lia.
Qed.

Context (t : Z).

(** The loop ends with an empty queue. *)
Lemma final_empty order cur b st :
  search_inv g s order cur [] b st → pq_elements (Sequential.pq st) = [] →
  (∀ es, walk g s t es → dle (dget (Sequential.distances st) t) (walk_weight es)) ∧
  (dget (Sequential.distances st) t ≠ PInf → t ∈ order).
Proof.
  intros I Hq.
  assert (Hinf : ∀ v, v ∉ order → dget (Sequential.distances st) v = PInf).
  { intros v Hv. destruct (decide (0 ≤ v < nodeCount g)) as [Hr|Hr].
    - destruct (dget (Sequential.distances st) v) as [q|] eqn:E; [|done].
      destruct (inv_queued _ _ _ _ _ _ _ I v Hr Hv) as (x & Hx & _); [by rewrite E|].
      rewrite Hq in Hx. by apply elem_of_nil in Hx.
    - apply dget_out. rewrite (inv_distances _ _ _ _ _ _ _ I).
      destruct Hwf as (? & _). lia. }
  split.
  - apply (dijkstra_cut g s t _ order); [done | | |].
    + rewrite (inv_source _ _ _ _ _ _ _ I). apply dle_refl.
    + intros u e Hu He.
      destruct (inv_relaxed _ _ _ _ _ _ _ I u e Hu He) as [[_ Hn] | H]; [|done].
      by apply elem_of_nil in Hn.
    + intros v Hv. rewrite (Hinf v Hv). auto with dbl.
  - intros Hfin. destruct (decide (t ∈ order)) as [|Hn]; [done|].
    by rewrite (Hinf t Hn) in Hfin.
Qed.

(** The loop ends at the destination. *)
Lemma final_break order es b st :
  search_inv g s (t :: order) t es b st →
  ∀ es', walk g s t es' → dle (dget (Sequential.distances st) t) (walk_weight es').
Proof.
  intros I. pose proof (inv_NoDup _ _ _ _ _ _ _ I) as Hnd.
  apply NoDup_cons in Hnd as [Hto _].
  apply (dijkstra_cut g s t _ order); [done | | |].
  - rewrite (inv_source _ _ _ _ _ _ _ I). apply dle_refl.
  - intros u e Hu He.
    assert (Hu' : u ∈ t :: order) by (by right).
    destruct (inv_relaxed _ _ _ _ _ _ _ I u e Hu' He) as [[-> _] | H]; done.
  - intros v Hv. destruct (decide (v = t)) as [->|Hne]; [apply dle_refl|].
    eapply inv_order_le; [exact I | by left |].
    by intros [-> | ?]%elem_of_cons.
Qed.

(** The state in which the loop ends: the invariant, the entry of the
    destination is below every walk, and a destination with a finite entry
    is marked. *)
Lemma search_loop_spec : ∀ fuel b st order cur,
  search_inv g s order cur [] b st → (b ≤ fuel)%nat →
  ∃ st' order' cur' todo b',
    Sequential.loop g fscore t fuel st = Some st' ∧
    search_inv g s order' cur' todo b' st' ∧
    (∀ es, walk g s t es → dle (dget (Sequential.distances st') t) (walk_weight es)) ∧
    (dget (Sequential.distances st') t ≠ PInf → t ∈ order').
Proof.
  induction fuel as [|fuel IH]; intros b st order cur I Hb.
  - simpl. destruct (pq_pop (Sequential.pq st)) as [[x rest]|] eqn:Hpop.
    + destruct (pop_top _ _ _ Hpop) as [Hp _].
      pose proof (inv_budget _ _ _ _ _ _ _ I) as Hb'. rewrite Hp in Hb'. simpl in Hb'. lia.
    + apply pq_pop_empty in Hpop. exists st, order, cur, [], b.
      destruct (final_empty _ _ _ _ I Hpop). by split_and!.
  - cbn [Sequential.loop]. destruct (pq_pop (Sequential.pq st)) as [[x rest]|] eqn:Hpop.
    2:{ apply pq_pop_empty in Hpop. exists st, order, cur, [], b.
        destruct (final_empty _ _ _ _ I Hpop). by split_and!. }
    destruct (pop_top _ _ _ Hpop) as [Hp _].
    assert (Hx : x ∈ pq_elements (Sequential.pq st)) by (rewrite Hp; by left).
    destruct (inv_queue _ _ _ _ _ _ _ I x Hx) as (Hxr & _).
    pose proof (inv_visited _ _ _ _ _ _ _ I) as Hlv. pose proof Hwf as (Hn & _).
    assert (Hxv : 0 ≤ nodeId x < Z.of_nat (length (Sequential.visited st))) by lia.
    destruct (vget_is_Some _ _ Hxv) as [seen Hseen]. rewrite Hseen. simpl.
    destruct seen.
    + apply (inv_marked _ _ _ _ _ _ _ I) in Hseen.
      destruct (skip_inv _ _ _ _ _ _ I Hpop Hseen) as (b' & -> & I').
      apply (IH b' _ order cur I'). lia.
    + assert (Hxo : nodeId x ∉ order).
      { intros Hin. apply (inv_marked _ _ _ _ _ _ _ I) in Hin. congruence. }
      destruct (vset_is_Some (Sequential.visited st) (nodeId x) true Hxv) as [vs Hvs].
      rewrite Hvs. simpl. apply vset_Some in Hvs as [_ ->].
      destruct (getAdjacencyList_is_Some g (nodeId x) Hwf Hxr) as [es Hes].
      destruct (mark_inv _ _ _ _ _ _ _ I Hpop Hxo Hes) as (b' & -> & I1).
      destruct (Z.eqb_spec (nodeId x) t) as [Heq|Hne].
      * rewrite Heq in I1. eexists _, (t :: order), t, es, b'.
        split_and!; [by rewrite Heq | done | by eapply final_break | intros _; by left].
      * rewrite Hes. simpl.
        destruct (explore_inv _ _ _ _ _ I1) as (st2 & -> & I2). simpl.
        apply (IH b' _ _ _ I2). lia.
Qed.

(** The chain of predecessors of a marked node leads back to the source
    along a walk whose length is the entry of the node. *)
Lemma trace_spec order cur todo b st :
  search_inv g s order cur todo b st →
  ∀ (k : nat) v l1 l2, order = l1 ++ v :: l2 → (length l2 ≤ k)%nat →
    ∃ es, walk g s v es ∧ walk_weight es = dget (Sequential.distances st) v ∧
      ∀ fuel acc, (k < fuel)%nat →
        Sequential.trace_back fuel (Sequential.predecessors st) v acc
        = Some (acc ++ reverse (verts s es)).
Proof.
  intros I. pose proof (inv_NoDup _ _ _ _ _ _ _ I) as Hnd.
  induction k as [k IH] using lt_wf_ind. intros v l1 l2 Ho Hk.
  assert (Hv : v ∈ order).
  { rewrite Ho. apply elem_of_app. right. by left. }
  pose proof (inv_order_range _ _ _ _ _ _ I Hv) as Hvr.
  destruct (decide (v = s)) as [->|Hvs].
  - exists []. split_and!; [by constructor | by rewrite (inv_source _ _ _ _ _ _ _ I)|].
    intros fuel acc Hfuel. destruct fuel as [|fuel]; [lia|]. simpl.
    destruct (Z.eqb_spec s (-1)); [lia|].
    rewrite (inv_source_pred _ _ _ _ _ _ _ I). simpl.
    destruct fuel; done.
  - destruct (inv_tree _ _ _ _ _ _ _ I v Hvr Hvs)
      as [[H1 _] | (u & e & Hp & Hu & He & Hd & Hw & Hbefore)].
    { by apply (inv_finite _ _ _ _ _ _ _ I) in Hv. }
    destruct (Hbefore Hv) as (m1 & m2 & Ho' & Hum).
    assert (m2 = l2) as ->.
    { symmetry. eapply NoDup_split_unique; [|by rewrite <- Ho, <- Ho']. by rewrite <- Ho. }
    apply list_elem_of_split in Hum as (n1 & n2 & ->).
    destruct (IH (length n2)) with (v := u) (l1 := l1 ++ v :: n1) (l2 := n2)
      as (es & Hwalk & Hweight & Htrace).
    { rewrite length_app in Hk. simpl in Hk. lia. }
    { by rewrite Ho, <- app_assoc. }
    { done. }
    exists (es ++ [e]). split_and!.
    + rewrite <- Hd. by econstructor.
    + by rewrite walk_weight_snoc, Hweight, Hw.
    + intros fuel acc Hfuel. destruct fuel as [|fuel]; [lia|]. simpl.
      destruct (Z.eqb_spec v (-1)); [lia|]. rewrite Hp. simpl.
      rewrite Htrace by (rewrite length_app in Hk; simpl in Hk; lia).
      rewrite verts_snoc, reverse_app, Hd. simpl. by rewrite <- app_assoc.
Qed.

Lemma order_length order cur todo b st :
  search_inv g s order cur todo b st → (length order ≤ Z.to_nat (nodeCount g))%nat.
Proof.
  intros I. rewrite <- (length_seqZ 0 (nodeCount g)).
  apply submseteq_length, NoDup_submseteq; [apply I|].
  intros v Hv. apply elem_of_seqZ. pose proof (inv_order_range _ _ _ _ _ _ I Hv). lia.
Qed.

(** The state before the loop. *)
Lemma search_init f :
  deq f zero →
  search_inv g s [] s []
    (S (length (concat (Node.adjacencyList <$> nodes g))))
    (Sequential.mk
       (<[Z.to_nat s := zero]> (replicate (Z.to_nat (nodeCount g)) infinity))
       (replicate (Z.to_nat (nodeCount g)) (-1))
       (replicate (Z.to_nat (nodeCount g)) false)
       (pq_push (mkPQElement s zero f) pq_new) 0).
Proof.
  intros Hfz. pose proof Hwf as (Hn & _).
  assert (Hsl : 0 ≤ s < Z.of_nat (length (replicate (Z.to_nat (nodeCount g)) infinity))).
  { rewrite length_replicate. lia. }
  assert (Hget : ∀ v, dget (<[Z.to_nat s := zero]>
                              (replicate (Z.to_nat (nodeCount g)) infinity)) v
                      = if decide (v = s) then zero else PInf).
  { intros v. rewrite dget_insert by done. destruct (decide _); [done|].
    apply dget_replicate. }
  assert (Hq : ∀ x, x ∈ pq_elements (pq_push (mkPQElement s zero f) pq_new) →
               x = mkPQElement s zero f).
  { intros x Hx. rewrite pq_push_elements, pq_new_elements in Hx.
    by apply list_elem_of_singleton in Hx. }
  split; cbn [Sequential.distances Sequential.predecessors Sequential.visited
              Sequential.pq].
  - by rewrite length_insert, length_replicate.
  - by rewrite length_replicate.
  - by rewrite length_replicate.
  - intros v. split; [|by intros ?%elem_of_nil].
    intros H. apply vget_Some in H as [_ H]. by apply lookup_replicate in H as [? _].
  - constructor.
  - rewrite Hget. by rewrite decide_True.
  - apply vget_replicate. lia.
  - intros v. rewrite Hget. destruct (decide _); auto with dbl.
  - intros v Hv Hvs. left. rewrite Hget. rewrite decide_False by done.
    split; [done|]. apply vget_replicate. lia.
  - by intros u e ?%elem_of_nil.
  - by intros u x ?%elem_of_nil.
  - intros x ->%Hq. simpl. rewrite Hget. rewrite decide_True by done.
    split_and!; [lia | lia | apply Hfz | done].
  - intros v Hv _ Hfin. rewrite Hget in Hfin. destruct (decide (v = s)) as [->|]; [|done].
    exists (mkPQElement s zero f). split_and!; [|done|].
    + rewrite pq_push_elements. by left.
    + simpl. rewrite Hget. rewrite decide_True by done. apply Hfz.
  - by intros v ?%elem_of_nil.
  - by intros u ?%elem_of_nil.
  - by intros e ?%elem_of_nil.
  - done.
  - rewrite pq_push_elements, pq_new_elements. rewrite (pending_all g Hwf). simpl. lia.
Qed.

(** The search returns, and what it returns. *)
Lemma search_spec f0 :
  0 ≤ t < nodeCount g → (∃ f, f0 = Some f ∧ deq f zero) →
  ∃ r, Sequential.search g fscore t f0 s = Some r ∧ search_result g s t r.
Proof.
  intros Ht (f & -> & Hfz). pose proof Hwf as (Hn & _).
  unfold Sequential.search, getNodeCount. destruct (Z.ltb_spec (nodeCount g) 0); [lia|].
  destruct (vset_is_Some (replicate (Z.to_nat (nodeCount g)) infinity) s zero) as [ds Hds].
  { rewrite length_replicate. lia. }
  rewrite Hds. cbn [mbind option_bind]. apply vset_Some in Hds as [_ ->].
  destruct (search_loop_spec _ _ _ _ _ (search_init f Hfz) (le_n _))
    as (st & order & cur & todo & b & -> & I & Hlb & Hmark).
  cbn [mbind option_bind]. unfold Sequential.reconstruct.
  pose proof (inv_distances _ _ _ _ _ _ _ I) as Hld.
  rewrite (vget_dget (Sequential.distances st) t) by lia. cbn [mbind option_bind].
  destruct (dget (Sequential.distances st) t) as [q|] eqn:Edt; cbn [is_infinity].
  - (* found *)
    destruct (list_elem_of_split order t) as (l1 & l2 & Ho); [by apply Hmark|].
    destruct (trace_spec _ _ _ _ _ I (length l2) t l1 l2 Ho (le_n _))
      as (es & Hwalk & Hweight & Htrace).
    rewrite (Htrace _ []); simpl.
    2:{ rewrite (inv_predecessors _ _ _ _ _ _ _ I).
        pose proof (order_length _ _ _ _ _ I) as Hlen.
        rewrite Ho, length_app in Hlen. simpl in Hlen. lia. }
    rewrite Edt in Hweight. eexists. split; [done|].
    unfold search_result. simpl. rewrite reverse_involutive.
    split_and!; try done.
    + split; [done|]. right. by exists es.
    + intros _. by exists es.
    + intros Hnr. exfalso. apply Hnr. by exists es.
  - (* not found *)
    eexists. split; [done|]. unfold search_result. simpl.
    split_and!; try done.
    + split; [done | by left].
    + intros Hfw [es Hw]. exfalso. apply (walk_weight_finite g s t es Hfw Hw).
      by apply dle_PInf_inv, Hlb.
Qed.

End SearchCorrect.

(** ** The two searches and the sequential program *)

Lemma getHeuristic_zero g u v :
  Graph_wf g →
  Forall (fun nd => Node.x nd = zero ∧ Node.y nd = zero) (nodes g) →
  getHeuristic g u v = Some zero.
Proof.
  intros (Hn & Hlen & _) Hz. unfold getHeuristic.
  destruct (_ || _) eqn:E; [done|].
  apply orb_false_elim in E as [E Hv2]. apply orb_false_elim in E as [E Hv1].
  apply orb_false_elim in E as [Hu1 Hu2].
  apply Z.ltb_ge in Hu1, Hv1. apply Z.leb_gt in Hu2, Hv2.
  destruct (vget_is_Some (nodes g) u) as [nf Hnf]; [lia|].
  destruct (vget_is_Some (nodes g) v) as [nt Hnt]; [lia|].
  rewrite Hnf, Hnt. simpl.
  rewrite Forall_lookup in Hz.
  apply vget_Some in Hnf as [_ Hnf]. apply vget_Some in Hnt as [_ Hnt].
  destruct (Hz _ _ Hnf) as [-> ->]. destruct (Hz _ _ Hnt) as [-> ->]. done.
Qed.

(** What a search result is worth on integer weights that keep every sum of
    the search exact. *)
Lemma search_result_exact g s t B r :
  Graph_wf g → nonneg_weights g → 0 ≤ B → integer_weights B g →
  nodeCount g * B ≤ exact_limit →
  search_result g s t r →
  shortest_distance g s t (totalDistance r) ∧
  found r = negb (is_infinity (totalDistance r)) ∧
  (found r = true ↔ reachable g s t) ∧
  (found r = true →
     ∃ es z, walk g s t es ∧ path r = verts s es ∧ walk_weight es = totalDistance r ∧
             deq (totalDistance r) (Fin (inject_Z z)) ∧ 0 ≤ z ≤ exact_limit) ∧
  (found r = false → path r = []).
Proof.
  intros Hwf Hnn HB Hi Hlim (H1 & H2 & _ & H3 & H4 & H5 & H6).
  pose proof (integer_weights_finite B g Hi) as Hfw.
  split_and!; [done | done | | | done].
  - split; [|by apply H6]. intros Hf. destruct (H3 Hf) as (es & Hw & _). by exists es.
  - intros Hf. destruct (H3 Hf) as (es & Hw & Hp & He).
    destruct (shortest_distance_integer B g s t _ Hwf HB Hi
                (nonneg_shortcut g s Hwf Hnn) H1) as [E | (z & Hz & Hb)].
    { rewrite H2, E in Hf. done. }
    exists es, z. split_and!; [done | done | done | done | | nia].
    pose proof (walk_weight_nonneg g s t es Hnn Hw) as H0. rewrite He in H0.
    destruct Hz as [Hz _]. pose proof (dle_trans _ _ _ H0 Hz) as Hq.
    apply dle_Fin in Hq. rewrite (Zle_Qle 0 z). exact Hq.
Qed.

(** X7. [sequentialDijkstra] on a graph whose weights are non-negative
    integers, small enough for every sum of the search to be exact in double
    arithmetic ([nodeCount * B <= 2^53]), between two of its nodes and with
    any priority queue that keeps the guarantees of [std::priority_queue]:
    the search returns; [totalDistance] is the shortest-path distance;
    [found] is set exactly when the destination can be reached, and then
    [totalDistance] is an integer of at most [2^53] and [path] lists the
    nodes of a walk from the source to the destination of exactly that
    length. *)
Theorem X7_sequential_dijkstra_correct {PQ : Type} `{!PriorityQueue PQ}
    `{!PriorityQueueLaws PQ} (g : Graph) (s t B : Z) :
  Graph_wf g → nonneg_weights g → 0 ≤ B → integer_weights B g →
  nodeCount g * B ≤ exact_limit →
  0 ≤ s < nodeCount g → 0 ≤ t < nodeCount g →
  ∃ r, sequentialDijkstra (PQ := PQ) g s t = Some r ∧
    shortest_distance g s t (totalDistance r) ∧
    found r = negb (is_infinity (totalDistance r)) ∧
    (found r = true ↔ reachable g s t) ∧
    (found r = true →
       ∃ es z, walk g s t es ∧ path r = verts s es ∧ walk_weight es = totalDistance r ∧
               deq (totalDistance r) (Fin (inject_Z z)) ∧ 0 ≤ z ≤ exact_limit) ∧
    (found r = false → path r = []).
Proof.
  intros Hwf Hnn HB Hi Hlim Hs Ht. unfold sequentialDijkstra.
  destruct (search_spec g s (fun _ d => Some d) Hwf Hnn Hs) with (t := t) (f0 := Some zero)
    as (r & Hr & Hres).
  - intros v d _. exists d. split; [done | split; apply dle_refl].
  - done.
  - exists zero. split; [done | split; apply dle_refl].
  - exists r. split; [done|]. by apply (search_result_exact g s t B).
Qed.

Lemma scenario_a_integer : integer_weights 1 (load_graph scenario_a_file).
Proof.
  vm_compute. repeat constructor;
    (exists 1; split; [split; reflexivity | split; discriminate]).
Qed.

Lemma X7_sequential_dijkstra_correct_witness :
  ∃ r, sequentialDijkstra (PQ := list PQElement) (load_graph scenario_a_file) 0 4 = Some r ∧
    shortest_distance (load_graph scenario_a_file) 0 4 (totalDistance r) ∧
    found r = negb (is_infinity (totalDistance r)) ∧
    (found r = true ↔ reachable (load_graph scenario_a_file) 0 4) ∧
    (found r = true →
       ∃ es z, walk (load_graph scenario_a_file) 0 4 es ∧ path r = verts 0 es ∧
               walk_weight es = totalDistance r ∧
               deq (totalDistance r) (Fin (inject_Z z)) ∧ 0 ≤ z ≤ exact_limit) ∧
    (found r = false → path r = []).
Proof.
  apply (X7_sequential_dijkstra_correct (PQ := list PQElement)
           (PriorityQueueLaws0 := list_queue_laws) (load_graph scenario_a_file) 0 4 1).
  - apply (bool_decide_unpack _). by vm_compute.
  - apply (bool_decide_unpack _). by vm_compute.
  - lia.
  - exact scenario_a_integer.
  - by vm_compute.
  - vm_compute. split; [discriminate | reflexivity].
  - vm_compute. split; [discriminate | reflexivity].
Defined.

Lemma astar_spec {PQ : Type} `{!PriorityQueue PQ} `{!PriorityQueueLaws PQ}
    (g : Graph) (s t : Z) :
  Graph_wf g → nonneg_weights g → 0 ≤ s < nodeCount g → 0 ≤ t < nodeCount g →
  Forall (fun nd => Node.x nd = zero ∧ Node.y nd = zero) (nodes g) →
  ∃ r, sequentialAStarDijkstra (PQ := PQ) g s t = Some r ∧ search_result g s t r.
Proof.
  intros Hwf Hnn Hs Ht Hz. unfold sequentialAStarDijkstra.
  rewrite (getHeuristic_zero g s t Hwf Hz).
  apply (search_spec g s _ Hwf Hnn Hs).
  - intros v d _. rewrite (getHeuristic_zero g v t Hwf Hz). simpl.
    eexists. split; [done | apply dadd_zero_r].
  - done.
  - exists zero. split; [done | split; apply dle_refl].
Qed.

(** X8. On a graph whose nodes carry no coordinates, as every graph that
    [loadFromFile] delivers, and whose weights are non-negative integers
    small enough for every sum to be exact ([nodeCount * B <= 2^53]),
    [sequentialAStarDijkstra] is as correct as [sequentialDijkstra]: the
    heuristic is zero throughout, the search returns, [totalDistance] is the
    shortest-path distance, and [found] is set exactly when the destination
    can be reached, with a walk of that length in [path]. *)
Theorem X8_astar_without_coordinates {PQ : Type} `{!PriorityQueue PQ}
    `{!PriorityQueueLaws PQ} (g : Graph) (s t B : Z) :
  Graph_wf g → nonneg_weights g → 0 ≤ B → integer_weights B g →
  nodeCount g * B ≤ exact_limit →
  0 ≤ s < nodeCount g → 0 ≤ t < nodeCount g →
  Forall (fun nd => Node.x nd = zero ∧ Node.y nd = zero) (nodes g) →
  (∀ u v, getHeuristic g u v = Some zero) ∧
  ∃ r, sequentialAStarDijkstra (PQ := PQ) g s t = Some r ∧
    shortest_distance g s t (totalDistance r) ∧
    found r = negb (is_infinity (totalDistance r)) ∧
    (found r = true ↔ reachable g s t) ∧
    (found r = true →
       ∃ es z, walk g s t es ∧ path r = verts s es ∧ walk_weight es = totalDistance r ∧
               deq (totalDistance r) (Fin (inject_Z z)) ∧ 0 ≤ z ≤ exact_limit) ∧
    (found r = false → path r = []).
Proof.
  intros Hwf Hnn HB Hi Hlim Hs Ht Hz. split; [intros u v; by apply getHeuristic_zero|].
  destruct (astar_spec (PQ := PQ) g s t Hwf Hnn Hs Ht Hz) as (r & Hr & Hres).
  exists r. split; [done|]. by apply (search_result_exact g s t B).
Qed.

Lemma X8_astar_without_coordinates_witness :
  (∀ u v, getHeuristic (load_graph scenario_a_file) u v = Some zero) ∧
  ∃ r, sequentialAStarDijkstra (PQ := list PQElement)
         (load_graph scenario_a_file) 0 4 = Some r ∧
    shortest_distance (load_graph scenario_a_file) 0 4 (totalDistance r) ∧
    found r = negb (is_infinity (totalDistance r)) ∧
    (found r = true ↔ reachable (load_graph scenario_a_file) 0 4) ∧
    (found r = true →
       ∃ es z, walk (load_graph scenario_a_file) 0 4 es ∧ path r = verts 0 es ∧
               walk_weight es = totalDistance r ∧
               deq (totalDistance r) (Fin (inject_Z z)) ∧ 0 ≤ z ≤ exact_limit) ∧
    (found r = false → path r = []).
Proof.
  apply (X8_astar_without_coordinates (PQ := list PQElement)
           (PriorityQueueLaws0 := list_queue_laws) (load_graph scenario_a_file) 0 4 1).
  - apply (bool_decide_unpack _). by vm_compute.
  - apply (bool_decide_unpack _). by vm_compute.
  - lia.
  - exact scenario_a_integer.
  - by vm_compute.
  - vm_compute. split; [discriminate | reflexivity].
  - vm_compute. split; [discriminate | reflexivity].
  - vm_compute. repeat constructor.
Defined.

Lemma printResult_not_found r :
  found r = false →
  printResult r =
    [ Str ("No path found!" ++ nl);
      Str "Execution time: "; Dbl (executionTime r); Str (" ms" ++ nl) ].
Proof. unfold printResult. by intros ->. Qed.

Lemma printResult_found r :
  found r = true →
  ∃ tl, printResult r =
    Str ("Path found!" ++ nl) :: Str "Distance: " :: Dbl (totalDistance r) :: tl.
Proof. unfold printResult. intros ->. simpl. eauto. Qed.

(** The run of the sequential program on a loaded graph, whichever of the
    two searches the arguments choose. *)
Lemma sequential_main_spec {PQ : Type} `{!PriorityQueue PQ} `{!PriorityQueueLaws PQ}
    (fs : FileSystem) (dur : Z) (prog file a2 a3 : string) (rest : list string)
    (s t : Z) (g : Graph) :
  atoi a2 = Some s → atoi a3 = Some t →
  loadFromFile fs file Graph_default = Ok (true, g) →
  (0 ≤ s < nodeCount g ∧ 0 ≤ t < nodeCount g → nonneg_weights g →
   ∃ r pre,
     sequential_main (PQ := PQ) fs dur (prog :: file :: a2 :: a3 :: rest)
     = Exited 0 (pre ++ printResult (set_executionTime r dur) ++ [Str rule]) ∧
     search_result g s t r) ∧
  (¬ (0 ≤ s < nodeCount g ∧ 0 ≤ t < nodeCount g) →
   sequential_main (PQ := PQ) fs dur (prog :: file :: a2 :: a3 :: rest)
   = Exited 1 (sequential_banner file
               ++ [Str ("✓ Graph loaded successfully" ++ nl)] ++ printInfo g)).
Proof.
  intros Hs Ht Hload. pose proof (loadFromFile_wf _ _ _ Hload) as Hwf.
  destruct (loadFromFile_inv _ _ _ Hload) as [_ Hz].
  unfold sequential_main. rewrite Hs, Ht, Hload. unfold getNodeCount. split.
  - intros [Hsr Htr] Hnn.
    destruct (Z.ltb_spec s 0); [lia|]. destruct (Z.leb_spec (nodeCount g) s); [lia|].
    destruct (Z.ltb_spec t 0); [lia|]. destruct (Z.leb_spec (nodeCount g) t); [lia|].
    cbn [orb].
    assert (Hsearch : ∃ r,
              (if match rest with
                  | [] => false
                  | a4 :: _ => String.eqb a4 "--astar"
                  end
               then sequentialAStarDijkstra (PQ := PQ) g s t
               else sequentialDijkstra (PQ := PQ) g s t) = Some r ∧
              search_result g s t r).
    { destruct (match rest with [] => false | a4 :: _ => String.eqb a4 "--astar" end).
      - by apply astar_spec.
      - apply (search_spec g s _ Hwf Hnn Hsr).
        + intros v d _. exists d. split; [done | split; apply dle_refl].
        + done.
        + exists zero. split; [done | split; apply dle_refl]. }
    destruct Hsearch as (r & -> & Hr). exists r.
    eexists (_ ++ [ Str (nl ++ rule); Str ("Results" ++ nl); Str rule ]).
    split; [|done]. f_equal. apply app_assoc.
  - intros Hout.
    destruct (Z.ltb_spec s 0), (Z.leb_spec (nodeCount g) s), (Z.ltb_spec t 0),
      (Z.leb_spec (nodeCount g) t); simpl; try done. lia.
Qed.

(** X9. The sequential program checks both node arguments against the
    loaded graph. Out of range it exits with status 1 after the graph
    summary, before any search. In range, with or without [--astar], on
    weights that are non-negative integers small enough for every sum to be
    exact ([nodeCount * B <= 2^53]), it exits with status 0 and its output
    ends with [printResult] of a result that holds the shortest-path
    distance: a path is found exactly when the destination can be reached,
    the line [Distance:] then shows the distance, and the line
    [No path found!] stands in its place otherwise. *)
Theorem X9_sequential_main_validates_and_reports {PQ : Type} `{!PriorityQueue PQ}
    `{!PriorityQueueLaws PQ}
    (fs : FileSystem) (dur : Z) (prog file a2 a3 : string) (rest : list string)
    (s t B : Z) (g : Graph) :
  atoi a2 = Some s → atoi a3 = Some t →
  loadFromFile fs file Graph_default = Ok (true, g) →
  (0 ≤ s < nodeCount g ∧ 0 ≤ t < nodeCount g →
   nonneg_weights g → 0 ≤ B → integer_weights B g → nodeCount g * B ≤ exact_limit →
   ∃ r pre,
     sequential_main (PQ := PQ) fs dur (prog :: file :: a2 :: a3 :: rest)
     = Exited 0 (pre ++ printResult (set_executionTime r dur) ++ [Str rule]) ∧
     shortest_distance g s t (totalDistance r) ∧
     (found r = true ↔ reachable g s t) ∧
     (found r = true →
        ∃ tl, printResult (set_executionTime r dur)
              = Str ("Path found!" ++ nl) :: Str "Distance: "
                  :: Dbl (totalDistance r) :: tl) ∧
     (found r = false →
        printResult (set_executionTime r dur)
        = [ Str ("No path found!" ++ nl);
            Str "Execution time: "; Dbl (Fin (inject_Z dur)); Str (" ms" ++ nl) ])) ∧
  (¬ (0 ≤ s < nodeCount g ∧ 0 ≤ t < nodeCount g) →
   sequential_main (PQ := PQ) fs dur (prog :: file :: a2 :: a3 :: rest)
   = Exited 1 (sequential_banner file
               ++ [Str ("✓ Graph loaded successfully" ++ nl)] ++ printInfo g)).
Proof.
  intros Hs Ht Hload.
  pose proof (loadFromFile_wf _ _ _ Hload) as Hwf.
  destruct (sequential_main_spec (PQ := PQ) fs dur prog file a2 a3 rest s t g
              Hs Ht Hload) as [Hin Hout].
  split; [|done]. intros Hr Hnn HB Hi Hlim.
  destruct (Hin Hr Hnn) as (r & pre & Hm & Hres).
  destruct (search_result_exact g s t B r Hwf Hnn HB Hi Hlim Hres)
    as (H1 & _ & H3 & _).
  exists r, pre. split_and!; [done | done | done | |].
  - intros Hfound. by apply (printResult_found (set_executionTime r dur)).
  - intros Hfound. by apply (printResult_not_found (set_executionTime r dur)).
Qed.

Lemma X9_sequential_main_validates_and_reports_witness :
  ∃ r pre,
    sequential_main (PQ := list PQElement) (shared_fs scenario_a_file 0) 12
      ["seq"; "graph.txt"; "0"; "4"; "--astar"]%string
    = Exited 0 (pre ++ printResult (set_executionTime r 12) ++ [Str rule]) ∧
    shortest_distance (load_graph scenario_a_file) 0 4 (totalDistance r) ∧
    (found r = true ↔ reachable (load_graph scenario_a_file) 0 4) ∧
    (found r = true →
       ∃ tl, printResult (set_executionTime r 12)
             = Str ("Path found!" ++ nl) :: Str "Distance: "
                 :: Dbl (totalDistance r) :: tl) ∧
    (found r = false →
       printResult (set_executionTime r 12)
       = [ Str ("No path found!" ++ nl);
           Str "Execution time: "; Dbl (Fin (inject_Z 12)); Str (" ms" ++ nl) ]).
Proof.
  apply (X9_sequential_main_validates_and_reports (PQ := list PQElement)
           (PriorityQueueLaws0 := list_queue_laws)
           (shared_fs scenario_a_file 0) 12 "seq" "graph.txt" "0" "4"
           ["--astar"]%string 0 4 1 (load_graph scenario_a_file)).
  - reflexivity.
  - reflexivity.
  - reflexivity.
  - vm_compute. split; (split; [discriminate | reflexivity]).
  - apply (bool_decide_unpack _). by vm_compute.
  - lia.
  - exact scenario_a_integer.
  - by vm_compute.
Defined.

Lemma deq_PInf a b : deq a b → (a = PInf ↔ b = PInf).
Proof.
  intros [H1 H2]. split; intros ->.
  - by apply dle_PInf_inv.
  - by apply dle_PInf_inv.
Qed.

(** X10. The distributed program and the sequential program agree: on the
    same graph file with non-negative weights and the same two nodes of the
    graph, for every number of processes, the distance that rank 0 reports
    is numerically the [totalDistance] that [sequentialDijkstra] returns,
    and the sequential search reports no path exactly when the distributed
    report shows infinity. *)
Theorem X10_distributed_matches_sequential {PQ : Type} `{!PriorityQueue PQ}
    `{!PriorityQueueLaws PQ}
    (P : Z) (fs : Z → FileSystem) (dur : Z) (prog file a2 a3 : string)
    (rest : list string) (s t : Z) (g : Graph) :
  1 ≤ P → atoi a2 = Some s → atoi a3 = Some t →
  (∀ r, 0 ≤ r < P → loadFromFile (fs r) file Graph_default = Ok (true, g)) →
  nonneg_weights g → 0 ≤ s < nodeCount g → 0 ≤ t < nodeCount g →
  ∃ out dt r,
    main P fs dur (prog :: file :: a2 :: a3 :: rest) = Exited 0 out ∧
    reported_distance out = Some dt ∧
    sequentialDijkstra (PQ := PQ) g s t = Some r ∧
    deq dt (totalDistance r) ∧
    (found r = false ↔ dt = PInf).
Proof.
  intros HP Hs Ht Hload Hnn Hsr Htr.
  pose proof (loaded_wf P fs file g HP Hload) as Hwf.
  destruct (engine_spec g s P Hwf HP)
    as (ws & d & it & ex & He & Hsy & Hlen & Hsd & Hit & F & M & _).
  destruct (M _ (nonneg_shortcut g s Hwf Hnn)) as [-> _]; [lia|].
  destruct F as [_ Hlb].
  destruct (main_spec P fs dur prog file a2 a3 rest s t g ws d it true _
              HP Hs Ht Hload Htr He Hsy Hlen) as (out & Hm & Hrd & _).
  pose proof (sound_lower_bound_shortest g s d t Hsd Hlb) as Hsh.
  destruct (search_spec (PQ := PQ) g s (fun _ d => Some d) Hwf Hnn Hsr)
    with (t := t) (f0 := Some zero) as (r & Hr & H1 & H2 & _).
  { intros v d' _. exists d'. split; [done | split; apply dle_refl]. }
  { done. }
  { exists zero. split; [done | split; apply dle_refl]. }
  pose proof (shortest_distance_unique g s t _ _ Hsh H1) as Hdeq.
  exists out, (dget d t), r. split_and!; [done | done | done | done |].
  rewrite (deq_PInf _ _ Hdeq), H2.
  destruct (totalDistance r); simpl; split; done.
Qed.

Lemma X10_distributed_matches_sequential_witness :
  ∃ out dt r,
    main 3 (shared_fs scenario_a_file) 0 ["bsp"; "graph.txt"; "0"; "4"]%string
    = Exited 0 out ∧
    reported_distance out = Some dt ∧
    sequentialDijkstra (PQ := list PQElement) (load_graph scenario_a_file) 0 4 = Some r ∧
    deq dt (totalDistance r) ∧
    (found r = false ↔ dt = PInf).
Proof.
  apply (X10_distributed_matches_sequential (PQ := list PQElement)
           (PriorityQueueLaws0 := list_queue_laws)
           3 (shared_fs scenario_a_file) 0 "bsp" "graph.txt" "0" "4" [] 0 4
           (load_graph scenario_a_file));
    [lia | reflexivity | reflexivity | intros r _; reflexivity | | |].
  - apply (bool_decide_unpack _). by vm_compute.
  - vm_compute. split; [discriminate | reflexivity].
  - vm_compute. split; [discriminate | reflexivity].
Defined.

(** ** Edges of a rebuilt graph *)

Lemma elem_of_edges_from u es e :
  e ∈ edges_from u es ↔ (u, destination e, weight e) ∈ es.
Proof.
  unfold edges_from. rewrite list_elem_of_omap. split.
  - intros ([[from to] w] & Hin & H). destruct (decide (from = u)) as [->|]; [|done].
    by simplify_eq.
  - intros Hin. exists (u, destination e, weight e). split; [done|].
    rewrite decide_True by done. by destruct e.
Qed.

Lemma rebuild_wf es : ∀ g, Graph_wf g → Graph_wf (rebuild g es).
Proof.
  induction es as [|[[from to] w] es IH]; intros g Hg; [done|].
  rewrite rebuild_cons. by apply IH, addEdge_wf.
Qed.

(** The edges of a graph after a replay: the edges it had, and the entries
    that [addEdge] accepted. *)
Lemma has_edge_rebuild g es u e :
  Graph_wf g →
  has_edge (rebuild g es) u e ↔
  has_edge g u e ∨
  (in_range (nodeCount g) (u, destination e, weight e) = true ∧
   (u, destination e, weight e) ∈ es).
Proof.
  intros Hwf. pose proof (rebuild_wf es g Hwf) as Hwf'.
  assert (Hkept : ∀ x, x ∈ filter (fun e => in_range (nodeCount g) e = true) es ↔
                       in_range (nodeCount g) x = true ∧ x ∈ es).
  { intros x. by rewrite list_elem_of_filter. }
  split.
  - intros He. destruct (has_edge_range _ _ _ Hwf' He) as [Hu _].
    rewrite rebuild_nodeCount in Hu.
    destruct (getAdjacencyList_is_Some g u Hwf Hu) as [adj Hadj].
    destruct He as (es' & Hes' & Hin).
    rewrite (rebuild_adjacency g es u adj Hadj) in Hes'. simplify_eq.
    apply elem_of_app in Hin as [Hin | Hin].
    + left. by exists adj.
    + right. by apply elem_of_edges_from, Hkept in Hin.
  - intros [He | [Hr Hin]].
    + destruct He as (adj & Hadj & Hin). eexists. split; [by apply rebuild_adjacency|].
      apply elem_of_app. by left.
    + apply in_range_true in Hr as Hr'. destruct Hr' as [Hu _].
      destruct (getAdjacencyList_is_Some g u Hwf Hu) as [adj Hadj].
      eexists. split; [by apply rebuild_adjacency|].
      apply elem_of_app. right. apply elem_of_edges_from, Hkept. by split.
Qed.

Lemma addBidirectionalEdge_rebuild g a b w :
  addBidirectionalEdge g a b w = rebuild g [(a, b, w); (b, a, w)].
Proof. done. Qed.

Lemma addBidirectionalEdge_nodeCount g a b w :
  nodeCount (addBidirectionalEdge g a b w) = nodeCount g.
Proof. by rewrite addBidirectionalEdge_rebuild, rebuild_nodeCount. Qed.

Lemma in_range_swap n a b w : in_range n (a, b, w) = in_range n (b, a, w).
Proof.
  unfold in_range.
  destruct (0 <=? a), (a <? n), (0 <=? b), (b <? n); done.
Qed.

Lemma has_edge_addBidirectionalEdge g a b w u e :
  Graph_wf g →
  has_edge (addBidirectionalEdge g a b w) u e ↔
  has_edge g u e ∨
  (in_range (nodeCount g) (a, b, w) = true ∧ weight e = w ∧
   ((u = a ∧ destination e = b) ∨ (u = b ∧ destination e = a))).
Proof.
  intros Hwf. rewrite addBidirectionalEdge_rebuild, has_edge_rebuild by done.
  split; (intros [He | H]; [by left | right]).
  - destruct H as [Hr Hin]. apply elem_of_cons in Hin as [Hin | Hin].
    + simplify_eq. split_and!; [done | done | by left].
    + apply list_elem_of_singleton in Hin. simplify_eq.
      split_and!; [by rewrite in_range_swap | done | by right].
  - destruct H as (Hr & Hw & [[-> Hd] | [-> Hd]]).
    + rewrite Hd, Hw. split; [done | by left].
    + rewrite Hd, Hw. split; [by rewrite in_range_swap|]. right. by left.
Qed.

Lemma addBidirectionalEdge_edgeCount g a b w :
  edgeCount (addBidirectionalEdge g a b w) =
    edgeCount g + (if in_range (nodeCount g) (a, b, w) then 2 else 0).
Proof.
  rewrite addBidirectionalEdge_rebuild, rebuild_edgeCount.
  rewrite !filter_cons, filter_nil. rewrite <- (in_range_swap _ a b).
  destruct (in_range (nodeCount g) (a, b, w)) eqn:E.
  - rewrite !decide_True by done. simpl. lia.
  - rewrite !decide_False by (by rewrite ?E). simpl. lia.
Qed.

(** ** Walks in a graph that grows *)

Lemma walk_mono g g' s v es :
  nodeCount g' = nodeCount g → (∀ u e, has_edge g u e → has_edge g' u e) →
  walk g s v es → walk g' s v es.
Proof.
  intros Hn Hsub. induction 1 as [Hs | u es e Hw IH He].
  - constructor. by rewrite Hn.
  - econstructor; [done | by apply Hsub].
Qed.

Lemma walk_app g s u v es1 es2 :
  walk g s u es1 → walk g u v es2 → walk g s v (es1 ++ es2).
Proof.
  intros H1. induction 1 as [Hu | w es e Hw IH He].
  - by rewrite app_nil_r.
  - rewrite app_assoc. by econstructor.
Qed.

Lemma reachable_refl g v : 0 ≤ v < nodeCount g → reachable g v v.
Proof. intros Hv. exists []. by constructor. Qed.

Lemma reachable_trans g a b c : reachable g a b → reachable g b c → reachable g a c.
Proof. intros [es1 H1] [es2 H2]. exists (es1 ++ es2). by eapply walk_app. Qed.

Lemma reachable_edge g u e :
  Graph_wf g → has_edge g u e → reachable g u (destination e).
Proof.
  intros Hwf He. destruct (has_edge_range g u e Hwf He) as [Hu _].
  exists ([] ++ [e]). econstructor; [by constructor | done].
Qed.

Lemma reachable_mono g g' a b :
  nodeCount g' = nodeCount g → (∀ u e, has_edge g u e → has_edge g' u e) →
  reachable g a b → reachable g' a b.
Proof. intros Hn Hsub [es H]. exists es. by eapply walk_mono. Qed.

(** ** Coordinates do not touch the edges *)

Lemma setNodeCoordinates_adjacency g i x y u :
  getAdjacencyList (setNodeCoordinates g i x y) u = getAdjacencyList g u.
Proof.
  unfold setNodeCoordinates. destruct (_ && _); [|done].
  unfold getAdjacencyList, vget. cbn [nodes]. destruct (u <? 0); [done|].
  rewrite list_lookup_alter. case_decide as E; [|done].
  rewrite E. by destruct (nodes g !! Z.to_nat u).
Qed.

Lemma setNodeCoordinates_counts g i x y :
  nodeCount (setNodeCoordinates g i x y) = nodeCount g ∧
  edgeCount (setNodeCoordinates g i x y) = edgeCount g.
Proof. unfold setNodeCoordinates. by destruct (_ && _). Qed.

Lemma setNodeCoordinates_adjacency_lists g i x y :
  Node.adjacencyList <$> nodes (setNodeCoordinates g i x y)
  = Node.adjacencyList <$> nodes g.
Proof.
  unfold setNodeCoordinates. destruct (_ && _); [|done]. cbn [nodes].
  apply list_eq. intros j. rewrite !list_lookup_fmap, list_lookup_alter.
  case_decide as E; [|done]. rewrite E. by destruct (nodes g !! j).
Qed.

Lemma setNodeCoordinates_inv g i x y :
  Graph_inv g → Graph_inv (setNodeCoordinates g i x y).
Proof.
  intros [(Hn & Hlen & Hed) Hec].
  destruct (setNodeCoordinates_counts g i x y) as [En Ee].
  pose proof (setNodeCoordinates_adjacency_lists g i x y) as Ea.
  split; [split_and!|].
  - by rewrite En.
  - rewrite En, <- Hlen. unfold setNodeCoordinates. destruct (_ && _); [|done].
    cbn [nodes]. apply length_alter.
  - rewrite En. apply Forall_fmap in Hed. apply Forall_fmap. by rewrite Ea.
  - rewrite Ee, Hec. unfold stored_edges. by rewrite Ea.
Qed.

Lemma has_edge_setNodeCoordinates g i x y u e :
  has_edge (setNodeCoordinates g i x y) u e ↔ has_edge g u e.
Proof. unfold has_edge. by rewrite setNodeCoordinates_adjacency. Qed.

(** ** What the random generator keeps *)

Lemma addBidirectionalEdge_inv g a b w :
  Graph_inv g → Graph_inv (addBidirectionalEdge g a b w).
Proof. intros H. rewrite addBidirectionalEdge_rebuild. by apply rebuild_inv. Qed.

Lemma generated_add g n lo hi a b w :
  generated g n lo hi → dle lo w → dlt w hi = true →
  generated (addBidirectionalEdge g a b w) n lo hi.
Proof.
  intros (Hinv & Hn & Hsym & Hw) Hlo Hhi. pose proof Hinv as [Hwf _].
  split_and!.
  - by apply addBidirectionalEdge_inv.
  - by rewrite addBidirectionalEdge_nodeCount.
  - intros u e He. apply has_edge_addBidirectionalEdge in He; [|done].
    apply has_edge_addBidirectionalEdge; [done|].
    destruct He as [He | (Hr & Hwe & Hends)]; [left; by apply Hsym|].
    right. split_and!; [done | done |]. simpl. destruct Hends as [[-> ->] | [-> ->]]; tauto.
  - intros u e He. apply has_edge_addBidirectionalEdge in He; [|done].
    destruct He as [He | (_ & -> & _)]; [by apply (Hw u) | done].
Qed.

Lemma connected_below_mono g g' m :
  nodeCount g' = nodeCount g → (∀ u e, has_edge g u e → has_edge g' u e) →
  connected_below g m → connected_below g' m.
Proof.
  intros Hn Hsub Hc v Hv. destruct (Hc v Hv) as [H1 H2].
  split; by eapply reachable_mono.
Qed.

Lemma connected_below_add g m a b w :
  Graph_wf g → connected_below g m → connected_below (addBidirectionalEdge g a b w) m.
Proof.
  intros Hwf. apply connected_below_mono; [apply addBidirectionalEdge_nodeCount|].
  intros u e He. apply has_edge_addBidirectionalEdge; [done | by left].
Qed.

(** A new node that is tied to a node below it joins the connected part. *)
Lemma connected_below_grow g i parent w :
  Graph_wf g → 0 ≤ parent < i → i < nodeCount g → connected_below g i →
  connected_below (addBidirectionalEdge g parent i w) (i + 1).
Proof.
  intros Hwf Hp Hi Hc. set (g' := addBidirectionalEdge g parent i w).
  assert (Hwf' : Graph_wf g').
  { unfold g'. rewrite addBidirectionalEdge_rebuild. by apply rebuild_wf. }
  assert (Hr : in_range (nodeCount g) (parent, i, w) = true).
  { apply in_range_true. lia. }
  assert (H1 : has_edge g' parent (mkEdge i w)).
  { apply has_edge_addBidirectionalEdge; [done|]. right.
    split_and!; [done | done | by left]. }
  assert (H2 : has_edge g' i (mkEdge parent w)).
  { apply has_edge_addBidirectionalEdge; [done|]. right.
    split_and!; [done | done | by right]. }
  pose proof (connected_below_add g i parent i w Hwf Hc) as Hc'. fold g' in Hc'.
  intros v Hv. destruct (decide (v = i)) as [->|Hne]; [|apply Hc'; lia].
  destruct (Hc' parent Hp) as [Hto Hfrom]. split.
  - eapply reachable_trans; [exact Hto|]. apply (reachable_edge g' parent _ Hwf' H1).
  - eapply reachable_trans; [|exact Hfrom]. apply (reachable_edge g' i _ Hwf' H2).
Qed.

Section RandomGraph.
Context (rnd : Random) (numNodes : Z) (minWeight maxWeight : double).
Context (Hn : 1 ≤ numNodes) (Hdraws : draws_in_range rnd numNodes minWeight maxWeight).

Lemma weight_draw k :
  dle minWeight (weightDist rnd k) ∧ dlt (weightDist rnd k) maxWeight = true.
Proof. by destruct Hdraws as [_ H]. Qed.

Lemma node_draw k : 0 ≤ nodeDist rnd k ≤ numNodes - 1.
Proof. by destruct Hdraws as [H _]. Qed.

Lemma random_coordinates_spec gk :
  generated gk.1 numNodes minWeight maxWeight →
  generated (Generator.random_coordinates rnd numNodes gk).1 numNodes minWeight maxWeight ∧
  edgeCount (Generator.random_coordinates rnd numNodes gk).1 = edgeCount gk.1.
Proof.
  unfold Generator.random_coordinates. generalize (seqZ 0 numNodes). intros l.
  revert gk. induction l as [|i l IH]; intros [g k] Hg; [done|].
  cbn [foldl]. set (g1 := setNodeCoordinates g i _ _).
  destruct (IH (g1, Generator.mkDrawn (Generator.weights k)
                      (S (S (Generator.coords k))) (Generator.nodes_drawn k))) as [H1 H2].
  - destruct Hg as (Hinv & Hnc & Hsym & Hw). simpl in *. unfold g1. split_and!.
    + by apply setNodeCoordinates_inv.
    + by rewrite (proj1 (setNodeCoordinates_counts _ _ _ _)).
    + intros u e He. apply has_edge_setNodeCoordinates in He.
      apply has_edge_setNodeCoordinates. by apply Hsym.
    + intros u e He. apply has_edge_setNodeCoordinates in He. by apply (Hw u).
  - split; [done|]. rewrite H2. simpl. unfold g1.
    by rewrite (proj2 (setNodeCoordinates_counts _ _ _ _)).
Qed.

(** The spanning tree after its first [j] edges. *)
Lemma backbone_prefix (j : nat) g k :
  Z.of_nat j ≤ numNodes - 1 →
  generated g numNodes minWeight maxWeight → connected_below g 1 →
  let gk' := foldl (fun '(g, k) i =>
                      let parent := Z.rem (nodeDist rnd (Generator.nodes_drawn k)) i in
                      let weight := weightDist rnd (Generator.weights k) in
                      (addBidirectionalEdge g parent i weight,
                       Generator.mkDrawn (S (Generator.weights k)) (Generator.coords k)
                         (S (Generator.nodes_drawn k))))
                   (g, k) (seqZ 1 (Z.of_nat j)) in
  generated gk'.1 numNodes minWeight maxWeight ∧
  connected_below gk'.1 (Z.of_nat j + 1) ∧
  edgeCount gk'.1 = edgeCount g + 2 * Z.of_nat j.
Proof.
  induction j as [|j IH]; intros Hj Hg Hc.
  - simpl. split_and!; [done | done | lia].
  - rewrite seqZ_S, foldl_app. cbv zeta in *.
    destruct (IH ltac:(lia) Hg Hc) as (Hg' & Hc' & He').
    destruct (foldl _ (g, k) (seqZ 1 (Z.of_nat j))) as [g1 k1]. simpl in *.
    set (i := 1 + Z.of_nat j).
    set (parent := Z.rem (nodeDist rnd (Generator.nodes_drawn k1)) i).
    assert (Hp : 0 ≤ parent < i).
    { pose proof (node_draw (Generator.nodes_drawn k1)).
      apply Z.rem_bound_pos; unfold i; lia. }
    destruct (weight_draw (Generator.weights k1)) as [Hlo Hhi].
    destruct Hg' as (Hinv & Hnc & Hsym & Hw). pose proof Hinv as [Hwf _].
    split_and!.
    + by apply generated_add.
    + replace (Z.of_nat (S j) + 1) with (i + 1) by (unfold i; lia).
      apply connected_below_grow; [done | done | unfold i; lia |].
      replace i with (Z.of_nat j + 1) by (unfold i; lia). done.
    + rewrite addBidirectionalEdge_edgeCount.
      rewrite (proj2 (in_range_true _ _ _ _)) by (unfold i in *; lia). lia.
Qed.

Lemma backbone_spec g k :
  generated g numNodes minWeight maxWeight → connected_below g 1 →
  generated (Generator.backbone rnd numNodes (g, k)).1 numNodes minWeight maxWeight ∧
  connected_below (Generator.backbone rnd numNodes (g, k)).1 numNodes ∧
  edgeCount (Generator.backbone rnd numNodes (g, k)).1 = edgeCount g + 2 * (numNodes - 1).
Proof.
  intros Hg Hc. unfold Generator.backbone.
  pose proof (backbone_prefix (Z.to_nat (numNodes - 1)) g k) as H.
  rewrite Z2Nat.id in H by lia. cbv zeta in H.
  destruct (H ltac:(lia) Hg Hc) as (H1 & H2 & H3).
  split_and!; [done | | done].
  by replace (numNodes - 1 + 1) with numNodes in H2 by lia.
Qed.

(** The loop that adds the remaining edges: it ends within its limit of
    attempts, and the stored edges are [numNodes - 1] more than its
    counter tells. *)
Lemma add_random_edges_spec numEdges maxAttempts : ∀ fuel a,
  (Z.to_nat (maxAttempts - Generator.attempts a) ≤ fuel)%nat →
  generated (Generator.graph a) numNodes minWeight maxWeight →
  connected_below (Generator.graph a) numNodes →
  edgeCount (Generator.graph a) = Generator.edgesAdded a + (numNodes - 1) →
  ∃ a', Generator.add_random_edges fuel rnd numEdges maxAttempts a = Some a' ∧
    generated (Generator.graph a') numNodes minWeight maxWeight ∧
    connected_below (Generator.graph a') numNodes ∧
    edgeCount (Generator.graph a') = Generator.edgesAdded a' + (numNodes - 1) ∧
    Generator.edgesAdded a' ≤ Z.max (Generator.edgesAdded a) (numEdges + 1) ∧
    (∃ k, 0 ≤ k ∧ Generator.edgesAdded a' = Generator.edgesAdded a + 2 * k) ∧
    (Generator.edgesAdded a' < numEdges → maxAttempts ≤ Generator.attempts a').
Proof.
  induction fuel as [|fuel IH]; intros a Hfuel Hg Hc He.
  - simpl. destruct (Z.ltb_spec (Generator.edgesAdded a) numEdges),
      (Z.ltb_spec (Generator.attempts a) maxAttempts); simpl; try lia;
      (exists a; split_and!; [done | done | done | done | lia | exists 0; lia | lia]).
  - cbn [Generator.add_random_edges].
    destruct (Z.ltb_spec (Generator.edgesAdded a) numEdges) as [H1|H1];
      [destruct (Z.ltb_spec (Generator.attempts a) maxAttempts) as [H2|H2]|]; simpl;
      try (exists a; split_and!; [done | done | done | done | lia | exists 0; lia | lia]).
    destruct (Z.eqb_spec (nodeDist rnd (Generator.nodes_drawn (Generator.drawn a)))
                (nodeDist rnd (S (Generator.nodes_drawn (Generator.drawn a))))) as [E|E].
    + destruct (IH (Generator.mkAdding (Generator.graph a)
                      (Generator.mkDrawn (Generator.weights (Generator.drawn a))
                         (Generator.coords (Generator.drawn a))
                         (S (S (Generator.nodes_drawn (Generator.drawn a)))))
                      (Generator.edgesAdded a) (Generator.attempts a + 1)))
        as (a' & Ha' & H3 & H4 & H5 & H6 & (k & Hk & H7) & H8); cbn [Generator.graph
          Generator.edgesAdded Generator.attempts]; [lia | done | done | done |].
      cbn [Generator.graph Generator.edgesAdded Generator.attempts] in *.
      exists a'. split_and!; [done | done | done | done | lia | exists k; lia | done].
    + destruct (weight_draw (Generator.weights (Generator.drawn a))) as [Hlo Hhi].
      pose proof (node_draw (Generator.nodes_drawn (Generator.drawn a))) as Hfrom.
      pose proof (node_draw (S (Generator.nodes_drawn (Generator.drawn a)))) as Hto.
      pose proof Hg as (Hinv & Hnc & _). pose proof Hinv as [Hwf _].
      destruct (IH (Generator.mkAdding
                      (addBidirectionalEdge (Generator.graph a)
                         (nodeDist rnd (Generator.nodes_drawn (Generator.drawn a)))
                         (nodeDist rnd (S (Generator.nodes_drawn (Generator.drawn a))))
                         (weightDist rnd (Generator.weights (Generator.drawn a))))
                      (Generator.mkDrawn (S (Generator.weights (Generator.drawn a)))
                         (Generator.coords (Generator.drawn a))
                         (S (S (Generator.nodes_drawn (Generator.drawn a)))))
                      (Generator.edgesAdded a + 2) (Generator.attempts a + 1)))
        as (a' & Ha' & H3 & H4 & H5 & H6 & (k & Hk & H7) & H8);
        cbn [Generator.graph Generator.edgesAdded Generator.attempts] in *.
      * lia.
      * by apply generated_add.
      * by apply connected_below_add.
      * rewrite addBidirectionalEdge_edgeCount.
        rewrite (proj2 (in_range_true _ _ _ _)) by lia. lia.
      * exists a'. split_and!; [done | done | done | done | lia | exists (k + 1); lia | done].
Qed.

Lemma fresh_generated :
  generated (fresh_graph numNodes) numNodes minWeight maxWeight ∧
  connected_below (fresh_graph numNodes) 1 ∧
  edgeCount (fresh_graph numNodes) = 0.
Proof.
  assert (Hinv : Graph_inv (fresh_graph numNodes)) by (apply fresh_graph_inv; lia).
  assert (Hno : ∀ u e, ¬ has_edge (fresh_graph numNodes) u e).
  { intros u e (es & Hes & Hin). unfold getAdjacencyList, fresh_graph in Hes.
    cbn [nodes] in Hes.
    destruct (vget _ u) as [nd|] eqn:E; [|done]. simpl in Hes. simplify_eq.
    apply vget_Some in E as [_ E]. apply fresh_graph_nodes in E as ->.
    by apply elem_of_nil in Hin. }
  split_and!.
  - split_and!; [done | done | |]; intros u e He; by apply Hno in He.
  - intros v Hv. assert (v = 0) as -> by lia.
    split; apply reachable_refl; simpl; lia.
  - done.
Qed.

(** The graph that [generateRandomGraph] saves. *)
Lemma build_spec numEdges :
  dle minWeight maxWeight →
  ∃ g, Generator.build rnd numNodes numEdges minWeight maxWeight = Ok g ∧
    generated g numNodes minWeight maxWeight ∧ connected_below g numNodes ∧
    2 * (numNodes - 1) ≤ edgeCount g ≤ Z.max (2 * (numNodes - 1)) (numEdges + numNodes) ∧
    Z.even (edgeCount g) = true ∧
    (numEdges ≤ numNodes - 1 → edgeCount g = 2 * (numNodes - 1)).
Proof.
  intros Hmm. unfold Generator.build, Graph_new.
  destruct (Z.ltb_spec numNodes 0); [lia|]. simpl.
  destruct (Z.ltb_spec (numNodes - 1) 0); [lia|]. rewrite Hmm. simpl.
  rewrite resize_nodes_nil. fold (fresh_graph numNodes).
  destruct fresh_generated as (Hg0 & Hc0 & He0).
  destruct (random_coordinates_spec (fresh_graph numNodes, Generator.mkDrawn 0 0 0) Hg0)
    as [Hg1 He1].
  assert (Hc1 : connected_below
                  (Generator.random_coordinates rnd numNodes
                     (fresh_graph numNodes, Generator.mkDrawn 0 0 0)).1 1).
  { intros v Hv. assert (v = 0) as -> by lia.
    destruct Hg1 as (_ & Hnc & _). split; apply reachable_refl; lia. }
  destruct (Generator.random_coordinates rnd numNodes _) as [g1 k1]. simpl in *.
  destruct (backbone_spec g1 k1 Hg1 Hc1) as (Hg2 & Hc2 & He2).
  destruct (Generator.backbone rnd numNodes (g1, k1)) as [g2 k2]. simpl in *.
  destruct (add_random_edges_spec numEdges (numEdges * 10)
              (Z.to_nat (numEdges * 10)) (Generator.mkAdding g2 k2 (numNodes - 1) 0))
    as (a' & -> & H3 & H4 & H5 & H6 & (j & Hj & H7) & H8);
    cbn [Generator.graph Generator.edgesAdded Generator.attempts] in *;
    [lia | done | done | lia |].
  exists (Generator.graph a'). split_and!; [done | done | done | lia | lia | | lia].
  rewrite H5, H7. replace (numNodes - 1 + 2 * j + (numNodes - 1))
    with (2 * (numNodes - 1 + j)) by lia.
  by rewrite Z.even_mul.
Qed.

End RandomGraph.

(** What both generators do with the graph they have built, when the file
    can be written. *)
Lemma save_and_report_spec fmt creatable fs filename what g :
  Graph_wf g → creatable filename = true →
  ∃ contents fs',
    saved_contents fmt g = Some contents ∧
    Generator.save_and_report fmt creatable fs filename what g
      = Ok (Str what :: printInfo g, fs') ∧
    fs' filename = Some contents.
Proof.
  intros (Hn & Hlen & _) Hcr.
  unfold Generator.save_and_report, saveToFile, saved_contents. rewrite Hcr.
  pose proof (edge_lines_entries fmt g (nodes g) [] eq_refl) as Hl.
  change (Z.of_nat (length [])) with 0 in Hl.
  rewrite Hlen, Z2Nat.id in Hl by done. rewrite Hl. simpl.
  eexists _, _. split_and!; [done | done |]. simpl. by rewrite String.eqb_refl.
Qed.

(** X11. For at least one node, [generateRandomGraph] writes a connected
    graph: whatever the distributions return within their ranges, the graph
    it saves has [numNodes] nodes, every node reaches every other one, every
    edge has its reverse of the same weight, and every weight lies in
    [[minWeight, maxWeight)]. *)
Theorem X11_random_graph_connected (rnd : Random) (fmt : double → token)
    (creatable : string → bool) (fs : FileSystem) (numNodes numEdges : Z)
    (filename : string) (minWeight maxWeight : double) :
  1 ≤ numNodes → draws_in_range rnd numNodes minWeight maxWeight →
  creatable filename = true →
  ∃ g contents out fs',
    Generator.build rnd numNodes numEdges minWeight maxWeight = Ok g ∧
    generateRandomGraph rnd fmt creatable fs numNodes numEdges filename
      minWeight maxWeight = Ok (out, fs') ∧
    saved_contents fmt g = Some contents ∧ fs' filename = Some contents ∧
    Graph_inv g ∧ nodeCount g = numNodes ∧
    symmetric g ∧ weights_between g minWeight maxWeight ∧
    ∀ u v, 0 ≤ u < numNodes → 0 ≤ v < numNodes → reachable g u v.
Proof.
  intros Hn Hdraws Hcr.
  assert (Hmm : dle minWeight maxWeight).
  { destruct Hdraws as [_ H]. destruct (H O) as [H1 H2].
    eapply dle_trans; [exact H1|]. by apply dlt_dle. }
  destruct (build_spec rnd numNodes minWeight maxWeight Hn Hdraws numEdges Hmm)
    as (g & Hb & (Hinv & Hnc & Hsym & Hw) & Hc & _).
  pose proof Hinv as [Hwf _].
  destruct (save_and_report_spec fmt creatable fs filename
              ("✓ Graph generated successfully!" ++ nl) g Hwf Hcr)
    as (contents & fs' & Hs & Hr & Hfs).
  exists g, contents. eexists _, fs'.
  split_and!; try done.
  - unfold generateRandomGraph. rewrite Hb. cbn [obind]. rewrite Hr. by cbn [obind].
  - intros u v Hu Hv. eapply reachable_trans; [apply (Hc u Hu) | apply (Hc v Hv)].
Qed.

Lemma X11_random_graph_connected_witness :
  ∃ g contents out fs',
    Generator.build (mkRandom (fun _ => Fin 2) (fun _ => Fin 0)
                       (fun k => Z.of_nat k `mod` 3)) 3 4 (Fin 1) (Fin 5) = Ok g ∧
    generateRandomGraph (mkRandom (fun _ => Fin 2) (fun _ => Fin 0)
                           (fun k => Z.of_nat k `mod` 3))
      (fun w => match w with Fin q => TDec q | PInf => TWord end)
      (fun _ => true) (shared_fs [] 0) 3 4 "out.txt" (Fin 1) (Fin 5) = Ok (out, fs') ∧
    saved_contents (fun w => match w with Fin q => TDec q | PInf => TWord end) g
      = Some contents ∧
    fs' "out.txt"%string = Some contents ∧
    Graph_inv g ∧ nodeCount g = 3 ∧
    symmetric g ∧ weights_between g (Fin 1) (Fin 5) ∧
    ∀ u v, 0 ≤ u < 3 → 0 ≤ v < 3 → reachable g u v.
Proof.
  apply (X11_random_graph_connected
           (mkRandom (fun _ => Fin 2) (fun _ => Fin 0) (fun k => Z.of_nat k `mod` 3))
           (fun w => match w with Fin q => TDec q | PInf => TWord end)
           (fun _ => true) (shared_fs [] 0) 3 4 "out.txt" (Fin 1) (Fin 5)).
  - lia.
  - split; intros k; simpl.
    + pose proof (Z.mod_pos_bound (Z.of_nat k) 3). lia.
    + by vm_compute.
  - reflexivity.
Defined.

(** X12. The graph of [generateRandomGraph] stores the two directions of
    every edge it adds, so its edge count is even, at least
    [2 * (numNodes - 1)] for the spanning tree, and at most
    [numEdges + numNodes]. When no more than [numNodes - 1] edges are asked
    for, it stores exactly the [2 * (numNodes - 1)] of the tree. *)
Theorem X12_random_graph_edge_count (rnd : Random) (numNodes numEdges : Z)
    (minWeight maxWeight : double) :
  1 ≤ numNodes → draws_in_range rnd numNodes minWeight maxWeight →
  ∃ g, Generator.build rnd numNodes numEdges minWeight maxWeight = Ok g ∧
    2 * (numNodes - 1) ≤ edgeCount g ≤ Z.max (2 * (numNodes - 1)) (numEdges + numNodes) ∧
    Z.even (edgeCount g) = true ∧
    (numEdges ≤ numNodes - 1 → edgeCount g = 2 * (numNodes - 1)).
Proof.
  intros Hn Hdraws.
  assert (Hmm : dle minWeight maxWeight).
  { destruct Hdraws as [_ H]. destruct (H O) as [H1 H2].
    eapply dle_trans; [exact H1|]. by apply dlt_dle. }
  destruct (build_spec rnd numNodes minWeight maxWeight Hn Hdraws numEdges Hmm)
    as (g & Hb & _ & _ & H1 & H2 & H3).
  by exists g.
Qed.

Lemma X12_random_graph_edge_count_witness :
  ∃ g, Generator.build (mkRandom (fun _ => Fin 2) (fun _ => Fin 0)
                          (fun k => Z.of_nat k `mod` 3)) 3 4 (Fin 1) (Fin 5) = Ok g ∧
    2 * (3 - 1) ≤ edgeCount g ≤ Z.max (2 * (3 - 1)) (4 + 3) ∧
    Z.even (edgeCount g) = true ∧
    (4 ≤ 3 - 1 → edgeCount g = 2 * (3 - 1)).
Proof.
  apply (X12_random_graph_edge_count
           (mkRandom (fun _ => Fin 2) (fun _ => Fin 0) (fun k => Z.of_nat k `mod` 3))
           3 4 (Fin 1) (Fin 5)).
  - lia.
  - split; intros k; simpl.
    + pose proof (Z.mod_pos_bound (Z.of_nat k) 3). lia.
    + by vm_compute.
Defined.

(** ** The grid generator *)

Lemma rebuild_app g es1 es2 : rebuild g (es1 ++ es2) = rebuild (rebuild g es1) es2.
Proof. unfold rebuild. by rewrite foldl_app. Qed.

Lemma grid_edges_rebuild rows cols w g :
  Generator.grid_edges rows cols w g
  = rebuild g (Generator.cells rows cols ≫= grid_cell_entries rows cols w).
Proof.
  unfold Generator.grid_edges. generalize (Generator.cells rows cols). intros l.
  revert g. induction l as [|[r c] l IH]; intros g; [done|].
  cbn [foldl]. rewrite IH, bind_cons, rebuild_app. f_equal.
  unfold grid_cell_entries. rewrite rebuild_app.
  destruct (c <? cols - 1), (r <? rows - 1); by rewrite ?addBidirectionalEdge_rebuild.
Qed.

Lemma grid_coordinates_spec rows cols g :
  Graph_inv g →
  Graph_inv (Generator.grid_coordinates rows cols g) ∧
  nodeCount (Generator.grid_coordinates rows cols g) = nodeCount g ∧
  edgeCount (Generator.grid_coordinates rows cols g) = edgeCount g ∧
  ∀ u e, has_edge (Generator.grid_coordinates rows cols g) u e ↔ has_edge g u e.
Proof.
  unfold Generator.grid_coordinates. generalize (Generator.cells rows cols). intros l.
  revert g. induction l as [|[r c] l IH]; intros g Hg; [done|].
  cbn [foldl]. set (g1 := setNodeCoordinates g _ _ _).
  destruct (IH g1) as (H1 & H2 & H3 & H4); [by apply setNodeCoordinates_inv|].
  destruct (setNodeCoordinates_counts g (r * cols + c) (Fin (inject_Z c * 10))
              (Fin (inject_Z r * 10))) as [En Ee].
  split_and!; [done | by rewrite H2 | by rewrite H3 |].
  intros u e. rewrite H4. apply has_edge_setNodeCoordinates.
Qed.

Lemma elem_of_cells rows cols r c :
  (r, c) ∈ Generator.cells rows cols ↔ 0 ≤ r < rows ∧ 0 ≤ c < cols.
Proof.
  unfold Generator.cells. rewrite list_elem_of_bind. split.
  - intros (r' & Hc & Hr). apply list_elem_of_fmap in Hc as (c' & E & Hc).
    simplify_eq. apply elem_of_seqZ in Hc, Hr. lia.
  - intros [Hr Hc]. exists r. split; [|apply elem_of_seqZ; lia].
    apply list_elem_of_fmap. exists c. split; [done | apply elem_of_seqZ; lia].
Qed.

(** The entries of the grid are the pairs of neighbours, in both
    directions. *)
Lemma elem_of_grid_entries rows cols w u v x :
  (u, v, x) ∈ Generator.cells rows cols ≫= grid_cell_entries rows cols w ↔
  grid_neighbours rows cols u v ∧ x = w.
Proof.
  rewrite list_elem_of_bind. split.
  - intros ([r c] & Hin & Hc). apply elem_of_cells in Hc as [Hr Hc].
    unfold grid_cell_entries in Hin. apply elem_of_app in Hin as [Hin | Hin].
    + destruct (Z.ltb_spec c (cols - 1)); [|by apply elem_of_nil in Hin].
      split; [exists r, c; split; [exact Hr | split; [exact Hc | left; split; [done|]]]|].
      * apply elem_of_cons in Hin as [Hin | Hin]; [left; simplify_eq; tauto|].
        apply list_elem_of_singleton in Hin. right. simplify_eq. tauto.
      * apply elem_of_cons in Hin as [Hin | Hin]; [by simplify_eq|].
        apply list_elem_of_singleton in Hin. by simplify_eq.
    + destruct (Z.ltb_spec r (rows - 1)); [|by apply elem_of_nil in Hin].
      split; [exists r, c; split; [exact Hr | split; [exact Hc | right; split; [done|]]]|].
      * apply elem_of_cons in Hin as [Hin | Hin]; [left; simplify_eq; tauto|].
        apply list_elem_of_singleton in Hin. right. simplify_eq. tauto.
      * apply elem_of_cons in Hin as [Hin | Hin]; [by simplify_eq|].
        apply list_elem_of_singleton in Hin. by simplify_eq.
  - intros [(r & c & Hr & Hc & H) ->]. exists (r, c).
    split; [|by apply elem_of_cells]. unfold grid_cell_entries. apply elem_of_app.
    destruct H as [[Hlt [[-> ->] | [-> ->]]] | [Hlt [[-> ->] | [-> ->]]]].
    + left. rewrite (proj2 (Z.ltb_lt _ _)) by done. by left.
    + left. rewrite (proj2 (Z.ltb_lt _ _)) by done. right. by left.
    + right. rewrite (proj2 (Z.ltb_lt _ _)) by done. by left.
    + right. rewrite (proj2 (Z.ltb_lt _ _)) by done. right. by left.
Qed.

Lemma grid_neighbours_range rows cols u v :
  grid_neighbours rows cols u v → 0 ≤ u < rows * cols ∧ 0 ≤ v < rows * cols.
Proof.
  intros (r & c & Hr & Hc & H).
  destruct H as [[Hlt [[-> ->] | [-> ->]]] | [Hlt [[-> ->] | [-> ->]]]]; nia.
Qed.

Lemma length_bind_const {A B} (f : A → list B) (l : list A) (k : nat) :
  (∀ x, x ∈ l → length (f x) = k) → length (l ≫= f) = (length l * k)%nat.
Proof.
  induction l as [|x l IH]; intros H; [done|].
  rewrite bind_cons, length_app, IH by (intros y Hy; apply H; by right).
  rewrite (H x) by (by left). simpl. lia.
Qed.

Lemma seqZ_snoc (n : Z) : 1 ≤ n → seqZ 0 n = seqZ 0 (n - 1) ++ [n - 1].
Proof.
  intros Hn. replace n with ((n - 1) + 1) at 1 by lia.
  rewrite seqZ_app by lia. by rewrite Z.add_0_l.
Qed.

(** The number of entries of one row of the grid. *)
Lemma grid_row_length rows cols w r :
  1 ≤ cols →
  Z.of_nat (length (((fun c => (r, c)) <$> seqZ 0 cols) ≫= grid_cell_entries rows cols w))
  = 2 * (cols - 1) + (if r <? rows - 1 then 2 * cols else 0).
Proof.
  intros Hc. rewrite (seqZ_snoc cols Hc), fmap_app, bind_app, length_app.
  rewrite (length_bind_const _ _ (if r <? rows - 1 then 4%nat else 2%nat)).
  - rewrite length_fmap, length_seqZ. cbn [fmap list_fmap]. rewrite bind_singleton.
    unfold grid_cell_entries. rewrite Z.ltb_irrefl.
    rewrite Nat2Z.inj_add, Nat2Z.inj_mul, Z2Nat.id by lia.
    destruct (r <? rows - 1); cbn [app length]; lia.
  - intros [r' c] Hin. apply list_elem_of_fmap in Hin as (c' & E & Hin). simplify_eq.
    apply elem_of_seqZ in Hin. unfold grid_cell_entries.
    rewrite (proj2 (Z.ltb_lt c' (cols - 1))) by lia. by destruct (r <? rows - 1).
Qed.

Lemma grid_entries_length rows cols w :
  1 ≤ rows → 1 ≤ cols →
  Z.of_nat (length (Generator.cells rows cols ≫= grid_cell_entries rows cols w))
  = 2 * (rows * (cols - 1) + (rows - 1) * cols).
Proof.
  intros Hr Hc. unfold Generator.cells.
  assert (Hassoc : ∀ l : list Z,
            (l ≫= (fun r => (fun c => (r, c)) <$> seqZ 0 cols))
              ≫= grid_cell_entries rows cols w
            = l ≫= (fun r => ((fun c => (r, c)) <$> seqZ 0 cols)
                               ≫= grid_cell_entries rows cols w)).
  { induction l as [|r l IH]; [done|]. by rewrite !bind_cons, bind_app, IH. }
  rewrite Hassoc, (seqZ_snoc rows Hr), bind_app, length_app, bind_singleton.
  rewrite (length_bind_const _ _ (Z.to_nat (2 * (cols - 1) + 2 * cols))).
  - rewrite length_seqZ. rewrite !Nat2Z.inj_add, Nat2Z.inj_mul, grid_row_length by done.
    rewrite Z.ltb_irrefl. nia.
  - intros r Hin. apply elem_of_seqZ in Hin.
    apply Nat2Z.inj. rewrite grid_row_length by done.
    rewrite (proj2 (Z.ltb_lt r (rows - 1))) by lia. lia.
Qed.

(** X13. For at least one row and one column, [generateGridGraph] writes the
    4-connected grid: the graph it saves has [rows * cols] nodes, its edges
    are those between a cell and its right or bottom neighbour, in both
    directions and all of weight [edgeWeight], and it stores
    [2 * (rows * (cols - 1) + (rows - 1) * cols)] of them. *)
Theorem X13_grid_graph (fmt : double → token) (creatable : string → bool)
    (fs : FileSystem) (rows cols : Z) (filename : string) (edgeWeight : double) :
  1 ≤ rows → 1 ≤ cols → creatable filename = true →
  ∃ g contents out fs',
    Generator.build_grid rows cols edgeWeight = Ok g ∧
    generateGridGraph fmt creatable fs rows cols filename edgeWeight = Ok (out, fs') ∧
    saved_contents fmt g = Some contents ∧ fs' filename = Some contents ∧
    Graph_inv g ∧ nodeCount g = rows * cols ∧
    (∀ u e, has_edge g u e ↔
            grid_neighbours rows cols u (destination e) ∧ weight e = edgeWeight) ∧
    edgeCount g = 2 * (rows * (cols - 1) + (rows - 1) * cols).
Proof.
  intros Hr Hc Hcr. assert (Hn : 0 ≤ rows * cols) by nia.
  unfold generateGridGraph, Generator.build_grid, Graph_new.
  destruct (Z.ltb_spec (rows * cols) 0); [lia|]. cbn [obind].
  rewrite resize_nodes_nil. fold (fresh_graph (rows * cols)).
  pose proof (fresh_graph_inv (rows * cols) Hn) as Hinv0.
  set (g1 := Generator.grid_coordinates rows cols (fresh_graph (rows * cols))).
  assert (Hspec : Graph_inv g1 ∧ nodeCount g1 = rows * cols ∧ edgeCount g1 = 0 ∧
                  ∀ u e, has_edge g1 u e ↔ has_edge (fresh_graph (rows * cols)) u e)
    by (apply grid_coordinates_spec, Hinv0).
  destruct Hspec as (Hinv1 & Hn1 & He1 & Hh1).
  rewrite grid_edges_rebuild.
  set (entries := Generator.cells rows cols ≫= grid_cell_entries rows cols edgeWeight).
  set (g := rebuild g1 entries).
  assert (Hinv : Graph_inv g) by (by apply rebuild_inv).
  pose proof Hinv as [Hwf _]. pose proof Hinv1 as [Hwf1 _].
  destruct (save_and_report_spec fmt creatable fs filename
              ("✓ Grid graph generated successfully!" ++ nl) g Hwf Hcr)
    as (contents & fs' & Hs & Hrep & Hfs).
  exists g, contents. eexists _, fs'. rewrite Hrep. cbn [obind].
  assert (Hno : ∀ u e, ¬ has_edge g1 u e).
  { intros u e He. apply Hh1 in He. destruct He as (es & Hes & Hin).
    unfold getAdjacencyList, fresh_graph in Hes. cbn [nodes] in Hes.
    destruct (vget _ u) as [nd|] eqn:E; [|done]. simpl in Hes. simplify_eq.
    apply vget_Some in E as [_ E]. apply fresh_graph_nodes in E as ->.
    by apply elem_of_nil in Hin. }
  split_and!; try done.
  - unfold g. by rewrite rebuild_nodeCount.
  - intros u e. unfold g. rewrite has_edge_rebuild by done. unfold entries.
    rewrite elem_of_grid_entries. split.
    + intros [He | [_ Hin]]; [by apply Hno in He | done].
    + intros [Hg Hw]. right. split; [|done].
      apply grid_neighbours_range in Hg. apply in_range_true. rewrite Hn1. simpl. lia.
  - unfold g. rewrite rebuild_edgeCount, filter_all.
    + rewrite He1. unfold entries. rewrite grid_entries_length by done. simpl. lia.
    + apply Forall_forall. intros [[u v] x] Hin. apply elem_of_grid_entries in Hin as [Hg _].
      apply grid_neighbours_range in Hg. apply in_range_true. rewrite Hn1. simpl. lia.
Qed.

Lemma X13_grid_graph_witness :
  ∃ g contents out fs',
    Generator.build_grid 2 3 (Fin 1) = Ok g ∧
    generateGridGraph (fun w => match w with Fin q => TDec q | PInf => TWord end)
      (fun _ => true) (shared_fs [] 0) 2 3 "grid.txt" (Fin 1) = Ok (out, fs') ∧
    saved_contents (fun w => match w with Fin q => TDec q | PInf => TWord end) g
      = Some contents ∧
    fs' "grid.txt"%string = Some contents ∧
    Graph_inv g ∧ nodeCount g = 2 * 3 ∧
    (∀ u e, has_edge g u e ↔ grid_neighbours 2 3 u (destination e) ∧ weight e = Fin 1) ∧
    edgeCount g = 2 * (2 * (3 - 1) + (2 - 1) * 3).
Proof.
  apply (X13_grid_graph (fun w => match w with Fin q => TDec q | PInf => TWord end)
           (fun _ => true) (shared_fs [] 0) 2 3 "grid.txt" (Fin 1)).
  - lia.
  - lia.
  - reflexivity.
Defined.

(** ** The driver on weights of any sign, and on a source that is no node *)

(** The weight of a walk that goes on from a walk of weight [a]. *)
Lemma foldl_dadd_shift es : ∀ a,
  match foldl (fun acc e => dadd acc (weight e)) zero es, a with
  | Fin c, Fin p =>
      ∃ r, foldl (fun acc e => dadd acc (weight e)) a es = Fin r ∧ (r == p + c)%Q
  | _, _ => foldl (fun acc e => dadd acc (weight e)) a es = PInf
  end.
Proof.
  induction es as [|e es IH] using rev_ind; intros a.
  - simpl. destruct a as [p|]; [|done]. exists p. split; [done | lra].
  - rewrite !foldl_app. cbn [foldl]. specialize (IH a).
    destruct (foldl _ zero es) as [c|], a as [p|].
    + destruct IH as (r & -> & Hr). destruct (weight e) as [w|]; simpl; [|done].
      exists (r + w)%Q. split; [done | lra].
    + rewrite IH. by destruct (weight e).
    + by rewrite IH.
    + by rewrite IH.
Qed.

(** A walk that goes once more round a cycle of negative weight is
    shorter. *)
Lemma negative_cycle_shorter es es2 :
  walk_weight es ≠ PInf → dlt (walk_weight es2) zero = true →
  dlt (walk_weight (es ++ es2)) (walk_weight es) = true.
Proof.
  intros Hfin Hneg. unfold walk_weight in *. rewrite foldl_app.
  pose proof (foldl_dadd_shift es2 (foldl (fun acc e => dadd acc (weight e)) zero es)) as H.
  destruct (foldl _ zero es2) as [c|]; [|done].
  destruct (foldl _ zero es) as [q|]; [|done].
  destruct H as (r & -> & Hr).
  apply dlt_Fin in Hneg. apply dlt_Fin. lra.
Qed.

(** No vector is exact on a graph with a negative cycle that the source
    reaches at a finite distance. *)
Lemma negative_cycle_no_fixpoint g s d v es1 es2 :
  walk g s v es1 → walk_weight es1 ≠ PInf →
  walk g v v es2 → dlt (walk_weight es2) zero = true →
  sound g s d → lower_bound g s d → False.
Proof.
  intros H1 Hfin H2 Hneg Hsd Hlb.
  destruct (Hsd v) as [E | (es & Hw & E)].
  - pose proof (Hlb v es1 H1) as Hle. rewrite E in Hle.
    by apply dle_PInf_inv in Hle.
  - assert (Hfin' : walk_weight es ≠ PInf).
    { intros E'. pose proof (Hlb v es1 H1) as Hle. rewrite <- E, E' in Hle.
      by apply dle_PInf_inv in Hle. }
    pose proof (Hlb v (es ++ es2) (walk_app g s v v es es2 Hw H2)) as Hle.
    rewrite <- E in Hle.
    pose proof (negative_cycle_shorter es es2 Hfin' Hneg) as Hlt.
    unfold dle in Hle. congruence.
Qed.

(** No walk starts at a source that is no node. *)
Lemma no_walk_out_of_range g s v es : ¬ (0 ≤ s < nodeCount g) → ¬ walk g s v es.
Proof. intros Hs Hw. by apply walk_start_range in Hw. Qed.

(** X14. The driver needs no sign condition on the weights to be right when
    it converges. For every loaded graph whose weights are integers small
    enough for every sum of the run to be exact in double arithmetic
    ([nodeCount * (edgeCount + 1) * B <= 2^53]) and every source: the report
    shows between 1 and [nodeCount] iterations, the distance it shows is
    +infinity or the integer weight of a walk from the source to the
    destination, and when it shows fewer than [nodeCount] iterations that
    distance is the shortest-path distance. *)
Theorem X14_converged_is_shortest (P : Z) (fs : Z → FileSystem) (dur : Z)
    (prog file a2 a3 : string) (rest : list string) (s t B : Z) (g : Graph) :
  1 ≤ P → atoi a2 = Some s → atoi a3 = Some t →
  (∀ r, 0 ≤ r < P → loadFromFile (fs r) file Graph_default = Ok (true, g)) →
  0 ≤ t < nodeCount g →
  0 ≤ B → integer_weights B g → nodeCount g * (edgeCount g + 1) * B ≤ exact_limit →
  ∃ out n dt,
    main P fs dur (prog :: file :: a2 :: a3 :: rest) = Exited 0 out ∧
    reported_iterations out = Some n ∧ reported_distance out = Some dt ∧
    1 ≤ n ≤ nodeCount g ∧
    (dt = PInf ∨
     ∃ es z, walk g s t es ∧ walk_weight es = dt ∧ deq dt (Fin (inject_Z z))) ∧
    (n < nodeCount g → shortest_distance g s t dt).
Proof.
  intros HP Hs Ht Hload Hrange HB Hi Hlim.
  pose proof (loaded_wf P fs file g HP Hload) as Hwf.
  destruct (engine_spec g s P Hwf HP)
    as (ws & d & it & ex & He & Hsy & Hlen & Hsd & Hit & F & _).
  destruct (main_spec P fs dur prog file a2 a3 rest s t g ws d it ex _
              HP Hs Ht Hload Hrange He Hsy Hlen) as (out & Hm & Hrd & Hri).
  exists out, (if ex then it + 1 else it), (dget d t).
  split_and!; [done | done | done | | | | ].
  - destruct ex; [lia | destruct F; lia].
  - destruct ex; [destruct F; lia | destruct F; lia].
  - destruct (Hsd t) as [E | (es & Hw & E)]; [by left | right].
    destruct (walk_weight_integer B g s t es Hi Hw) as (z & Hz & _).
    exists es, z. rewrite <- E. by split_and!.
  - intros Hn. destruct ex; [|destruct F; lia].
    destruct F as [_ Hlb]. by apply sound_lower_bound_shortest.
Qed.

Lemma chain4_integer : integer_weights 1 (load_graph chain4_file).
Proof.
  vm_compute. repeat constructor;
    (exists 1; split; [split; reflexivity | split; discriminate]).
Qed.

Lemma X14_converged_is_shortest_witness :
  ∃ out dt,
    main 1 (shared_fs chain4_file) 0 ["prog"; "graph.txt"; "0"; "3"]%string
      = Exited 0 out ∧
    reported_iterations out = Some 2 ∧ reported_distance out = Some dt ∧
    2 < nodeCount (load_graph chain4_file) ∧
    shortest_distance (load_graph chain4_file) 0 3 dt.
Proof.
  destruct (X14_converged_is_shortest 1 (shared_fs chain4_file) 0 "prog" "graph.txt"
              "0" "3" [] 0 3 1 (load_graph chain4_file))
    as (out & n & dt & Hm & Hn & Hd & _ & _ & Hsh);
    [lia | reflexivity | reflexivity | intros r _; reflexivity
     | vm_compute; split; [discriminate | reflexivity]
     | lia | exact chain4_integer | by vm_compute |].
  assert (Hn2 : n = 2).
  { pose proof Hm as Hm'. vm_compute in Hm'. injection Hm' as Eout.
    rewrite <- Eout in Hn. vm_compute in Hn. by injection Hn as <-. }
  subst n. exists out, dt.
  split_and!; [exact Hm | exact Hn | exact Hd | by vm_compute | apply Hsh; by vm_compute].
Defined.

(** X15. On a loaded graph whose weights are integers small enough for
    every sum of the run to be exact in double arithmetic
    ([nodeCount * (edgeCount + 1) * B <= 2^53]), with a cycle of negative
    weight that the source reaches, the loop never sees a superstep without
    a change: every rank leaves it through the bound
    [maxIterations = nodeCount], and the report shows [nodeCount]
    iterations. *)
Theorem X15_negative_cycle_runs_to_the_cap (P : Z) (fs : Z → FileSystem) (dur : Z)
    (prog file a2 a3 : string) (rest : list string) (s t B : Z) (g : Graph)
    (v : Z) (es1 es2 : list Edge) :
  1 ≤ P → atoi a2 = Some s → atoi a3 = Some t →
  (∀ r, 0 ≤ r < P → loadFromFile (fs r) file Graph_default = Ok (true, g)) →
  0 ≤ t < nodeCount g →
  0 ≤ B → integer_weights B g → nodeCount g * (edgeCount g + 1) * B ≤ exact_limit →
  walk g s v es1 → walk g v v es2 → dlt (walk_weight es2) zero = true →
  ∃ ws out,
    engine P s (replicate_graph P g) = Some ws ∧
    Forall (fun w => exited w = false ∧ iteration w = nodeCount g ∧
                     iterationsCompleted w = nodeCount g) ws ∧
    main P fs dur (prog :: file :: a2 :: a3 :: rest) = Exited 0 out ∧
    reported_iterations out = Some (nodeCount g).
Proof.
  intros HP Hs Ht Hload Hrange HB Hi Hlim H1 H2 Hneg.
  pose proof (loaded_wf P fs file g HP Hload) as Hwf.
  assert (Hfin : walk_weight es1 ≠ PInf).
  { destruct (walk_weight_integer B g s v es1 Hi H1) as (z & [Hz _] & _).
    intros E. rewrite E in Hz. by apply dle_PInf_inv in Hz. }
  destruct (engine_spec g s P Hwf HP)
    as (ws & d & it & ex & He & Hsy & Hlen & Hsd & Hit & F & _).
  destruct ex.
  { destruct F as [_ Hlb]. exfalso.
    by eapply (negative_cycle_no_fixpoint g s d v es1 es2). }
  destruct F as [-> _].
  destruct (main_spec P fs dur prog file a2 a3 rest s t g ws d _ false _
              HP Hs Ht Hload Hrange He Hsy Hlen) as (out & Hm & _ & Hri).
  exists ws, out. split_and!; [done | | done | done].
  apply Forall_forall. intros w Hw.
  by destruct (synced_all _ _ _ _ _ _ _ _ Hsy Hw) as (_ & _ & -> & -> & ->).
Qed.

Lemma negative_cycle_edges :
  has_edge (load_graph negative_cycle_file) 0 (mkEdge 1 (Fin (inject_Z 1))) ∧
  has_edge (load_graph negative_cycle_file) 1 (mkEdge 0 (Fin (inject_Z (-2)))).
Proof.
  split; (eexists; split; [by vm_compute|]); apply list_elem_of_singleton; reflexivity.
Qed.

Lemma negative_cycle_walk :
  walk (load_graph negative_cycle_file) 0 0
    [mkEdge 1 (Fin (inject_Z 1)); mkEdge 0 (Fin (inject_Z (-2)))].
Proof.
  destruct negative_cycle_edges as [H1 H2].
  apply (walk_snoc _ 0 1 [mkEdge 1 (Fin (inject_Z 1))] (mkEdge 0 (Fin (inject_Z (-2)))));
    [|done].
  apply (walk_snoc _ 0 0 [] (mkEdge 1 (Fin (inject_Z 1)))); [|done].
  apply walk_nil. by vm_compute.
Qed.

Lemma negative_cycle_integer : integer_weights 2 (load_graph negative_cycle_file).
Proof.
  vm_compute. repeat constructor.
  - exists 1. split; [split; reflexivity | split; discriminate].
  - exists (-2). split; [split; reflexivity | split; discriminate].
Qed.

Lemma X15_negative_cycle_runs_to_the_cap_witness :
  ∃ ws out,
    engine 2 0 (replicate_graph 2 (load_graph negative_cycle_file)) = Some ws ∧
    Forall (fun w => exited w = false ∧
                     iteration w = nodeCount (load_graph negative_cycle_file) ∧
                     iterationsCompleted w = nodeCount (load_graph negative_cycle_file))
           ws ∧
    main 2 (shared_fs negative_cycle_file) 0 ["prog"; "graph.txt"; "0"; "1"]%string
      = Exited 0 out ∧
    reported_iterations out = Some (nodeCount (load_graph negative_cycle_file)).
Proof.
  apply (X15_negative_cycle_runs_to_the_cap 2 (shared_fs negative_cycle_file) 0
           "prog" "graph.txt" "0" "1" [] 0 1 2 (load_graph negative_cycle_file) 0 []
           [mkEdge 1 (Fin (inject_Z 1)); mkEdge 0 (Fin (inject_Z (-2)))]);
    [lia | reflexivity | reflexivity | intros r _; reflexivity | | | | | | |].
  - vm_compute. split; [discriminate | reflexivity].
  - lia.
  - exact negative_cycle_integer.
  - by vm_compute.
  - apply walk_nil. by vm_compute.
  - exact negative_cycle_walk.
  - reflexivity.
Defined.

(** X16. The driver does not check the source: when it is no node of the
    graph, no rank owns it, every distance stays +infinity, and the run
    ends normally after one superstep with the report of [inf] for the
    destination. *)
Theorem X16_source_unchecked (P : Z) (fs : Z → FileSystem) (dur : Z)
    (prog file a2 a3 : string) (rest : list string) (s t : Z) (g : Graph) :
  1 ≤ P → atoi a2 = Some s → atoi a3 = Some t →
  (∀ r, 0 ≤ r < P → loadFromFile (fs r) file Graph_default = Ok (true, g)) →
  0 ≤ t < nodeCount g → ¬ (0 ≤ s < nodeCount g) →
  ∃ ws out,
    engine P s (replicate_graph P g) = Some ws ∧
    Forall (fun w => distances w = replicate (Z.to_nat (nodeCount g)) infinity) ws ∧
    main P fs dur (prog :: file :: a2 :: a3 :: rest) = Exited 0 out ∧
    reported_distance out = Some PInf ∧ reported_iterations out = Some 1.
Proof.
  intros HP Hs Ht Hload Hrange Hout.
  pose proof (loaded_wf P fs file g HP Hload) as Hwf.
  destruct (engine_spec g s P Hwf HP)
    as (ws & d & it & ex & He & Hsy & Hlen & Hsd & Hit & F & M & _).
  assert (Hsc : shortcut g s 0).
  { intros v es Hw. by apply no_walk_out_of_range in Hw. }
  destruct (M 0%nat Hsc) as [-> Hit0]; [simpl; lia|].
  assert (it = 0) as -> by (simpl in Hit0; lia).
  assert (Hinf : ∀ v, dget d v = PInf).
  { intros v. apply (unreached_infinite g s d v Hsd). intros [es Hw].
    by apply no_walk_out_of_range in Hw. }
  destruct (main_spec P fs dur prog file a2 a3 rest s t g ws d 0 true _
              HP Hs Ht Hload Hrange He Hsy Hlen) as (out & Hm & Hrd & Hri).
  exists ws, out. split_and!; [done | | done | by rewrite <- (Hinf t) | done].
  apply Forall_forall. intros w Hw.
  destruct (synced_all _ _ _ _ _ _ _ _ Hsy Hw) as (_ & -> & _).
  apply dget_ext; [by rewrite length_replicate|].
  intros v. by rewrite Hinf, dget_replicate.
Qed.

Lemma X16_source_unchecked_witness :
  ∃ ws out,
    engine 3 7 (replicate_graph 3 (load_graph chain4_file)) = Some ws ∧
    Forall (fun w => distances w
                     = replicate (Z.to_nat (nodeCount (load_graph chain4_file))) infinity)
           ws ∧
    main 3 (shared_fs chain4_file) 0 ["prog"; "graph.txt"; "7"; "3"]%string
      = Exited 0 out ∧
    reported_distance out = Some PInf ∧ reported_iterations out = Some 1.
Proof.
  apply (X16_source_unchecked 3 (shared_fs chain4_file) 0 "prog" "graph.txt"
           "7" "3" [] 7 3 (load_graph chain4_file));
    [lia | reflexivity | reflexivity | intros r _; reflexivity | |].
  - vm_compute. split; [discriminate | reflexivity].
  - vm_compute. intros [_ H]. discriminate H.
Defined.

(** ** Graphs without a negative cycle *)

(** A walk that visits [v] is a walk to [v] and a walk on from there. *)
Lemma walk_cut g s u es v :
  Graph_wf g → walk g s u es → v ∈ verts s es →
  ∃ es1 es2, es = es1 ++ es2 ∧ walk g s v es1 ∧ walk g v u es2.
Proof.
  intros Hwf. induction 1 as [Hs | u es e Hw IH He]; intros Hv.
  - apply list_elem_of_singleton in Hv as ->. exists [], [].
    split_and!; [done | by constructor | by constructor].
  - rewrite verts_snoc in Hv. apply elem_of_app in Hv as [Hv | Hv].
    + destruct (IH Hv) as (es1 & es2 & -> & Hw1 & Hw2).
      exists es1, (es2 ++ [e]). split_and!; [by rewrite app_assoc | done | by econstructor].
    + apply list_elem_of_singleton in Hv as ->.
      exists (es ++ [e]), []. split_and!; [by rewrite app_nil_r | by econstructor |].
      constructor. by apply (has_edge_range g u e).
Qed.

(** A walk is not shorter than its part before a piece of non-negative
    weight at its end. *)
Lemma walk_weight_app_nonneg es1 es2 :
  dle zero (walk_weight es2) → dle (walk_weight es1) (walk_weight (es1 ++ es2)).
Proof.
  intros Hnn. unfold walk_weight in *. rewrite foldl_app.
  pose proof (foldl_dadd_shift es2 (foldl (fun acc e => dadd acc (weight e)) zero es1)) as H.
  destruct (foldl _ zero es2) as [c|].
  - destruct (foldl _ zero es1) as [p|].
    + destruct H as (r & -> & Hr). apply dle_Fin in Hnn. apply dle_Fin. lra.
    + rewrite H. apply dle_refl.
  - rewrite H. apply dle_PInf.
Qed.

(** Loop erasure without a negative cycle: every walk can be replaced by
    one that visits no node twice and is not longer. *)
Lemma walk_simple_cycles g s v es :
  Graph_wf g → no_negative_cycle g → walk g s v es →
  ∃ es', walk g s v es' ∧ NoDup (verts s es') ∧ dle (walk_weight es') (walk_weight es).
Proof.
  intros Hwf Hnc. induction 1 as [Hs | u es e Hw IH He].
  - exists []. split_and!; [by constructor | | auto with dbl].
    unfold verts. simpl. apply NoDup_singleton.
  - destruct IH as (es' & Hw' & Hnd & Hle).
    assert (Hstep : dle (walk_weight (es' ++ [e])) (walk_weight (es ++ [e]))).
    { rewrite !walk_weight_snoc. by apply dadd_mono. }
    destruct (decide (destination e ∈ verts s es')) as [Hin | Hnin].
    + destruct (walk_cut _ _ _ _ _ Hwf Hw' Hin) as (es1 & es2 & -> & Hw1 & Hw2).
      exists es1. split_and!; [done | |].
      * rewrite verts_app in Hnd. by apply NoDup_app in Hnd as (? & _).
      * eapply dle_trans; [|exact Hstep].
        rewrite <- app_assoc. apply walk_weight_app_nonneg.
        apply (Hnc (destination e)). by econstructor.
    + exists (es' ++ [e]). split_and!; [by econstructor | | done].
      rewrite verts_snoc. apply NoDup_app. split_and!; [done | | apply NoDup_singleton].
      intros x Hx ->%list_elem_of_singleton. done.
Qed.

(** Without a negative cycle the walks of fewer than [nodeCount] edges
    suffice. *)
Lemma cycle_free_shortcut g s :
  Graph_wf g → no_negative_cycle g → shortcut g s (Z.to_nat (nodeCount g - 1)).
Proof.
  intros Hwf Hnc v es Hw.
  destruct (walk_simple_cycles g s v es Hwf Hnc Hw) as (es' & Hw' & Hnd & Hle).
  exists es'. split_and!; [done | | done].
  assert (Hlen : (length (verts s es') ≤ length (seqZ 0 (nodeCount g)))%nat).
  { apply submseteq_length, NoDup_submseteq; [done|].
    intros x Hx. pose proof (walk_verts_range g s v es' Hwf Hw') as Hr.
    rewrite Forall_forall in Hr. apply elem_of_seqZ. specialize (Hr x Hx). lia. }
  rewrite length_seqZ in Hlen. unfold verts in Hlen. simpl in Hlen.
  rewrite length_fmap in Hlen. lia.
Qed.

(** X17. The driver is right on negative weights as long as no cycle has a
    negative weight: for every such loaded graph whose weights are integers
    small enough for every sum of the run to be exact in double arithmetic
    ([nodeCount * (edgeCount + 1) * B <= 2^53]), every source and every
    destination node, the loop converges before its bound, every rank ends
    with the shortest-path distance of the destination, which is +infinity
    or an integer within [2^53], and the report shows it. *)
Theorem X17_no_negative_cycle_shortest (P : Z) (fs : Z → FileSystem) (dur : Z)
    (prog file a2 a3 : string) (rest : list string) (s t B : Z) (g : Graph) :
  1 ≤ P → atoi a2 = Some s → atoi a3 = Some t →
  (∀ r, 0 ≤ r < P → loadFromFile (fs r) file Graph_default = Ok (true, g)) →
  0 ≤ t < nodeCount g →
  0 ≤ B → integer_weights B g → nodeCount g * (edgeCount g + 1) * B ≤ exact_limit →
  no_negative_cycle g →
  ∃ ws out dt,
    engine P s (replicate_graph P g) = Some ws ∧
    Forall (fun w => exited w = true ∧ vget (distances w) t = Some dt) ws ∧
    main P fs dur (prog :: file :: a2 :: a3 :: rest) = Exited 0 out ∧
    reported_distance out = Some dt ∧
    shortest_distance g s t dt ∧
    (dt = PInf ∨
     ∃ z, deq dt (Fin (inject_Z z)) ∧ - exact_limit ≤ z ≤ exact_limit).
Proof.
  intros HP Hs Ht Hload Hrange HB Hi Hlim Hnc.
  pose proof (loaded_wf P fs file g HP Hload) as Hwf.
  destruct (loadFromFile_inv (fs 0) file g (Hload 0 ltac:(lia))) as [[_ Hec] _].
  destruct (engine_spec g s P Hwf HP)
    as (ws & d & it & ex & He & Hsy & Hlen & Hsd & Hit & F & M & _).
  destruct (M _ (cycle_free_shortcut g s Hwf Hnc)) as [-> _]; [lia|].
  destruct F as [_ Hlb].
  destruct (main_spec P fs dur prog file a2 a3 rest s t g ws d it true _
              HP Hs Ht Hload Hrange He Hsy Hlen) as (out & Hm & Hrd & _).
  pose proof (sound_lower_bound_shortest g s d t Hsd Hlb) as Hsh.
  exists ws, out, (dget d t). split_and!; [done | | done | done | done |].
  - apply Forall_forall. intros w Hw.
    destruct (synced_all _ _ _ _ _ _ _ _ Hsy Hw) as (_ & -> & _ & -> & _).
    split; [done|]. apply vget_dget. lia.
  - destruct (shortest_distance_integer B g s t _ Hwf HB Hi
                (cycle_free_shortcut g s Hwf Hnc) Hsh) as [E | (z & Hz & Hb)];
      [by left | right].
    exists z. split; [done|].
    assert (0 ≤ edgeCount g) by (rewrite Hec; unfold stored_edges; lia).
    nia.
Qed.

Lemma negative_edge_walks v u es :
  walk (load_graph negative_edge_file) v u es → (es = [] ∧ u = v) ∨ (v = 0 ∧ u = 1).
Proof.
  induction 1 as [|u es e Hw IH (adj & Hadj & Hin)]; [by left|].
  assert (Hu : u = 0 ∧ destination e = 1).
  { unfold getAdjacencyList in Hadj.
    destruct (vget _ u) as [nd|] eqn:E; [|done]. simpl in Hadj. simplify_eq.
    apply vget_Some in E as [Hu E].
    destruct (Z.to_nat u) as [|[|n]] eqn:En; vm_compute in E; simplify_eq.
    - apply list_elem_of_singleton in Hin as ->. split; [lia | done].
    - by apply elem_of_nil in Hin. }
  destruct Hu as [-> ->]. right. destruct IH as [[_ ->] | [_ ?]]; [done | lia].
Qed.

Lemma negative_edge_no_cycle : no_negative_cycle (load_graph negative_edge_file).
Proof.
  intros v es Hw. destruct (negative_edge_walks _ _ _ Hw) as [[-> _] | [-> ?]]; [done | lia].
Qed.

Lemma negative_edge_integer : integer_weights 3 (load_graph negative_edge_file).
Proof.
  vm_compute. repeat constructor.
  exists (-3). split; [split; reflexivity | split; discriminate].
Qed.

Lemma X17_no_negative_cycle_shortest_witness :
  ∃ ws out dt,
    engine 2 0 (replicate_graph 2 (load_graph negative_edge_file)) = Some ws ∧
    Forall (fun w => exited w = true ∧ vget (distances w) 1 = Some dt) ws ∧
    main 2 (shared_fs negative_edge_file) 0 ["prog"; "graph.txt"; "0"; "1"]%string
      = Exited 0 out ∧
    reported_distance out = Some dt ∧
    shortest_distance (load_graph negative_edge_file) 0 1 dt ∧
    (dt = PInf ∨
     ∃ z, deq dt (Fin (inject_Z z)) ∧ - exact_limit ≤ z ≤ exact_limit).
Proof.
  apply (X17_no_negative_cycle_shortest 2 (shared_fs negative_edge_file) 0
           "prog" "graph.txt" "0" "1" [] 0 1 3 (load_graph negative_edge_file));
    [lia | reflexivity | reflexivity | intros r _; reflexivity | | | | |].
  - vm_compute. split; [discriminate | reflexivity].
  - lia.
  - exact negative_edge_integer.
  - by vm_compute.
  - exact negative_edge_no_cycle.
Defined.

(** ** Correctness against the sequential reference *)

(** C1. For every loaded graph with non-negative weights, source and
    destination nodes of the graph and P >= 1 workers: the run is defined,
    every rank ends with the same entry for the destination, the report
    shows it, and it equals (as a number) the [totalDistance] that the
    sequential reference [sequentialDijkstra] returns on the same graph,
    with any priority queue that keeps the guarantees of
    [std::priority_queue]. When no walk leads from the source to the
    destination, both are +infinity and the reference reports no path. On
    integer weights small enough for every sum of the run to be exact in
    double arithmetic ([nodeCount * (edgeCount + 1) * B <= 2^53]) it is the
    shortest-path distance. *)
Theorem C1_matches_sequential_reference {PQ : Type} `{!PriorityQueue PQ}
    `{!PriorityQueueLaws PQ}
    (P : Z) (fs : Z → FileSystem) (dur : Z)
    (prog file a2 a3 : string) (rest : list string) (s t : Z) (g : Graph) :
  1 ≤ P → atoi a2 = Some s → atoi a3 = Some t →
  (∀ r, 0 ≤ r < P → loadFromFile (fs r) file Graph_default = Ok (true, g)) →
  nonneg_weights g → 0 ≤ s < nodeCount g → 0 ≤ t < nodeCount g →
  ∃ ws out dt r,
    engine P s (replicate_graph P g) = Some ws ∧
    Forall (fun w => vget (distances w) t = Some dt) ws ∧
    main P fs dur (prog :: file :: a2 :: a3 :: rest) = Exited 0 out ∧
    reported_distance out = Some dt ∧
    sequentialDijkstra (PQ := PQ) g s t = Some r ∧
    deq dt (totalDistance r) ∧
    (¬ reachable g s t → dt = PInf ∧ totalDistance r = PInf ∧ found r = false) ∧
    (∀ B, 0 ≤ B → integer_weights B g →
          nodeCount g * (edgeCount g + 1) * B ≤ exact_limit →
          shortest_distance g s t dt ∧ shortest_distance g s t (totalDistance r)).
Proof.
  intros HP Hs Ht Hload Hnn Hsr Htr.
  pose proof (loaded_wf P fs file g HP Hload) as Hwf.
  destruct (engine_spec g s P Hwf HP)
    as (ws & d & it & ex & He & Hsy & Hlen & Hsd & Hit & F & M & _).
  destruct (M _ (nonneg_shortcut g s Hwf Hnn)) as [-> _]; [lia|].
  destruct F as [_ Hlb].
  destruct (main_spec P fs dur prog file a2 a3 rest s t g ws d it true _
              HP Hs Ht Hload Htr He Hsy Hlen) as (out & Hm & Hrd & _).
  pose proof (sound_lower_bound_shortest g s d t Hsd Hlb) as Hsh.
  destruct (search_spec (PQ := PQ) g s (fun _ d => Some d) Hwf Hnn Hsr)
    with (t := t) (f0 := Some zero) as (r & Hr & H1 & H2 & _ & _ & _ & H5 & _).
  { intros v d' _. exists d'. split; [done | split; apply dle_refl]. }
  { done. }
  { exists zero. split; [done | split; apply dle_refl]. }
  pose proof (shortest_distance_unique g s t _ _ Hsh H1) as Hdeq.
  exists ws, out, (dget d t), r.
  split_and!; [done | | done | done | done | done | | done].
  - apply Forall_forall. intros w Hw.
    destruct (synced_all _ _ _ _ _ _ _ _ Hsy Hw) as (_ & -> & _).
    apply vget_dget. lia.
  - intros Hnr. pose proof (unreached_infinite g s d t Hsd Hnr) as Hd.
    split_and!; [done | | by apply H5].
    by apply (deq_PInf _ _ Hdeq).
Qed.

Lemma C1_matches_sequential_reference_witness :
  ∃ ws out dt r,
    engine 3 0 (replicate_graph 3 (load_graph chain4_file)) = Some ws ∧
    Forall (fun w => vget (distances w) 3 = Some dt) ws ∧
    main 3 (shared_fs chain4_file) 0 ["prog"; "graph.txt"; "0"; "3"]%string
      = Exited 0 out ∧
    reported_distance out = Some dt ∧
    sequentialDijkstra (PQ := list PQElement) (load_graph chain4_file) 0 3 = Some r ∧
    deq dt (totalDistance r) ∧
    (¬ reachable (load_graph chain4_file) 0 3 →
     dt = PInf ∧ totalDistance r = PInf ∧ found r = false) ∧
    shortest_distance (load_graph chain4_file) 0 3 dt ∧
    shortest_distance (load_graph chain4_file) 0 3 (totalDistance r).
Proof.
  destruct (C1_matches_sequential_reference (PQ := list PQElement)
              (PriorityQueueLaws0 := list_queue_laws)
              3 (shared_fs chain4_file) 0 "prog" "graph.txt" "0" "3" []
              0 3 (load_graph chain4_file))
    as (ws & out & dt & r & H1 & H2 & H3 & H4 & H5 & H6 & H7 & H8);
    [lia | reflexivity | reflexivity | intros r _; reflexivity
     | apply (bool_decide_unpack _); by vm_compute
     | vm_compute; split; [discriminate | reflexivity]
     | vm_compute; split; [discriminate | reflexivity] |].
  exists ws, out, dt, r.
  split_and!; [done | done | done | done | done | done | done | |];
    apply (H8 1); [lia | exact chain4_integer | by vm_compute
                   | lia | exact chain4_integer | by vm_compute].
Defined.
